(** * Promise (publicly verifiable secret sharing) and Pedersen VSS

    A shallow embedding of [poly/promise/promise.go] and [share/vss/vss.go],
    followed by the properties of the two protocols that are checked against
    the code.

    Conventions of the embedding.
    - A Go [int] is a [Z] (64-bit platform: no arithmetic below comes near
      the word size); [uint32(x)] is [x mod 2^32].
    - A byte slice is a [list byte] whose capacity equals its length.  A
      slice that Go distinguishes from [nil] is an [option (list byte)].
    - A call has one of three outcomes: it returns ([Returned]), it returns a
      non-nil [error] ([Failed]), or it panics ([Panicked]).
    - The methods of the aggregator and of the verifier, which assign to
      their receiver, are functions [S -> result A * S]: the second
      component is the receiver as the call leaves it, whatever the outcome.
      [ConstructPromise] and the [UnmarshalBinary] methods give the receiver
      as a successful call leaves it.
    - A pointer that may be nil is an [option]; the [*Response] objects that
      the response map shares with its callers are the values of the map.
    - The group suite, the signature and proof primitives and the polynomial
      evaluation are consumed through the class [Suite]; nothing is assumed
      of them except where a theorem lists the contract it needs. *)

From Stdlib Require Import ZArith List String Lia Bool DecimalString.
From Stdlib.Strings Require Import Byte.
From stdpp Require Import base option list gmap strings.

Local Open Scope Z_scope.

(** ** Outcomes of a call *)

Inductive panic : Type :=
| IndexOutOfRange                 (* index or slice bounds out of range *)
| MakeOutOfRange                  (* make: len out of range *)
| NilDereference                  (* a method reads through a nil pointer *)
| PanicMsg (msg : string).        (* panic("...") *)

Inductive error : Type :=
| errDealAlreadyProcessed         (* the package-level sentinel of vss.go *)
| errors_New (msg : string)       (* errors.New("...") at a call site *)
| errors_Ext (code : Z).          (* an error value made by a consumed primitive *)

Inductive result (A : Type) : Type :=
| Returned (a : A)
| Failed (e : error)
| Panicked (p : panic).
Arguments Returned {A} a.
Arguments Failed {A} e.
Arguments Panicked {A} p.

#[export] Instance panic_eq_dec : EqDecision panic.
Proof. solve_decision. Defined.
#[export] Instance error_eq_dec : EqDecision error.
Proof. solve_decision. Defined.
#[export] Instance result_eq_dec `{EqDecision A} : EqDecision (result A).
Proof. solve_decision. Defined.
#[export] Instance byte_eq_dec : EqDecision byte := Byte.byte_eq_dec.

#[export] Instance result_ret : MRet result := @Returned.
#[export] Instance result_bind : MBind result := λ A B f m,
  match m with
  | Returned a => f a
  | Failed e => Failed e
  | Panicked p => Panicked p
  end.

(** [err != nil { return err }] on a value of Go type [error]. *)
Definition check (o : option error) : result unit :=
  match o with
  | None => Returned ()
  | Some e => Failed e
  end.

(** A call on a receiver of type [S]. *)
Definition go (S A : Type) : Type := S → result A * S.


(** ** Byte slices *)

Definition len {A} (l : list A) : Z := Z.of_nat (length l).

(** [make([]T, n)] with elements [z]. *)
Definition make {A} (z : A) (n : Z) : result (list A) :=
  if n <? 0 then Panicked MakeOutOfRange else Returned (replicate (Z.to_nat n) z).

(** [l[i]]. *)
Definition index {A} (l : list A) (i : Z) : result A :=
  if (i <? 0) || (len l <=? i) then Panicked IndexOutOfRange
  else match l !! Z.to_nat i with
       | Some x => Returned x
       | None => Panicked IndexOutOfRange
       end.

(** [l[i] = x]. *)
Definition assign {A} (l : list A) (i : Z) (x : A) : result (list A) :=
  if (i <? 0) || (len l <=? i) then Panicked IndexOutOfRange
  else Returned (<[Z.to_nat i := x]> l).

(** [buf[lo:hi]]. *)
Definition slice {A} (buf : list A) (lo hi : Z) : result (list A) :=
  if (lo <? 0) || (hi <? lo) || (len buf <? hi) then Panicked IndexOutOfRange
  else Returned (take (Z.to_nat (hi - lo)) (drop (Z.to_nat lo) buf)).

(** [buf[lo:]]. *)
Definition slice_from {A} (buf : list A) (lo : Z) : result (list A) :=
  slice buf lo (len buf).

(** [copy(buf[off:], src)]: the first [min (len buf - off) (len src)]
    elements of [src] overwrite [buf] from [off] on. *)
Definition copy_at {A} (buf : list A) (off : Z) (src : list A) : result (list A) :=
  dst ← slice_from buf off;
  let k := Nat.min (length dst) (length src) in
  Returned (take (Z.to_nat off) buf ++ take k src ++ drop k dst).

Definition uint32 (x : Z) : Z := x mod 2 ^ 32.

Definition byte_of_Z (x : Z) : byte :=
  default x00%byte (Byte.of_N (Z.to_N (x mod 256))).

Definition Z_of_byte (b : byte) : Z := Z.of_N (Byte.to_N b).

(** The four bytes [binary.LittleEndian.PutUint32] writes for [v]. *)
Definition le32 (v : Z) : list byte :=
  [ byte_of_Z v; byte_of_Z (v / 2 ^ 8); byte_of_Z (v / 2 ^ 16); byte_of_Z (v / 2 ^ 24) ].

(** [binary.LittleEndian.PutUint32(buf[off:], v)]; it needs four bytes. *)
Definition PutUint32 (buf : list byte) (off : Z) (v : Z) : result (list byte) :=
  dst ← slice_from buf off;
  if len dst <? 4 then Panicked IndexOutOfRange else copy_at buf off (le32 v).

(** [binary.LittleEndian.Uint32(buf[off:])]. *)
Definition Uint32 (buf : list byte) (off : Z) : result Z :=
  dst ← slice_from buf off;
  match dst with
  | b0 :: b1 :: b2 :: b3 :: _ =>
      Returned (Z_of_byte b0 + Z_of_byte b1 * 2 ^ 8
                + Z_of_byte b2 * 2 ^ 16 + Z_of_byte b3 * 2 ^ 24)
  | _ => Panicked IndexOutOfRange
  end.

Definition uint32Size : Z := 4.

(** [[]byte("...")]. *)
Definition bytes_of_string (s : string) : list byte := list_byte_of_string s.

(** [for i := lo; i < hi; i++ { acc = body(i, acc) }]; an error or a panic
    in the body leaves the loop. *)
Fixpoint for_loop {A} (k : nat) (i : Z) (body : Z → A → result A) (acc : A) : result A :=
  match k with
  | O => Returned acc
  | S k' => acc' ← body i acc; for_loop k' (i + 1) body acc'
  end.

Definition for_range {A} (lo hi : Z) (body : Z → A → result A) (acc : A) : result A :=
  for_loop (Z.to_nat (hi - lo)) lo body acc.

(** [reflect.DeepEqual] on two [[]byte]: both nil, or both non-nil with the
    same contents. *)
Definition DeepEqual_bytes (a b : option (list byte)) : bool := bool_decide (a = b).

(** What a reader of a [[]byte] sees: nil reads as the empty slice. *)
Definition bytes_of (o : option (list byte)) : list byte := default [] o.

(** ** Streams

    [io.Writer] and [io.Reader] are interfaces.  A writer answers [Write]
    with the count and the error, and is then in a new state.  A reader is
    only read through [io.ReadFull(r, buf)]: for a buffer of [k] bytes this
    gives the bytes that were stored at the start of the buffer, whose
    number is the count returned, the error, and the reader afterwards. *)

Class Writer (W : Type) : Type :=
  io_Write : W → list byte → (Z * option error) * W.

Class Reader (R : Type) : Type :=
  io_ReadFull : R → Z → (list byte * option error) * R.

(** [io.EOF] and [io.ErrUnexpectedEOF]. *)
Definition io_EOF : error := errors_New "EOF".
Definition io_ErrUnexpectedEOF : error := errors_New "unexpected EOF".

(** A [bytes.Buffer] that is written to: the bytes written so far. *)
#[export] Instance bytes_Writer : Writer (list byte) :=
  λ w p, ((len p, None), w ++ p).

(** A [bytes.Reader]: the bytes still to be read.  [io.ReadFull] asks for
    nothing when the buffer is empty; it reports [io.EOF] when no byte is
    left, and [io.ErrUnexpectedEOF] when the bytes run out before the
    buffer is full. *)
#[export] Instance bytes_Reader : Reader (list byte) :=
  λ r k,
    if k <=? 0 then (([], None), r) else
    match r with
    | [] => (([], Some io_EOF), r)
    | _ => if len r <? k then ((r, Some io_ErrUnexpectedEOF), [])
           else ((take (Z.to_nat k) r, None), drop (Z.to_nat k) r)
    end.

(** What a method that returns [(int, error)] and assigns to its receiver
    leaves: the count with the receiver, the count with the error, or a
    panic. *)
Inductive io_result (A : Type) : Type :=
| IoReturned (n : Z) (a : A)
| IoFailed (n : Z) (e : error)
| IoPanicked (q : panic).
Arguments IoReturned {A} n a.
Arguments IoFailed {A} n e.
Arguments IoPanicked {A} q.

(** ** The consumed primitives

    [abstract.Suite] with its points and secrets, [anon], [proof], [sign] and
    the evaluation side of the polynomial packages.  [Point_Mul s None x] is
    [Mul(nil, x)], the multiplication of the standard base. *)

Class Suite : Type := {
  SuiteT : Type;
  Point : Type;
  Secret : Type;
  Stream : Type;
  SuiteT_eq_dec :: EqDecision SuiteT;
  Point_eq_dec :: EqDecision Point;
  Secret_eq_dec :: EqDecision Secret;
  (* abstract.Suite *)
  PointLen : SuiteT → Z;
  SecretLen : SuiteT → Z;
  Hash : SuiteT → list byte → list byte;
  Cipher : SuiteT → list byte → Stream;
  (* abstract.Point *)
  Point_String : Point → string;
  Point_Mul : SuiteT → option Point → Secret → Point;
  Point_Add : SuiteT → Point → Point → Point;
  Point_Pick : SuiteT → Stream → Point;
  Point_MarshalBinary : Point → result (list byte);
  Point_UnmarshalBinary : SuiteT → list byte → result Point;
  (* abstract.Secret *)
  Secret_Add : SuiteT → Secret → Secret → Secret;
  Secret_Sub : SuiteT → Secret → Secret → Secret;
  Secret_Pick : SuiteT → Stream → Secret;
  Secret_MarshalBinary : Secret → result (list byte);
  Secret_UnmarshalBinary : SuiteT → list byte → result Secret;
  (* anon.Sign and anon.Verify on a one-key set *)
  anon_Sign : SuiteT → Stream → list byte → Point → Secret → option (list byte);
  anon_Verify : SuiteT → list byte → Point → list byte → option error;
  (* proof.Rep("D","x","P") through proof.HashProve and proof.HashVerify *)
  proof_HashProve : SuiteT → string → Stream → Point → Point → Secret
                    → result (option (list byte));
  proof_HashVerify : SuiteT → string → Point → Point → list byte → option error;
  (* sign.Schnorr and sign.VerifySchnorr *)
  sign_Schnorr : SuiteT → Secret → list byte → result (list byte);
  sign_VerifySchnorr : SuiteT → Point → list byte → list byte → option error;
  (* poly.PriPoly.Pick, poly.PriShares.Split, poly.PubPoly.Commit with the
     standard base, poly.PubPoly.Check *)
  PriPoly_Pick : SuiteT → Z → Secret → Stream → result (list Secret);
  PriShares_Split : SuiteT → list Secret → Z → result (list Secret);
  PubPoly_Commit : SuiteT → list Secret → result (list Point);
  PubPoly_Check : SuiteT → list Point → Z → Secret → bool;
  (* share.NewPubPoly(suite, nil, commits).Eval(i).V *)
  share_PubPoly_Eval : SuiteT → list Point → Z → Point;
}.

(** [config.KeyPair]. *)
Record KeyPair `{Suite} : Type := {
  kp_Suite : SuiteT;
  kp_Public : Point;
  kp_Secret : Secret;
}.

Module promise.
Section WithSuite.
Context `{Suite}.

Definition protocolName : string := "Promise Protocol".
Definition sigMsg : list byte := bytes_of_string "Promise Signature".
Definition sigBlameMsg : list byte := bytes_of_string "Promise Blame Signature".

(** *** poly.PubPoly: the wire side *)

(** Modelled from the spec: the codec of [poly.PubPoly], which is not among
    the sources.  A public polynomial is its ordered commitment coefficients;
    [PubPoly(t)] on the wire is [t] serialized points; two polynomials are
    equal when they have equally many coefficients and these are pairwise
    equal. *)
Definition PubPoly : Type := list Point.

(** Modelled from the spec: [poly.PubPoly.Init] makes room for [t]
    coefficients. *)
Definition PubPoly_Init (t : Z) : result (list unit) := make () t.

(** Modelled from the spec: [poly.PubPoly.MarshalSize], [k] points. *)
Definition PubPoly_MarshalSize (s : SuiteT) (k : Z) : Z := k * PointLen s.

(** Modelled from the spec: [poly.PubPoly.MarshalBinary], the coefficients
    one after the other. *)
Fixpoint PubPoly_MarshalBinary (pub : PubPoly) : result (list byte) :=
  match pub with
  | [] => Returned []
  | c :: pub' =>
      b ← Point_MarshalBinary c;
      rest ← PubPoly_MarshalBinary pub';
      Returned (b ++ rest)
  end.

(** Modelled from the spec: [poly.PubPoly.UnmarshalBinary] into a
    polynomial initialised for [k] coefficients. *)
Fixpoint PubPoly_UnmarshalBinary (s : SuiteT) (k : nat) (buf : list byte) : result PubPoly :=
  match k with
  | O => Returned []
  | S k' =>
      b ← slice buf 0 (PointLen s);
      c ← Point_UnmarshalBinary s b;
      rest ← slice_from buf (PointLen s);
      pub' ← PubPoly_UnmarshalBinary s k' rest;
      Returned (c :: pub')
  end.

(** Modelled from the spec: [poly.PubPoly.Equal], structural equality. *)
Definition PubPoly_Equal (p1 p2 : PubPoly) : bool := bool_decide (p1 = p2).

(** *** PromiseSignature *)

Record PromiseSignature : Type := {
  sig_suite : SuiteT;
  sig_signature : option (list byte);
}.

Definition PromiseSignature_init (s : SuiteT) (sig : option (list byte)) : PromiseSignature :=
  {| sig_suite := s; sig_signature := sig |}.

Definition PromiseSignature_UnmarshalInit (p : PromiseSignature) (s : SuiteT) : PromiseSignature :=
  {| sig_suite := s; sig_signature := sig_signature p |}.

(** [p.suite == p2.suite && reflect.DeepEqual(p, p2)]: the deep comparison
    goes through both fields again. *)
Definition PromiseSignature_Equal (p p2 : PromiseSignature) : bool :=
  bool_decide (sig_suite p = sig_suite p2)
  && (bool_decide (sig_suite p = sig_suite p2)
      && DeepEqual_bytes (sig_signature p) (sig_signature p2)).

Definition PromiseSignature_MarshalSize (p : PromiseSignature) : Z :=
  uint32Size + len (bytes_of (sig_signature p)).

Definition PromiseSignature_MarshalBinary (p : PromiseSignature) : result (list byte) :=
  buf ← make x00%byte (PromiseSignature_MarshalSize p);
  buf ← PutUint32 buf 0 (uint32 (len (bytes_of (sig_signature p))));
  buf ← copy_at buf uint32Size (bytes_of (sig_signature p));
  Returned buf.

Definition PromiseSignature_UnmarshalBinary (p : PromiseSignature) (buf : list byte)
  : result PromiseSignature :=
  if len buf <? uint32Size then Failed (errors_New "Buffer size too small") else
  sigLen ← Uint32 buf 0;
  if len buf <? uint32Size + sigLen then Failed (errors_New "Buffer size too small") else
  sig ← slice buf uint32Size (uint32Size + sigLen);
  Returned {| sig_suite := sig_suite p; sig_signature := Some sig |}.

(** *** BlameProof *)

Record BlameProof : Type := {
  bp_suite : SuiteT;
  bp_diffieKey : Point;
  bp_diffieKeyProof : option (list byte);
  bp_signature : PromiseSignature;
}.

Definition BlameProof_init (s : SuiteT) (key : Point) (dkp : option (list byte))
    (sig : PromiseSignature) : BlameProof :=
  {| bp_suite := s; bp_diffieKey := key; bp_diffieKeyProof := dkp; bp_signature := sig |}.

Definition BlameProof_UnmarshalInit (bp : BlameProof) (s : SuiteT) : BlameProof :=
  {| bp_suite := s; bp_diffieKey := bp_diffieKey bp;
     bp_diffieKeyProof := bp_diffieKeyProof bp; bp_signature := bp_signature bp |}.

Definition BlameProof_Equal (bp bp2 : BlameProof) : bool :=
  bool_decide (bp_suite bp = bp_suite bp2)
  && bool_decide (bp_diffieKey bp = bp_diffieKey bp2)
  && DeepEqual_bytes (bp_diffieKeyProof bp) (bp_diffieKeyProof bp2)
  && PromiseSignature_Equal (bp_signature bp) (bp_signature bp2).

Definition BlameProof_MarshalSize (bp : BlameProof) : Z :=
  2 * uint32Size + PointLen (bp_suite bp) + len (bytes_of (bp_diffieKeyProof bp))
  + PromiseSignature_MarshalSize (bp_signature bp).

Definition BlameProof_MarshalBinary (bp : BlameProof) : result (list byte) :=
  let pointLen := PointLen (bp_suite bp) in
  let proofLen := len (bytes_of (bp_diffieKeyProof bp)) in
  buf ← make x00%byte (BlameProof_MarshalSize bp);
  buf ← PutUint32 buf 0 (uint32 proofLen);
  buf ← PutUint32 buf uint32Size (uint32 (PromiseSignature_MarshalSize (bp_signature bp)));
  pointBuf ← Point_MarshalBinary (bp_diffieKey bp);
  buf ← copy_at buf (2 * uint32Size) pointBuf;
  buf ← copy_at buf (2 * uint32Size + pointLen) (bytes_of (bp_diffieKeyProof bp));
  sigBuf ← PromiseSignature_MarshalBinary (bp_signature bp);
  buf ← copy_at buf (2 * uint32Size + pointLen + proofLen) sigBuf;
  Returned buf.

Definition BlameProof_UnmarshalBinary (bp : BlameProof) (buf : list byte) : result BlameProof :=
  let pointLen := PointLen (bp_suite bp) in
  if len buf <? 2 * uint32Size + pointLen then Failed (errors_New "Buffer size too small") else
  proofLen ← Uint32 buf 0;
  sigLen ← Uint32 buf uint32Size;
  let bufPos := 2 * uint32Size in
  keyBuf ← slice buf bufPos (bufPos + pointLen);
  diffieKey ← Point_UnmarshalBinary (bp_suite bp) keyBuf;
  let bufPos := bufPos + pointLen in
  if len buf <? 2 * uint32Size + pointLen + proofLen + sigLen
  then Failed (errors_New "Buffer size too small") else
  zeros ← make x00%byte proofLen;
  src ← slice buf bufPos (bufPos + proofLen);
  diffieKeyProof ← copy_at zeros 0 src;
  let bufPos := bufPos + proofLen in
  sigBuf ← slice buf bufPos (bufPos + sigLen);
  sig ← PromiseSignature_UnmarshalBinary
          (PromiseSignature_init (bp_suite bp) None) sigBuf;
  Returned {| bp_suite := bp_suite bp; bp_diffieKey := diffieKey;
              bp_diffieKeyProof := Some diffieKeyProof; bp_signature := sig |}.

(** *** Promise *)

Record Promise : Type := {
  p_id : string;
  p_suite : SuiteT;
  p_t : Z;
  p_r : Z;
  p_n : Z;
  p_pubKey : Point;
  p_pubPoly : PubPoly;
  p_insurers : list Point;
  p_secrets : list Secret;
}.

Definition diffieHellmanSecret (s : SuiteT) (diffieBase : Point) : result Secret :=
  match Point_MarshalBinary diffieBase with
  | Returned buff => Returned (Secret_Pick s (Cipher s buff))
  | Failed _ => Panicked (PanicMsg "Bad shared secret for Diffie-Hellman given.")
  | Panicked q => Panicked q
  end.

(** The receiver's fields are all assigned before the parameters are looked
    at; the value below is the receiver on return.  [p.secrets[i]] is
    assigned for [i = 0, 1, ...] in that order, so the slice is built from
    the left.  [rand] is [random.Stream]. *)
Definition ConstructPromise (secretPair longPair : KeyPair) (t r : Z)
    (insurers : list Point) (rand : Stream) : result Promise :=
  let n := len insurers in
  let suite := kp_Suite secretPair in
  if negb ((t <=? r) && (r <=? n))
  then Panicked (PanicMsg "Invalid t, r, and n. Expected t <= r <= n") else
  if negb (bool_decide (kp_Suite longPair = kp_Suite secretPair))
  then Panicked (PanicMsg "Two different suites used.") else
  pripoly ← PriPoly_Pick suite t (kp_Secret secretPair) rand;
  prishares ← PriShares_Split suite pripoly n;
  pubPoly ← PubPoly_Commit suite pripoly;
  secrets ← for_range 0 n (λ i secrets,
      ins ← index insurers i;
      let diffieBase := Point_Mul suite (Some ins) (kp_Secret longPair) in
      diffieSecret ← diffieHellmanSecret suite diffieBase;
      share ← index prishares i;
      Returned (secrets ++ [Secret_Add suite share diffieSecret])) [];
  Returned {| p_id := Point_String (kp_Public secretPair);
              p_suite := suite; p_t := t; p_r := r; p_n := n;
              p_pubKey := kp_Public longPair; p_pubPoly := pubPoly;
              p_insurers := insurers; p_secrets := secrets |}.

Definition UnmarshalInit (p : Promise) (s : SuiteT) : Promise :=
  {| p_id := p_id p; p_suite := s; p_t := p_t p; p_r := p_r p; p_n := p_n p;
     p_pubKey := p_pubKey p; p_pubPoly := p_pubPoly p;
     p_insurers := p_insurers p; p_secrets := p_secrets p |}.

Definition verifyPromise (p : Promise) : result unit :=
  if (p_n p <? p_t p) || (p_r p <? p_t p) || (p_n p <? p_r p)
  then Failed (errors_New "Invalid t-of-n shares Promise. Expected: t <= r <= n") else
  if negb (len (p_insurers p) =? p_n p) || negb (len (p_secrets p) =? p_n p)
  then Failed (errors_New "Insurers and secrets array should be of length promise.n")
  else Returned ().

Definition Id (p : Promise) : string := p_id p.

Definition VerifyShare (p : Promise) (i : Z) (gKeyPair : KeyPair) : result unit :=
  if (i <? 0) || (p_n p <=? i)
  then Failed (errors_New "Invalid index. Expected 0 <= i < n") else
  ins ← index (p_insurers p) i;
  if negb (bool_decide (ins = kp_Public gKeyPair))
  then Failed (errors_New ("The long-term public key the Promise recorded as the insurer" ++
                           "of this shares differs from what is expected")) else
  let diffieBase := Point_Mul (p_suite p) (Some (p_pubKey p)) (kp_Secret gKeyPair) in
  diffieSecret ← diffieHellmanSecret (p_suite p) diffieBase;
  sec ← index (p_secrets p) i;
  let share := Secret_Sub (p_suite p) sec diffieSecret in
  if negb (PubPoly_Check (p_suite p) (p_pubPoly p) i share)
  then Failed (errors_New "The share failed the public polynomial check.")
  else Returned ().

Definition sign (p : Promise) (i : Z) (gKeyPair : KeyPair) (msg : list byte)
    (rand : Stream) : PromiseSignature :=
  let sig := anon_Sign (kp_Suite gKeyPair) rand msg (kp_Public gKeyPair) (kp_Secret gKeyPair) in
  PromiseSignature_init (kp_Suite gKeyPair) sig.

Definition verifySignature (p : Promise) (i : Z) (sig : PromiseSignature)
    (msg : list byte) : result unit :=
  if (i <? 0) || (p_n p <=? i)
  then Failed (errors_New "Invalid index. Expected 0 <= i < n") else
  match sig_signature sig with
  | None => Failed (errors_New "Nil PromiseSignature")
  | Some signature =>
      ins ← index (p_insurers p) i;
      check (anon_Verify (sig_suite sig) msg ins signature)
  end.

Definition Sign (p : Promise) (i : Z) (gKeyPair : KeyPair) (rand : Stream) : PromiseSignature :=
  sign p i gKeyPair sigMsg rand.

Definition VerifySignature (p : Promise) (i : Z) (sig : PromiseSignature) : result unit :=
  verifySignature p i sig sigMsg.

Definition RevealShare (p : Promise) (i : Z) (gKeyPair : KeyPair) : result Secret :=
  let diffieBase := Point_Mul (p_suite p) (Some (p_pubKey p)) (kp_Secret gKeyPair) in
  diffieSecret ← diffieHellmanSecret (p_suite p) diffieBase;
  sec ← index (p_secrets p) i;
  Returned (Secret_Sub (p_suite p) sec diffieSecret).

Definition VerifyRevealedShare (p : Promise) (i : Z) (share : Secret) : result unit :=
  if (i <? 0) || (p_n p <=? i)
  then Failed (errors_New "Invalid index. Expected 0 <= i < n") else
  if negb (PubPoly_Check (p_suite p) (p_pubPoly p) i share)
  then Failed (errors_New "The share failed the public polynomial check.")
  else Returned ().

(** [rand] is [random.Stream], [rand'] is [p.suite.Cipher(abstract.RandomKey)]. *)
Definition Blame (p : Promise) (i : Z) (gKeyPair : KeyPair) (rand rand' : Stream)
  : result BlameProof :=
  let diffieKey := Point_Mul (p_suite p) (Some (p_pubKey p)) (kp_Secret gKeyPair) in
  let insurerSig := sign p i gKeyPair sigBlameMsg rand in
  prf ← proof_HashProve (p_suite p) protocolName rand' diffieKey (p_pubKey p)
          (kp_Secret gKeyPair);
  Returned (BlameProof_init (p_suite p) diffieKey prf insurerSig).

Definition VerifyBlame (p : Promise) (i : Z) (blameProof : BlameProof) : result unit :=
  if (i <? 0) || (p_n p <=? i)
  then Failed (errors_New "Invalid index. Expected 0 <= i < n") else
  _ ← verifySignature p i (bp_signature blameProof) sigBlameMsg;
  _ ← check (proof_HashVerify (p_suite p) protocolName (bp_diffieKey blameProof)
               (p_pubKey p) (bytes_of (bp_diffieKeyProof blameProof)));
  diffieSecret ← diffieHellmanSecret (p_suite p) (bp_diffieKey blameProof);
  sec ← index (p_secrets p) i;
  let share := Secret_Sub (p_suite p) sec diffieSecret in
  if PubPoly_Check (p_suite p) (p_pubPoly p) i share
  then Failed (errors_New "Unjustified blame. The share checks out okay.")
  else Returned ().

(** The loop stops at the first differing pair: [ok] records that none was
    met so far. *)
Definition Equal (p p2 : Promise) : result bool :=
  if negb (p_n p =? p_n p2) then Returned false else
  if negb (bool_decide (p_suite p = p_suite p2)) then Returned false else
  ok ← for_range 0 (p_n p) (λ i (ok : bool),
      if negb ok then Returned false else
      s1 ← index (p_secrets p) i;
      s2 ← index (p_secrets p2) i;
      if negb (bool_decide (s1 = s2)) then Returned false else
      i1 ← index (p_insurers p) i;
      i2 ← index (p_insurers p2) i;
      Returned (bool_decide (i1 = i2))) true;
  if negb ok then Returned false else
  Returned ((p_t p =? p_t p2) && (p_r p =? p_r p2)
            && bool_decide (p_pubKey p = p_pubKey p2)
            && PubPoly_Equal (p_pubPoly p) (p_pubPoly p2)).

Definition MarshalSize (p : Promise) : Z :=
  3 * uint32Size + PointLen (p_suite p)
  + PubPoly_MarshalSize (p_suite p) (len (p_pubPoly p))
  + p_n p * PointLen (p_suite p) + p_n p * SecretLen (p_suite p).

Definition MarshalBinary (p : Promise) : result (list byte) :=
  buf ← make x00%byte (MarshalSize p);
  let pointLen := PointLen (p_suite p) in
  let polyLen := PubPoly_MarshalSize (p_suite p) (len (p_pubPoly p)) in
  let secretLen := SecretLen (p_suite p) in
  buf ← PutUint32 buf 0 (uint32 (p_n p));
  buf ← PutUint32 buf uint32Size (uint32 (p_t p));
  buf ← PutUint32 buf (2 * uint32Size) (uint32 (p_r p));
  pointBuf ← Point_MarshalBinary (p_pubKey p);
  buf ← copy_at buf (3 * uint32Size) pointBuf;
  polyBuf ← PubPoly_MarshalBinary (p_pubPoly p);
  buf ← copy_at buf (3 * uint32Size + pointLen) polyBuf;
  let bufPos := 3 * uint32Size + pointLen + polyLen in
  buf ← for_range 0 (len (p_insurers p)) (λ i buf,
      ins ← index (p_insurers p) i;
      pb ← Point_MarshalBinary ins;
      copy_at buf (bufPos + i * pointLen) pb) buf;
  let bufPos := bufPos + p_n p * pointLen in
  buf ← for_range 0 (len (p_secrets p)) (λ i buf,
      sec ← index (p_secrets p) i;
      pb ← Secret_MarshalBinary sec;
      copy_at buf (bufPos + i * secretLen) pb) buf;
  Returned buf.

(** The value below is the receiver when the call returns nil. *)
Definition UnmarshalBinary (p : Promise) (buf : list byte) : result Promise :=
  let pointLen := PointLen (p_suite p) in
  let secretLen := SecretLen (p_suite p) in
  n ← Uint32 buf 0;
  t ← Uint32 buf uint32Size;
  r ← Uint32 buf (2 * uint32Size);
  let bufPos := 3 * uint32Size in
  keyBuf ← slice buf bufPos (bufPos + pointLen);
  pubKey ← Point_UnmarshalBinary (p_suite p) keyBuf;
  let bufPos := bufPos + pointLen in
  _ ← PubPoly_Init t;
  let polyLen := PubPoly_MarshalSize (p_suite p) t in
  polyBuf ← slice buf bufPos (bufPos + polyLen);
  pubPoly ← PubPoly_UnmarshalBinary (p_suite p) (Z.to_nat t) polyBuf;
  let bufPos := bufPos + polyLen in
  insurers ← for_range 0 n (λ i insurers,
      let start := bufPos + i * pointLen in
      let end_ := start + pointLen in
      b ← slice buf start end_;
      ins ← Point_UnmarshalBinary (p_suite p) b;
      Returned (insurers ++ [ins])) [];
  let bufPos := bufPos + n * pointLen in
  secrets ← for_range 0 n (λ i secrets,
      let start := bufPos + i * secretLen in
      let end_ := start + secretLen in
      b ← slice buf start end_;
      sec ← Secret_UnmarshalBinary (p_suite p) b;
      Returned (secrets ++ [sec])) [];
  let p' := {| p_id := p_id p; p_suite := p_suite p; p_t := t; p_r := r; p_n := n;
               p_pubKey := pubKey; p_pubPoly := pubPoly;
               p_insurers := insurers; p_secrets := secrets |} in
  _ ← verifyPromise p';
  Returned p'.

(** *** PromiseState *)

Record PromiseState : Type := {
  ps_Promise : Promise;
  ps_PriShares : list (option Secret);
  ps_signatures : list (option PromiseSignature);
  ps_blames : list (option BlameProof);
}.

(** Modelled from the spec: [poly.PriShares.Empty], which is not among the
    sources, leaves the map of recovered shares empty, one slot per
    insurer. *)
Definition Init (promise : Promise) : result PromiseState :=
  shares ← make None (p_n promise);
  signatures ← make None (p_n promise);
  blames ← make None (p_n promise);
  Returned {| ps_Promise := promise; ps_PriShares := shares;
              ps_signatures := signatures; ps_blames := blames |}.

Definition AddSignature (ps : PromiseState) (i : Z) (sig : option PromiseSignature)
  : result PromiseState :=
  signatures ← assign (ps_signatures ps) i sig;
  Returned {| ps_Promise := ps_Promise ps; ps_PriShares := ps_PriShares ps;
              ps_signatures := signatures; ps_blames := ps_blames ps |}.

Definition AddBlameProof (ps : PromiseState) (i : Z) (bproof : option BlameProof)
  : result PromiseState :=
  blames ← assign (ps_blames ps) i bproof;
  Returned {| ps_Promise := ps_Promise ps; ps_PriShares := ps_PriShares ps;
              ps_signatures := ps_signatures ps; ps_blames := blames |}.

(** [x == nil] on the outcome of a call that returns an [error]. *)
Definition is_nil (x : result unit) : result bool :=
  match x with
  | Returned _ => Returned true
  | Failed _ => Returned false
  | Panicked q => Panicked q
  end.

(** One turn of the loop of [PromiseCertified]. *)
Definition PromiseCertified_body (ps : PromiseState) (i : Z) (validSigs : Z) : result Z :=
  sig ← index (ps_signatures ps) i;
  validSigs ← match sig with
              | Some sig =>
                  ok ← is_nil (VerifySignature (ps_Promise ps) i sig);
                  Returned (if ok : bool then validSigs + 1 else validSigs)
              | None => Returned validSigs
              end;
  bl ← index (ps_blames ps) i;
  match bl with
  | Some bl =>
      ok ← is_nil (VerifyBlame (ps_Promise ps) i bl);
      if ok : bool
      then Failed (errors_New "A valid blame proofs proves this Promise to be uncertified.")
      else Returned validSigs
  | None => Returned validSigs
  end.

Definition PromiseCertified (ps : PromiseState) : result unit :=
  _ ← verifyPromise (ps_Promise ps);
  validSigs ← for_range 0 (p_n (ps_Promise ps)) (PromiseCertified_body ps) 0;
  if validSigs <? p_r (ps_Promise ps)
  then Failed (errors_New "Not enough signatures yet to be certified")
  else Returned ().

(** *** Marshalling to a writer and from a reader *)

(** The body that the three [MarshalTo] methods share:
    [buf, err := m.MarshalBinary(); if err != nil { return 0, err };
    return w.Write(buf)]. *)
Definition MarshalTo_with `{Writer W} (marshalled : result (list byte)) (w : W)
  : io_result unit * W :=
  match marshalled with
  | Returned buf =>
      let '((n, err), w') := io_Write w buf in
      (match err with
       | None => IoReturned n ()
       | Some e => IoFailed n e
       end, w')
  | Failed e => (IoFailed 0 e, w)
  | Panicked q => (IoPanicked q, w)
  end.

Definition PromiseSignature_MarshalTo `{Writer W} (p : PromiseSignature) (w : W)
  : io_result unit * W :=
  MarshalTo_with (PromiseSignature_MarshalBinary p) w.

Definition BlameProof_MarshalTo `{Writer W} (bp : BlameProof) (w : W)
  : io_result unit * W :=
  MarshalTo_with (BlameProof_MarshalBinary bp) w.

Definition MarshalTo `{Writer W} (p : Promise) (w : W) : io_result unit * W :=
  MarshalTo_with (MarshalBinary p) w.

(** The body that the three [UnmarshalFrom] methods share: read [header]
    bytes into a buffer; compute from them the size of the whole message;
    copy them to a buffer of that size, read the rest behind them, and
    unmarshal that buffer.  [n] and [m] are the counts of the two reads. *)
Definition UnmarshalFrom_with `{Reader R} {A} (header : Z) (size : list byte → result Z)
    (unmarshal : list byte → result A) (r : R) : io_result A * R :=
  match make x00%byte header with
  | Panicked q => (IoPanicked q, r)
  | Failed e => (IoFailed 0 e, r)
  | Returned buf =>
      let '((got, err), r) := io_ReadFull r (len buf) in
      let n := len got in
      match err with
      | Some e => (IoFailed n e, r)
      | None =>
          match (buf ← copy_at buf 0 got;
                 total ← size buf;
                 finalBuf ← make x00%byte total;
                 finalBuf ← copy_at finalBuf 0 buf;
                 rest ← slice_from finalBuf n;
                 Returned (finalBuf, len rest)) with
          | Panicked q => (IoPanicked q, r)
          | Failed e => (IoFailed n e, r)
          | Returned (finalBuf, k) =>
              let '((got, err), r) := io_ReadFull r k in
              let m := len got in
              match err with
              | Some e => (IoFailed (n + m) e, r)
              | None =>
                  match (finalBuf ← copy_at finalBuf n got; unmarshal finalBuf) with
                  | Returned a => (IoReturned (n + m) a, r)
                  | Failed e => (IoFailed (n + m) e, r)
                  | Panicked q => (IoPanicked q, r)
                  end
              end
          end
      end
  end.

Definition PromiseSignature_UnmarshalFrom `{Reader R} (p : PromiseSignature) (r : R)
  : io_result PromiseSignature * R :=
  UnmarshalFrom_with uint32Size
    (λ buf, sigLen ← Uint32 buf 0; Returned (uint32Size + sigLen))
    (PromiseSignature_UnmarshalBinary p) r.

Definition BlameProof_UnmarshalFrom `{Reader R} (bp : BlameProof) (r : R)
  : io_result BlameProof * R :=
  UnmarshalFrom_with (2 * uint32Size)
    (λ buf, let pointLen := PointLen (bp_suite bp) in
            proofLen ← Uint32 buf 0;
            sigLen ← Uint32 buf uint32Size;
            Returned (2 * uint32Size + pointLen + proofLen + sigLen))
    (BlameProof_UnmarshalBinary bp) r.

(** [p.n] and [p.t] are assigned from the header and [p.pubPoly] is
    initialised for [t] coefficients, so that [p.MarshalSize()] is the size
    of the message; [UnmarshalBinary] assigns them again.  The receiver is
    followed on success only: what these assignments leave in it when the
    second read fails is not part of the result. *)
Definition UnmarshalFrom `{Reader R} (p : Promise) (r : R) : io_result Promise * R :=
  UnmarshalFrom_with (2 * uint32Size)
    (λ buf, n ← Uint32 buf 0;
            t ← Uint32 buf uint32Size;
            _ ← PubPoly_Init t;
            Returned (3 * uint32Size + PointLen (p_suite p)
                      + PubPoly_MarshalSize (p_suite p) t
                      + n * PointLen (p_suite p) + n * SecretLen (p_suite p)))
    (UnmarshalBinary p) r.

End WithSuite.
End promise.

Module vss.
Section WithSuite.
Context `{Suite}.

(** [share.PriShare]. *)
Record PriShare : Type := {
  I : Z;
  V : Secret;
}.

Record Deal : Type := {
  d_SessionID : list byte;
  d_SecShare : PriShare;
  d_RndShare : PriShare;
  d_T : N;                          (* uint32 *)
  d_Commitments : list Point;
  d_Signature : list byte;
}.

Record Response : Type := {
  r_SessionID : list byte;
  r_Index : N;                      (* uint32 *)
  r_Status : byte;
  r_Signature : list byte;
}.

Definition StatusComplaint : byte := x00.
Definition StatusApproval : byte := x01.
Definition statusJustified : byte := x02.

Record Justification : Type := {
  j_SessionID : list byte;
  j_Index : N;                      (* uint32 *)
  j_Deal : Deal;
  j_Signature : list byte;
}.

(** [responses] maps an index to the one [Response] object stored for it;
    [deal] is a pointer and may be nil. *)
Record aggregator : Type := {
  a_suite : SuiteT;
  a_dealer : Point;
  a_verifiers : list Point;
  a_commits : list Point;
  a_responses : gmap N Response;
  a_sid : list byte;
  a_deal : option Deal;
  a_t : Z;
  a_badDealer : bool;
}.

Record Verifier : Type := {
  v_suite : SuiteT;
  v_longterm : Secret;
  v_pub : Point;
  v_dealer : Point;
  v_index : Z;
  v_verifiers : list Point;
  v_aggregator : option aggregator;
}.

Definition set_aggregator (v : Verifier) (a : option aggregator) : Verifier :=
  {| v_suite := v_suite v; v_longterm := v_longterm v; v_pub := v_pub v;
     v_dealer := v_dealer v; v_index := v_index v; v_verifiers := v_verifiers v;
     v_aggregator := a |}.

Definition set_responses (a : aggregator) (m : gmap N Response) : aggregator :=
  {| a_suite := a_suite a; a_dealer := a_dealer a; a_verifiers := a_verifiers a;
     a_commits := a_commits a; a_responses := m; a_sid := a_sid a;
     a_deal := a_deal a; a_t := a_t a; a_badDealer := a_badDealer a |}.

Definition set_badDealer (a : aggregator) (b : bool) : aggregator :=
  {| a_suite := a_suite a; a_dealer := a_dealer a; a_verifiers := a_verifiers a;
     a_commits := a_commits a; a_responses := a_responses a; a_sid := a_sid a;
     a_deal := a_deal a; a_t := a_t a; a_badDealer := b |}.

(** [a.commits = d.Commitments; a.sid = d.SessionID; a.deal = d]. *)
Definition bind_deal (a : aggregator) (d : Deal) : aggregator :=
  {| a_suite := a_suite a; a_dealer := a_dealer a; a_verifiers := a_verifiers a;
     a_commits := d_Commitments d; a_responses := a_responses a;
     a_sid := d_SessionID d; a_deal := Some d; a_t := a_t a;
     a_badDealer := a_badDealer a |}.

Definition set_Status (r : Response) (st : byte) : Response :=
  {| r_SessionID := r_SessionID r; r_Index := r_Index r; r_Status := st;
     r_Signature := r_Signature r |}.

Definition set_Signature (r : Response) (sig : list byte) : Response :=
  {| r_SessionID := r_SessionID r; r_Index := r_Index r; r_Status := r_Status r;
     r_Signature := sig |}.

(** [bytes.Equal]: a nil slice equals an empty one. *)
Definition bytes_Equal (a b : list byte) : bool := bool_decide (a = b).

(** What [MarshalTo] appends to a writer; its error is discarded at every
    call site, and a failed marshalling writes nothing. *)
Definition Point_MarshalTo (P : Point) : list byte :=
  match Point_MarshalBinary P with
  | Returned b => b
  | _ => []
  end.

Definition Secret_MarshalTo (x : Secret) : list byte :=
  match Secret_MarshalBinary x with
  | Returned b => b
  | _ => []
  end.

(** [binary.Write] of a value of type [int]: the type has no fixed size,
    the call returns an error, which is discarded, and writes nothing. *)
Definition binary_Write_int (x : Z) : list byte := [].

Definition MinimumT (n : Z) : Z := Z.quot (n + 1) 2.

Definition validT (t : Z) (verifiers : list Point) : bool :=
  (2 <=? t) && (t <=? len verifiers) && (uint32 t =? t).

Definition deriveH (s : SuiteT) (verifiers : list Point) : Point :=
  let b := concat (Point_MarshalTo <$> verifiers) in
  let digest := Hash s b in
  Point_Pick s (Cipher s digest).

Definition findPub (verifiers : list Point) (idx : N) : option Point :=
  let iidx := Z.of_N idx in
  if len verifiers <=? iidx then None else verifiers !! Z.to_nat iidx.

(** The error result of [sessionID] is always nil. *)
Definition sessionID (s : SuiteT) (dealer : Point) (verifiers commitments : list Point)
    (t : Z) : list byte :=
  Hash s (Point_MarshalTo dealer
          ++ concat (Point_MarshalTo <$> verifiers)
          ++ concat (Point_MarshalTo <$> commitments)
          ++ le32 (uint32 t)).

Definition msgResponse (r : Response) : list byte :=
  bytes_of_string "response" ++ r_SessionID r ++ le32 (Z.of_N (r_Index r)) ++ [r_Status r].

Definition msgDeal (d : Deal) : list byte :=
  bytes_of_string "deal" ++ d_SessionID d
  ++ binary_Write_int (I (d_SecShare d)) ++ Secret_MarshalTo (V (d_SecShare d))
  ++ binary_Write_int (I (d_RndShare d)) ++ Secret_MarshalTo (V (d_RndShare d)).

Definition msgJustification (j : Justification) : list byte :=
  bytes_of_string "justification" ++ j_SessionID j ++ le32 (Z.of_N (j_Index j))
  ++ msgDeal (j_Deal j).

Definition newAggregator (s : SuiteT) (dealer : Point) (verifiers commitments : list Point)
    (t : Z) (sid : list byte) : aggregator :=
  {| a_suite := s; a_dealer := dealer; a_verifiers := verifiers;
     a_commits := commitments; a_responses := ∅; a_sid := sid;
     a_deal := None; a_t := t; a_badDealer := false |}.

Definition VerifyDeal (d : Deal) (inclusion : bool) : go aggregator unit := λ a,
  if bool_decide (is_Some (a_deal a)) && inclusion
  then (Failed errDealAlreadyProcessed, a) else
  let a := if bool_decide (a_deal a = None) then bind_deal a d else a in
  (if negb (validT (Z.of_N (d_T d)) (a_verifiers a))
   then Failed (errors_New "vss: invalid t received in Deal") else
   if negb (bytes_Equal (a_sid a) (d_SessionID d))
   then Failed (errors_New "vss: find different sessionIDs from Deal") else
   _ ← check (sign_VerifySchnorr (a_suite a) (a_dealer a) (msgDeal d) (d_Signature d));
   let fi := d_SecShare d in
   let gi := d_RndShare d in
   if negb (I fi =? I gi)
   then Failed (errors_New "vss: not the same index for f and g share in Deal") else
   if (I fi <? 0) || (len (a_verifiers a) <=? I fi)
   then Failed (errors_New "vss: index out of bounds in Deal") else
   let fig := Point_Mul (a_suite a) None (V fi) in
   let H := deriveH (a_suite a) (a_verifiers a) in
   let gih := Point_Mul (a_suite a) (Some H) (V gi) in
   let ci := Point_Add (a_suite a) fig gih in
   let pubShare := share_PubPoly_Eval (a_suite a) (d_Commitments d) (I fi) in
   if negb (bool_decide (ci = pubShare))
   then Failed (errors_New "vss: share do not verify against commitments in Deal")
   else Returned (),
   a).

Definition addResponse (r : Response) : go aggregator unit := λ a,
  if negb (bool_decide (is_Some (findPub (a_verifiers a) (r_Index r))))
  then (Failed (errors_New "vss: index out of bounds in Complaint"), a) else
  if bool_decide (is_Some (a_responses a !! r_Index r))
  then (Failed (errors_New "vss: already existing response from same origin"), a) else
  (Returned (), set_responses a (<[r_Index r := r]> (a_responses a))).

Definition verifyResponse (r : Response) : go aggregator unit := λ a,
  if negb (bytes_Equal (r_SessionID r) (a_sid a))
  then (Failed (errors_New "vss: receiving inconsistent sessionID in response"), a) else
  match findPub (a_verifiers a) (r_Index r) with
  | None => (Failed (errors_New "vss: index out of bounds in response"), a)
  | Some pub =>
      match sign_VerifySchnorr (a_suite a) pub (msgResponse r) (r_Signature r) with
      | Some err => (Failed err, a)
      | None => addResponse r a
      end
  end.

(** [r] is the stored object itself: assigning its status changes the entry
    of the map. *)
Definition verifyJustification (j : Justification) : go aggregator unit := λ a,
  if negb (bool_decide (is_Some (findPub (a_verifiers a) (j_Index j))))
  then (Failed (errors_New "vss: index out of bounds in justification"), a) else
  match a_responses a !! j_Index j with
  | None => (Failed (errors_New "vss: no complaints received for this justification"), a)
  | Some r =>
      if negb (bool_decide (r_Status r = StatusComplaint))
      then (Failed (errors_New "vss: justification received for an approval"), a) else
      match VerifyDeal (j_Deal j) false a with
      | (Returned _, a) =>
          (Returned (),
           set_responses a (<[j_Index j := set_Status r statusJustified]> (a_responses a)))
      | (Failed err, a) => (Failed err, set_badDealer a true)
      | (Panicked q, a) => (Panicked q, a)
      end
  end.

(** [for _, r := range a.responses { if r.Status == st { c++ } }]. *)
Definition count_status (st : byte) (m : gmap N Response) : Z :=
  map_fold (λ _ r c, if bool_decide (r_Status r = st) then c + 1 else c) 0 m.

Definition EnoughApprovals (a : aggregator) : bool :=
  let app := count_status StatusApproval (a_responses a) in
  a_t a <=? app.

Definition DealCertified (a : aggregator) : bool :=
  let comps := count_status StatusComplaint (a_responses a) in
  let tooMuchComplaints := (a_t a <=? comps) || a_badDealer a in
  EnoughApprovals a && negb tooMuchComplaints.

(** The first verifier equal to [pub] gives the index. *)
Fixpoint find_index (pub : Point) (verifiers : list Point) (i : Z) : option Z :=
  match verifiers with
  | [] => None
  | v :: vs => if bool_decide (v = pub) then Some i else find_index pub vs (i + 1)
  end.

Definition NewVerifier (s : SuiteT) (longterm : Secret) (dealerKey : Point)
    (verifiers : list Point) : result Verifier :=
  let pub := Point_Mul s None longterm in
  match find_index pub verifiers 0 with
  | None => Failed (errors_New "vss: public key not found in the list of verifiers")
  | Some index =>
      Returned {| v_suite := s; v_longterm := longterm; v_pub := pub;
                  v_dealer := dealerKey; v_index := index; v_verifiers := verifiers;
                  v_aggregator := None |}
  end.

(** A method of the embedded [*aggregator] called through the verifier; a
    nil aggregator is a nil-pointer panic. *)
Definition with_aggregator {A} (m : go aggregator A) : go Verifier A := λ v,
  match v_aggregator v with
  | None => (Panicked NilDereference, v)
  | Some a => let '(x, a') := m a in (x, set_aggregator v (Some a'))
  end.

(** The tail of [ProcessDeal]: sign the response, store it, return it. *)
Definition sign_and_store (r : Response) : go Verifier Response := λ v,
  match sign_Schnorr (v_suite v) (v_longterm v) (msgResponse r) with
  | Returned sig =>
      let r := set_Signature r sig in
      match with_aggregator (addResponse r) v with
      | (Returned _, v) => (Returned r, v)
      | (Failed e, v) => (Failed e, v)
      | (Panicked q, v) => (Panicked q, v)
      end
  | Failed e => (Failed e, v)
  | Panicked q => (Panicked q, v)
  end.

Definition ProcessDeal (d : Deal) : go Verifier Response := λ v,
  if negb (I (d_SecShare d) =? v_index v)
  then (Failed (errors_New "vss: verifier got wrong index from deal"), v) else
  let t := Z.of_N (d_T d) in
  let sid := sessionID (v_suite v) (v_dealer v) (v_verifiers v) (d_Commitments d) t in
  let v := if bool_decide (v_aggregator v = None)
           then set_aggregator v
                  (Some (newAggregator (v_suite v) (v_dealer v) (v_verifiers v)
                           (d_Commitments d) t (d_SessionID d)))
           else v in
  let r := {| r_SessionID := sid; r_Index := Z.to_N (uint32 (v_index v));
              r_Status := StatusApproval; r_Signature := [] |} in
  let '(err, v) := with_aggregator (VerifyDeal d true) v in
  match err with
  | Panicked q => (Panicked q, v)
  | Failed e =>
      let r := set_Status r StatusComplaint in
      if bool_decide (e = errDealAlreadyProcessed) then (Failed e, v) else
      sign_and_store r v
  | Returned _ => sign_and_store r v
  end.

Definition ProcessResponse (resp : Response) : go Verifier unit :=
  with_aggregator (verifyResponse resp).

Definition ProcessJustification (dr : Justification) : go Verifier unit :=
  with_aggregator (verifyJustification dr).

(** [Verifier.Deal]: [v.EnoughApprovals()], [v.DealCertified()] and [v.deal]
    go through the embedded [*aggregator]. *)
Definition Verifier_Deal (v : Verifier) : result (option Deal) :=
  match v_aggregator v with
  | None => Panicked NilDereference
  | Some a =>
      if negb (EnoughApprovals a) || negb (DealCertified a) then Returned None
      else Returned (a_deal a)
  end.

Definition Verifier_Key (v : Verifier) : Secret * Point := (v_longterm v, v_pub v).

Definition Verifier_Index (v : Verifier) : Z := v_index v.

(** [Verifier.SessionID]: [v.sid] reads through the embedded pointer. *)
Definition Verifier_SessionID (v : Verifier) : result (list byte) :=
  match v_aggregator v with
  | None => Panicked NilDereference
  | Some a => Returned (a_sid a)
  end.

End WithSuite.

(** *** The dealer

    The polynomial package [share], which the dealer builds its deals with,
    is consumed through the class [Share].  [share_NewPriPoly] draws its
    coefficients from the stream and gives the stream back as it leaves
    it; a secret of [None] is the nil secret, for which a coefficient is
    drawn too. *)

Class Share `{Suite} : Type := {
  PriPoly : Type;
  SharePubPoly : Type;
  (* suite.Point().Base() *)
  Point_Base : SuiteT → Point;
  (* share.NewPriPoly(suite, t, s, rand) *)
  share_NewPriPoly : SuiteT → Z → option Secret → Stream → result (PriPoly * Stream);
  (* f.Commit(b) *)
  PriPoly_Commit : PriPoly → Point → SharePubPoly;
  (* f.Eval(i) *)
  PriPoly_Eval : PriPoly → Z → PriShare;
  (* F.Info() *)
  SharePubPoly_Info : SharePubPoly → Point * list Point;
  (* F.Add(G) *)
  SharePubPoly_Add : SharePubPoly → SharePubPoly → result SharePubPoly;
  (* share.RecoverSecret(suite, shares, t, n) *)
  share_RecoverSecret : SuiteT → list PriShare → Z → Z → result Secret;
}.

Section WithShare.
Context `{Suite} `{!Share}.

(** [reader] is never assigned; the [*aggregator] is embedded. *)
Record Dealer : Type := {
  dl_suite : SuiteT;
  dl_reader : option Stream;
  dl_long : Secret;
  dl_pub : Point;
  dl_secret : Secret;
  dl_secretCommits : list Point;
  dl_verifiers : list Point;
  dl_t : Z;
  dl_sessionID : list byte;
  dl_deals : list Deal;
  dl_aggregator : option aggregator;
}.

Definition set_dealer_aggregator (d : Dealer) (a : option aggregator) : Dealer :=
  {| dl_suite := dl_suite d; dl_reader := dl_reader d; dl_long := dl_long d;
     dl_pub := dl_pub d; dl_secret := dl_secret d;
     dl_secretCommits := dl_secretCommits d; dl_verifiers := dl_verifiers d;
     dl_t := dl_t d; dl_sessionID := dl_sessionID d; dl_deals := dl_deals d;
     dl_aggregator := a |}.

(** [strconv.Itoa], and the verb [%d] of [fmt] on an [int]. *)
Definition Itoa (x : Z) : string := NilZero.string_of_int (Z.to_int x).

(** [&Deal{SessionID, SecShare, RndShare, Commitments, T}]: no signature
    yet. *)
Definition new_Deal (sid : list byte) (fi gi : PriShare) (commitments : list Point)
    (T : N) : Deal :=
  {| d_SessionID := sid; d_SecShare := fi; d_RndShare := gi; d_T := T;
     d_Commitments := commitments; d_Signature := [] |}.

Definition set_deal_Signature (d : Deal) (sig : list byte) : Deal :=
  {| d_SessionID := d_SessionID d; d_SecShare := d_SecShare d;
     d_RndShare := d_RndShare d; d_T := d_T d; d_Commitments := d_Commitments d;
     d_Signature := sig |}.

(** [d.deals[i]] is assigned for [i = 0, 1, ...] in that order, so the
    slice is built from the left.  The stream [r] is left as the second
    polynomial leaves it. *)
Definition NewDealer (s : SuiteT) (longterm secret : Secret) (verifiers : list Point)
    (r : Stream) (t : Z) : result Dealer :=
  if negb (validT t verifiers)
  then Failed (errors_New ("dealer: t " ++ Itoa t ++ " invalid")) else
  let H := deriveH s verifiers in
  fr ← share_NewPriPoly s t (Some secret) r;
  gr ← share_NewPriPoly s t None fr.2;
  let f := fr.1 in
  let g := gr.1 in
  let pub := Point_Mul s None longterm in
  let F := PriPoly_Commit f (Point_Base s) in
  let secretCommits := (SharePubPoly_Info F).2 in
  let G := PriPoly_Commit g H in
  C ← SharePubPoly_Add F G;
  let commitments := (SharePubPoly_Info C).2 in
  let sid := sessionID s pub verifiers commitments t in
  let agg := newAggregator s pub verifiers commitments t sid in
  deals ← for_range 0 (len verifiers) (λ i deals,
      let fi := PriPoly_Eval f i in
      let gi := PriPoly_Eval g i in
      let deal := new_Deal sid fi gi commitments (Z.to_N (uint32 t)) in
      sig ← sign_Schnorr s longterm (msgDeal deal);
      Returned (deals ++ [set_deal_Signature deal sig])) [];
  Returned {| dl_suite := s; dl_reader := None; dl_long := longterm; dl_pub := pub;
              dl_secret := secret; dl_secretCommits := secretCommits;
              dl_verifiers := verifiers; dl_t := t; dl_sessionID := sid;
              dl_deals := deals; dl_aggregator := Some agg |}.

Definition Deals (d : Dealer) : list Deal := dl_deals d.

(** [Dealer.ProcessResponse].  [d.verifyResponse] goes through the embedded
    [*aggregator]; the justification points to [d.deals[int(r.Index)]]. *)
Definition Dealer_ProcessResponse (r : Response) : go Dealer (option Justification) := λ d,
  match dl_aggregator d with
  | None => (Panicked NilDereference, d)
  | Some a =>
      let '(err, a') := verifyResponse r a in
      let d := set_dealer_aggregator d (Some a') in
      match err with
      | Panicked q => (Panicked q, d)
      | Failed e => (Failed e, d)
      | Returned _ =>
          if bool_decide (r_Status r = StatusApproval) then (Returned None, d) else
          match index (dl_deals d) (Z.of_N (r_Index r)) with
          | Panicked q => (Panicked q, d)
          | Failed e => (Failed e, d)
          | Returned deal =>
              let j := {| j_SessionID := dl_sessionID d; j_Index := r_Index r;
                          j_Deal := deal; j_Signature := [] |} in
              match sign_Schnorr (dl_suite d) (dl_long d) (msgJustification j) with
              | Panicked q => (Panicked q, d)
              | Failed e => (Failed e, d)
              | Returned sig =>
                  (Returned (Some {| j_SessionID := j_SessionID j; j_Index := j_Index j;
                                     j_Deal := j_Deal j; j_Signature := sig |}), d)
              end
          end
      end
  end.

(** [Dealer.SecretCommit]: nil, or the secret times the standard base. *)
Definition SecretCommit (d : Dealer) : result (option Point) :=
  match dl_aggregator d with
  | None => Panicked NilDereference
  | Some a =>
      if negb (EnoughApprovals a) || negb (DealCertified a) then Returned None
      else Returned (Some (Point_Mul (dl_suite d) None (dl_secret d)))
  end.

(** [Dealer.Commits]: nil, or the commitments of the secret polynomial. *)
Definition Commits (d : Dealer) : result (option (list Point)) :=
  match dl_aggregator d with
  | None => Panicked NilDereference
  | Some a =>
      if negb (EnoughApprovals a) || negb (DealCertified a) then Returned None
      else Returned (Some (dl_secretCommits d))
  end.

Definition Dealer_Key (d : Dealer) : Secret * Point := (dl_long d, dl_pub d).

Definition Dealer_SessionID (d : Dealer) : list byte := dl_sessionID d.

(** [shares[i]] is assigned for [i = 0, 1, ...] in that order;
    [share.RecoverSecret] takes [t] before [n]. *)
Definition RecoverSecret (s : SuiteT) (deals : list Deal) (n t : Z) : result Secret :=
  shares ← for_range 0 (len deals) (λ i shares,
      deal ← index deals i;
      first ← index deals 0;
      if bytes_Equal (d_SessionID deal) (d_SessionID first)
      then Returned (shares ++ [d_SecShare deal])
      else Failed (errors_New "vss: all deals need to have same session id")) [];
  share_RecoverSecret s shares t n.

End WithShare.
End vss.

(** ** A small suite for the examples

    The additive group of the integers modulo 256 with base 3: points and
    secrets are single bytes, a stream is the bytes it will yield, and the
    signature and proof primitives are transparent stand-ins. *)

Module mod256.

Definition badd (a b : byte) : byte := byte_of_Z (Z_of_byte a + Z_of_byte b).
Definition bsub (a b : byte) : byte := byte_of_Z (Z_of_byte a - Z_of_byte b).
Definition bmul (a b : byte) : byte := byte_of_Z (Z_of_byte a * Z_of_byte b).

Definition base : byte := x03.

Definition checksum (l : list byte) : byte := foldr badd x00%byte l.

Definition marshal1 (x : byte) : result (list byte) := Returned [x].

Definition unmarshal1 (b : list byte) : result byte :=
  match b with
  | [x] => Returned x
  | _ => Failed (errors_Ext 1)
  end.

Definition pick1 (st : list byte) : byte := hd x00%byte st.

(** The value at [x] of the polynomial with coefficients [coeffs]. *)
Fixpoint horner (coeffs : list byte) (x : byte) : byte :=
  match coeffs with
  | [] => x00%byte
  | a :: cs => badd a (bmul x (horner cs x))
  end.

(** [k] coefficients, the first of which is [s0]; none for [k = 0] is an
    index panic, as writing [s[0]] into an empty slice is. *)
Definition pick (k : Z) (s0 : byte) (rand : list byte) : result (list byte) :=
  s ← make x00%byte k;
  match s with
  | [] => Panicked IndexOutOfRange
  | _ :: s' => Returned (s0 :: take (length s') (rand ++ s'))
  end.

(** Share [i] is the value of the polynomial at [i + 1]. *)
Definition split (poly : list byte) (n : Z) : result (list byte) :=
  s ← make x00%byte n;
  Returned ((λ i, horner poly (byte_of_Z (i + 1))) <$> seqZ 0 n).

Definition commit (poly : list byte) : result (list byte) :=
  Returned (bmul base <$> poly).

Definition eval (pub : list byte) (i : Z) : byte := horner pub (byte_of_Z (i + 1)).

Definition pubcheck (pub : list byte) (i : Z) (share : byte) : bool :=
  bool_decide (bmul base share = eval pub i).

(** A signature names the signer's key and the checksum of the message. *)
Definition toy_sign (x : byte) (msg : list byte) : list byte :=
  [bmul base x; checksum msg].

Definition toy_verify (pub : byte) (msg sig : list byte) : option error :=
  if bool_decide (sig = [pub; checksum msg]) then None else Some (errors_Ext 2).

(** A proof that [D = x P] shows [x]. *)
Definition toy_prove (D P x : byte) : result (option (list byte)) :=
  Returned (Some [x]).

Definition toy_proof_verify (D P : byte) (prf : list byte) : option error :=
  match prf with
  | [x] => if bool_decide (D = bmul P x) then None else Some (errors_Ext 3)
  | _ => Some (errors_Ext 3)
  end.

Definition suite : Suite := {|
  SuiteT := nat;
  Point := byte;
  Secret := byte;
  Stream := list byte;
  PointLen := λ _, 1;
  SecretLen := λ _, 1;
  Hash := λ _ b, [checksum b];
  Cipher := λ _ key, key;
  Point_String := λ P, String (Ascii.ascii_of_byte P) EmptyString;
  Point_Mul := λ _ P x, bmul (default base P) x;
  Point_Add := λ _, badd;
  Point_Pick := λ _, pick1;
  Point_MarshalBinary := marshal1;
  Point_UnmarshalBinary := λ _, unmarshal1;
  Secret_Add := λ _, badd;
  Secret_Sub := λ _, bsub;
  Secret_Pick := λ _, pick1;
  Secret_MarshalBinary := marshal1;
  Secret_UnmarshalBinary := λ _, unmarshal1;
  anon_Sign := λ _ _ msg _ x, Some (toy_sign x msg);
  anon_Verify := λ _ msg pub sig, toy_verify pub msg sig;
  proof_HashProve := λ _ _ _ D P x, toy_prove D P x;
  proof_HashVerify := λ _ _ D P prf, toy_proof_verify D P prf;
  sign_Schnorr := λ _ x msg, Returned (toy_sign x msg);
  sign_VerifySchnorr := λ _ pub msg sig, toy_verify pub msg sig;
  PriPoly_Pick := λ _, pick;
  PriShares_Split := λ _, split;
  PubPoly_Commit := λ _, commit;
  PubPoly_Check := λ _, pubcheck;
  share_PubPoly_Eval := λ _, eval;
|}.

End mod256.

(** ** Well-formed messages

    What the codec theorems ask of a value: its lengths fit the 32-bit
    length fields of the wire format, its byte slices are not nil, and its
    points and secrets are values of its suite, which that suite encodes in
    [PointLen] and [SecretLen] bytes and decodes back. *)

Section WellFormed.
Context `{Suite}.
Import promise.

(** [b] is the encoding of [x]: [L] bytes that decode back to [x]. *)
Definition encodes {X} (marshal : X → result (list byte))
    (unmarshal : list byte → result X) (L : Z) (x : X) (b : list byte) : Prop :=
  marshal x = Returned b ∧ len b = L ∧ unmarshal b = Returned x.

Definition point_enc (s : SuiteT) : Point → list byte → Prop :=
  encodes Point_MarshalBinary (Point_UnmarshalBinary s) (PointLen s).

Definition secret_enc (s : SuiteT) : Secret → list byte → Prop :=
  encodes Secret_MarshalBinary (Secret_UnmarshalBinary s) (SecretLen s).

Definition point_of (s : SuiteT) (P : Point) : Prop := ∃ b, point_enc s P b.

Definition secret_of (s : SuiteT) (x : Secret) : Prop := ∃ b, secret_enc s x b.

Definition PromiseSignature_wf (m : PromiseSignature) : Prop :=
  ∃ sig, sig_signature m = Some sig ∧ len sig < 2 ^ 32.

Definition BlameProof_wf (m : BlameProof) : Prop :=
  point_of (bp_suite m) (bp_diffieKey m)
  ∧ (∃ prf, bp_diffieKeyProof m = Some prf ∧ len prf < 2 ^ 32)
  ∧ (∃ sig, sig_signature (bp_signature m) = Some sig ∧ uint32Size + len sig < 2 ^ 32)
  ∧ sig_suite (bp_signature m) = bp_suite m.

Definition Promise_wf (m : Promise) : Prop :=
  p_t m <= p_r m <= p_n m
  ∧ len (p_insurers m) = p_n m ∧ len (p_secrets m) = p_n m
  ∧ len (p_pubPoly m) = p_t m
  ∧ p_n m < 2 ^ 32
  ∧ point_of (p_suite m) (p_pubKey m)
  ∧ Forall (point_of (p_suite m)) (p_pubPoly m)
  ∧ Forall (point_of (p_suite m)) (p_insurers m)
  ∧ Forall (secret_of (p_suite m)) (p_secrets m).

End WellFormed.

(** ** Example data over the small suite

    A promiser with long-term secret 11 promises the secret 7 to three
    insurers with secrets 5, 9 and 13, with [t = r = 2]. *)

Module examples.
#[local] Existing Instance mod256.suite.
Import promise.

Definition key (x : byte) : KeyPair :=
  {| kp_Suite := 0%nat; kp_Public := mod256.bmul mod256.base x; kp_Secret := x |}.

Definition secretPair : KeyPair := key x07.
Definition longPair : KeyPair := key x0b.
Definition insurerKeys : list KeyPair := [key x05; key x09; key x0d].
Definition insurers : list Point := kp_Public <$> insurerKeys.
Definition rand : Stream := [x11; x12; x13].

Definition the_promise : Promise :=
  {| p_id := Point_String (kp_Public secretPair); p_suite := 0%nat;
     p_t := 2; p_r := 2; p_n := 3;
     p_pubKey := x21; p_pubPoly := [x15; x33];
     p_insurers := [x0f; x1b; x27];
     p_secrets := [xbd; x52; xe7] |}.

(** A receiver as [new(Promise)] leaves it, but for the fields that have no
    nil in the embedding. *)
Definition blank_promise : Promise :=
  {| p_id := ""; p_suite := 0%nat; p_t := 0; p_r := 0; p_n := 0;
     p_pubKey := x00; p_pubPoly := []; p_insurers := []; p_secrets := [] |}.

Definition the_signature : PromiseSignature := Sign the_promise 0 (key x05) rand.

Definition blank_signature : PromiseSignature :=
  {| sig_suite := 0%nat; sig_signature := None |}.

Definition the_blame : BlameProof :=
  {| bp_suite := 0%nat; bp_diffieKey := xa5; bp_diffieKeyProof := Some [x05];
     bp_signature := sign the_promise 0 (key x05) sigBlameMsg rand |}.

Definition blank_blame : BlameProof :=
  {| bp_suite := 0%nat; bp_diffieKey := x00; bp_diffieKeyProof := None;
     bp_signature := blank_signature |}.

(** Insurers 0 and 2 have signed; insurer 0 also filed a blame, which is
    unjustified since the promise is honest. *)
Definition the_state : PromiseState :=
  {| ps_Promise := the_promise;
     ps_PriShares := [None; None; None];
     ps_signatures := [Some the_signature; None; Some (Sign the_promise 2 (key x0d) rand)];
     ps_blames := [Some the_blame; None; None] |}.

(** A dealer with long-term secret 11 shares the secret 7 among the same
    three parties, now verifiers, with [t = 2]: [f] is the secret
    polynomial, [g] the blinding one. *)
Definition dealerLong : byte := x0b.
Definition dealerPub : byte := mod256.bmul mod256.base dealerLong.
Definition verifiers : list byte := insurers.
Definition f : list byte := [x07; x11].
Definition g : list byte := [x21; x12].
Definition H : byte := vss.deriveH 0%nat verifiers.
Definition commitments : list byte :=
  zip_with mod256.badd (mod256.bmul mod256.base <$> f) (mod256.bmul H <$> g).
Definition sid : list byte := vss.sessionID 0%nat dealerPub verifiers commitments 2.

Definition unsigned_deal (sessionID : list byte) (T : N) (i : Z) : vss.Deal :=
  {| vss.d_SessionID := sessionID;
     vss.d_SecShare := {| vss.I := i; vss.V := mod256.horner f (byte_of_Z (i + 1)) |};
     vss.d_RndShare := {| vss.I := i; vss.V := mod256.horner g (byte_of_Z (i + 1)) |};
     vss.d_T := T;
     vss.d_Commitments := commitments;
     vss.d_Signature := [] |}.

(** The deal for verifier [i] under session identifier [sessionID] and
    threshold [T], signed by the dealer. *)
Definition signed_deal (sessionID : list byte) (T : N) (i : Z) : vss.Deal :=
  let d := unsigned_deal sessionID T i in
  {| vss.d_SessionID := vss.d_SessionID d; vss.d_SecShare := vss.d_SecShare d;
     vss.d_RndShare := vss.d_RndShare d; vss.d_T := vss.d_T d;
     vss.d_Commitments := vss.d_Commitments d;
     vss.d_Signature := mod256.toy_sign dealerLong (vss.msgDeal d) |}.

Definition deal (i : Z) : vss.Deal := signed_deal sid 2 i.

(** A deal for verifier 0 that the dealer signed under an identifier that
    is not the hash of this session. *)
Definition foreign_deal : vss.Deal := signed_deal [xff] 2 0.

(** A deal whose threshold is out of range. *)
Definition bad_deal : vss.Deal := signed_deal sid 0 1.

Definition verifier0 : vss.Verifier :=
  {| vss.v_suite := 0%nat; vss.v_longterm := x05; vss.v_pub := mod256.bmul mod256.base x05;
     vss.v_dealer := dealerPub; vss.v_index := 0; vss.v_verifiers := verifiers;
     vss.v_aggregator := None |}.

(** The aggregator as [NewDealer] makes it. *)
Definition fresh_aggregator : vss.aggregator :=
  vss.newAggregator 0%nat dealerPub verifiers commitments 2 sid.

Definition signed_response (index : N) (status : byte) (long : byte) : vss.Response :=
  let r := {| vss.r_SessionID := sid; vss.r_Index := index; vss.r_Status := status;
              vss.r_Signature := [] |} in
  vss.set_Signature r (mod256.toy_sign long (vss.msgResponse r)).

(** Verifier 0 approved its deal and verifier 1 complained. *)
Definition complained : vss.aggregator :=
  {| vss.a_suite := 0%nat; vss.a_dealer := dealerPub; vss.a_verifiers := verifiers;
     vss.a_commits := commitments;
     vss.a_responses := <[1%N := signed_response 1 vss.StatusComplaint x09]>
                          (<[0%N := signed_response 0 vss.StatusApproval x05]> ∅);
     vss.a_sid := sid; vss.a_deal := Some (deal 0); vss.a_t := 2;
     vss.a_badDealer := false |}.

(** The dealer answers the complaint of verifier 1 with its deal. *)
Definition justification : vss.Justification :=
  {| vss.j_SessionID := sid; vss.j_Index := 1%N; vss.j_Deal := deal 1;
     vss.j_Signature := [] |}.

End examples.

(** An unmarshalled promise with no insurers and threshold zero, and the
    buffer it comes from. *)
Module zero_threshold.
#[local] Existing Instance mod256.suite.
Import promise.

Definition buf : list byte := le32 0 ++ le32 0 ++ le32 0 ++ [x01%byte].

Definition decoded : Promise :=
  {| p_id := ""; p_suite := 0%nat; p_t := 0; p_r := 0; p_n := 0;
     p_pubKey := x01; p_pubPoly := []; p_insurers := []; p_secrets := [] |}.

End zero_threshold.

(** ** What an honest run relies on

    The algebra that makes an honestly encrypted share decrypt and verify:
    both parties derive the same Diffie-Hellman point, subtracting a mask
    undoes adding it, and a share split from a polynomial passes the check
    against the commitments of that polynomial. *)

Section HonestRun.
Context `{Suite}.

Record suite_laws (s : SuiteT) : Prop := {
  dh_agree : ∀ x y : Secret,
    Point_Mul s (Some (Point_Mul s None x)) y = Point_Mul s (Some (Point_Mul s None y)) x;
  add_sub : ∀ a b : Secret, Secret_Sub s (Secret_Add s a b) b = a;
  shares_check : ∀ (k : Z) (s0 : Secret) (rand : Stream) (poly : list Secret) (n : Z)
                   (shares : list Secret) (pub : list Point) (i : nat) (sh : Secret),
    PriPoly_Pick s k s0 rand = Returned poly →
    PriShares_Split s poly n = Returned shares →
    PubPoly_Commit s poly = Returned pub →
    shares !! i = Some sh →
    PubPoly_Check s pub (Z.of_nat i) sh = true;
}.

(** The public key of a pair is its secret times the base of [s]. *)
Definition honest_key (s : SuiteT) (kp : KeyPair) : Prop :=
  kp_Public kp = Point_Mul s None (kp_Secret kp).

(** The clear share that [secrets[i]] hides under the Diffie-Hellman point
    [dh], when both the slot and the mask exist. *)
Definition decrypt (p : promise.Promise) (i : Z) (dh : Point) : option Secret :=
  match promise.diffieHellmanSecret (promise.p_suite p) dh, promise.p_secrets p !! Z.to_nat i with
  | Returned mask, Some sec => Some (Secret_Sub (promise.p_suite p) sec mask)
  | _, _ => None
  end.

(** What the encryption loop of [ConstructPromise] leaves in slot [i]. *)
Definition encrypted_slot (s : SuiteT) (long : Secret) (insurers : list Point)
    (prishares : list Secret) (i : nat) (sec : Secret) : Prop :=
  ∃ ins mask share,
    insurers !! i = Some ins
    ∧ promise.diffieHellmanSecret s (Point_Mul s (Some ins) long) = Returned mask
    ∧ prishares !! i = Some share
    ∧ sec = Secret_Add s share mask.

(** The public-polynomial check of the promise at index [i]. *)
Definition passes_check (p : promise.Promise) (i : Z) (share : Secret) : bool :=
  PubPoly_Check (promise.p_suite p) (promise.p_pubPoly p) i share.

End HonestRun.

(** ** Certification of a Promise, as the specification words it *)

Section Certification.
Context `{Suite}.
Import promise.

(** Serializing a point never fails. *)
Definition marshal_total : Prop :=
  ∀ P : Point, ∃ b, Point_MarshalBinary P = Returned b.

(** Slot [j] holds a blame proof that passes [VerifyBlame]. *)
Definition valid_blame (ps : PromiseState) (j : nat) : Prop :=
  ∃ bl, ps_blames ps !! j = Some (Some bl)
        ∧ VerifyBlame (ps_Promise ps) (Z.of_nat j) bl = Returned ().

(** Slot [i] holds a signature that passes [VerifySignature]. *)
Definition valid_signature (ps : PromiseState) (i : nat) : bool :=
  match ps_signatures ps !! i with
  | Some (Some sig) =>
      bool_decide (VerifySignature (ps_Promise ps) (Z.of_nat i) sig = Returned ())
  | _ => false
  end.

(** The number of slots [i] with [from <= i < from + count] that hold a
    valid signature. *)
Definition valid_signatures_in (ps : PromiseState) (from count : nat) : Z :=
  Z.of_nat (length (filter (λ i, valid_signature ps i = true) (seq from count))).

Definition valid_signatures (ps : PromiseState) : Z :=
  valid_signatures_in ps 0 (length (ps_signatures ps)).

End Certification.

(** ** Counting stored responses, as the specification words it *)

Section StoredResponses.
Context `{Suite}.
Import vss.

(** The number of stored responses whose status is [st]. *)
Definition responses_with (st : byte) (m : gmap N Response) : Z :=
  Z.of_nat (size (filter (λ kr, r_Status kr.2 = st) m)).

(** The aggregator once [VerifyDeal] has got past its first two tests on
    [d]: a first deal is bound, a bound deal stays. *)
Definition after_binding (a : aggregator) (d : Deal) : aggregator :=
  match a_deal a with
  | Some _ => a
  | None => bind_deal a d
  end.

(** The share pair of [d] opens the commitment at its index. *)
Definition share_opens (s : SuiteT) (verifiers : list Point) (d : Deal) : Prop :=
  Point_Add s (Point_Mul s None (V (d_SecShare d)))
              (Point_Mul s (Some (deriveH s verifiers)) (V (d_RndShare d)))
  = share_PubPoly_Eval s (d_Commitments d) (I (d_SecShare d)).

(** The approval a verifier answers to [d] before signing it. *)
Definition approval_of (v : Verifier) (d : Deal) : Response :=
  {| r_SessionID := sessionID (v_suite v) (v_dealer v) (v_verifiers v)
                      (d_Commitments d) (Z.of_N (d_T d));
     r_Index := Z.to_N (uint32 (v_index v));
     r_Status := StatusApproval;
     r_Signature := [] |}.

End StoredResponses.

(** ** Runs of the protocol state

    The calls that assign to an aggregator, or to a verifier, and the states
    that sequences of such calls lead through.  A step is taken whatever the
    call answers. *)

Section Runs.
Context `{Suite}.
Import vss.

Inductive aggregator_step (a : aggregator) : aggregator → Prop :=
| step_VerifyDeal (d : Deal) (inclusion : bool) :
    aggregator_step a (VerifyDeal d inclusion a).2
| step_verifyResponse (r : Response) :
    aggregator_step a (verifyResponse r a).2
| step_verifyJustification (j : Justification) :
    aggregator_step a (verifyJustification j a).2
| step_addResponse (r : Response) :
    aggregator_step a (addResponse r a).2.

Inductive verifier_step (v : Verifier) : Verifier → Prop :=
| step_ProcessDeal (d : Deal) :
    verifier_step v (ProcessDeal d v).2
| step_ProcessResponse (r : Response) :
    verifier_step v (ProcessResponse r v).2
| step_ProcessJustification (j : Justification) :
    verifier_step v (ProcessJustification j v).2.

(** Every stored response sits under its own index, and that index names a
    verifier. *)
Definition responses_indexed (a : aggregator) : Prop :=
  ∀ k r, a_responses a !! k = Some r →
         r_Index r = k ∧ Z.of_N k < len (a_verifiers a).

(** What a call may do to a stored response: leave it, or turn a complaint
    into a justified complaint. *)
Definition kept_or_justified (r r' : Response) : Prop :=
  r' = r ∨ (r_Status r = StatusComplaint ∧ r' = set_Status r statusJustified).

(** The aggregator a verifier works on in [ProcessDeal]: its own, or the one
    made for the incoming deal. *)
Definition aggregator_for (v : Verifier) (d : Deal) : aggregator :=
  default (newAggregator (v_suite v) (v_dealer v) (v_verifiers v) (d_Commitments d)
             (Z.of_N (d_T d)) (d_SessionID d))
          (v_aggregator v).

(** The deal a verifier has bound, if any. *)
Definition bound_deal (v : Verifier) : option Deal :=
  a ← v_aggregator v; a_deal a.

(** [a'] continues [a]: the parameters of the session are those of [a], a
    dealer found bad stays so, a bound deal stays bound, every stored
    response is still stored, as it was or justified, and no approval is
    lost. *)
Record continues (a a' : aggregator) : Prop := {
  cont_t : a_t a' = a_t a;
  cont_verifiers : a_verifiers a' = a_verifiers a;
  cont_dealer : a_dealer a' = a_dealer a;
  cont_suite : a_suite a' = a_suite a;
  cont_badDealer : a_badDealer a = true → a_badDealer a' = true;
  cont_deal : ∀ d, a_deal a = Some d →
    a_deal a' = Some d ∧ a_sid a' = a_sid a ∧ a_commits a' = a_commits a;
  cont_responses : ∀ k r, a_responses a !! k = Some r →
    ∃ r', a_responses a' !! k = Some r' ∧ kept_or_justified r r';
  cont_approvals :
    responses_with StatusApproval (a_responses a)
    <= responses_with StatusApproval (a_responses a');
}.

End Runs.

(** ** The polynomial package over the small suite

    A private polynomial is its coefficients, a public one its base and its
    commitments; share [i] is the value at [i + 1], as the evaluation of the
    small suite has it.  Recovery is a stand-in that asks for [t] shares. *)

Module mod256_share.
Import mod256.
#[local] Existing Instance suite.

(** A stream that runs dry yields zeros. *)
Definition new_pripoly (t : Z) (s0 : option byte) (rand : list byte)
  : result (list byte * list byte) :=
  if t <=? 0 then Panicked IndexOutOfRange else
  let k := Z.to_nat t in
  match s0 with
  | Some c => Returned (c :: take (k - 1) (rand ++ replicate (k - 1) x00%byte),
                        drop (k - 1) rand)
  | None => Returned (take k (rand ++ replicate k x00%byte), drop k rand)
  end.

Definition commit_to (f : list byte) (b : byte) : byte * list byte := (b, bmul b <$> f).

Definition eval_share (f : list byte) (i : Z) : @vss.PriShare suite :=
  {| vss.I := i; vss.V := horner f (byte_of_Z (i + 1)) |}.

Definition add (F G : byte * list byte) : result (byte * list byte) :=
  if bool_decide (length F.2 = length G.2)
  then Returned (F.1, zip_with badd F.2 G.2)
  else Failed (errors_Ext 4).

Definition recover (shares : list (@vss.PriShare suite)) (t n : Z) : result byte :=
  if len shares <? t then Failed (errors_Ext 5)
  else Returned (checksum (fmap (M := list) vss.V shares)).

Definition share : @vss.Share suite := {|
  vss.PriPoly := list byte;
  vss.SharePubPoly := byte * list byte;
  vss.Point_Base := λ _, base;
  vss.share_NewPriPoly := λ _, new_pripoly;
  vss.PriPoly_Commit := commit_to;
  vss.PriPoly_Eval := eval_share;
  vss.SharePubPoly_Info := λ F, F;
  vss.SharePubPoly_Add := add;
  vss.share_RecoverSecret := λ _, recover;
|}.

End mod256_share.

(** The dealer of the example data, as [NewDealer] makes it from the stream
    [0x11, 0x21, 0x12]. *)
Module dealer_examples.
#[local] Existing Instance mod256.suite.
#[local] Existing Instance mod256_share.share.
Import examples.

Definition stream : list byte := [x11; x21; x12].

Definition the_dealer : vss.Dealer :=
  {| vss.dl_suite := 0%nat; vss.dl_reader := None; vss.dl_long := dealerLong;
     vss.dl_pub := dealerPub; vss.dl_secret := x07;
     vss.dl_secretCommits := mod256.bmul mod256.base <$> f;
     vss.dl_verifiers := verifiers; vss.dl_t := 2; vss.dl_sessionID := sid;
     vss.dl_deals := [deal 0; deal 1; deal 2];
     vss.dl_aggregator := Some fresh_aggregator |}.

(** Verifier 1, with long-term secret 9. *)
Definition verifier1 : vss.Verifier :=
  {| vss.v_suite := 0%nat; vss.v_longterm := x09;
     vss.v_pub := mod256.bmul mod256.base x09;
     vss.v_dealer := dealerPub; vss.v_index := 1; vss.v_verifiers := verifiers;
     vss.v_aggregator := None |}.

End dealer_examples.

(** ** What an honest deal relies on

    A share carries the index it was evaluated at; the shares of [f] and
    [g] at an index open the commitment of [f] under the standard base plus
    [g] under [H] at that index; and a Schnorr signature verifies under the
    public key of its signer. *)

Section HonestDeal.
Context `{Suite} `{!vss.Share}.
Import vss.

Record share_laws (s : SuiteT) : Prop := {
  eval_index : ∀ (f : PriPoly) (i : Z), I (PriPoly_Eval f i) = i;
  commit_opens : ∀ (f g : PriPoly) (H : Point) (C : SharePubPoly) (i : Z),
    SharePubPoly_Add (PriPoly_Commit f (Point_Base s)) (PriPoly_Commit g H) = Returned C →
    Point_Add s (Point_Mul s None (V (PriPoly_Eval f i)))
                (Point_Mul s (Some H) (V (PriPoly_Eval g i)))
    = share_PubPoly_Eval s (SharePubPoly_Info C).2 i;
  schnorr_verifies : ∀ (x : Secret) (msg sig : list byte),
    sign_Schnorr s x msg = Returned sig →
    sign_VerifySchnorr s (Point_Mul s None x) msg sig = None;
}.

(** The dealer as [NewDealer] leaves it: one deal per verifier, and an
    aggregator over the same verifiers. *)
Definition dealer_ready (d : Dealer) : Prop :=
  ∃ a, dl_aggregator d = Some a
       ∧ a_verifiers a = dl_verifiers d
       ∧ len (dl_deals d) = len (dl_verifiers d).

End HonestDeal.


(** ** What a blame relies on

    An insurer's signature verifies under its public key, and a proof that
    the Diffie-Hellman point is the insurer's secret times the promiser's
    key verifies for that point. *)

Section BlameLaws.
Context `{Suite}.

Record blame_laws (s : SuiteT) : Prop := {
  anon_verifies : ∀ (rand : Stream) (msg : list byte) (x : Secret),
    ∃ sig, anon_Sign s rand msg (Point_Mul s None x) x = Some sig
           ∧ anon_Verify s msg (Point_Mul s None x) sig = None;
  proof_verifies : ∀ (name : string) (rand : Stream) (P : Point) (x : Secret)
                     (prf : option (list byte)),
    proof_HashProve s name rand (Point_Mul s (Some P) x) P x = Returned prf →
    proof_HashVerify s name (Point_Mul s (Some P) x) P (bytes_of prf) = None;
}.

End BlameLaws.

(** * Properties *)

(** ** Bytes, slices and little-endian words *)

Lemma Z_of_byte_range (b : byte) : 0 <= Z_of_byte b < 256.
Proof. unfold Z_of_byte. pose proof (Byte.to_N_bounded b). lia. Qed.

Lemma Z_of_byte_of_Z (x : Z) : Z_of_byte (byte_of_Z x) = x mod 256.
Proof.
  unfold byte_of_Z, Z_of_byte.
  assert (Hr : 0 <= x mod 256 < 256) by (apply Z.mod_pos_bound; lia).
  destruct (Byte.of_N (Z.to_N (x mod 256))) as [b|] eqn:E; simpl.
  - apply Byte.to_of_N in E. rewrite E. lia.
  - apply Byte.of_N_None_iff in E. lia.
Qed.

Lemma byte_of_Z_of_byte (b : byte) : byte_of_Z (Z_of_byte b) = b.
Proof.
  unfold byte_of_Z. pose proof (Z_of_byte_range b) as Hr.
  rewrite Z.mod_small by lia. unfold Z_of_byte.
  rewrite N2Z.id, Byte.of_to_N. reflexivity.
Qed.

Lemma le32_value (v : Z) :
  (v mod 256) + ((v / 2 ^ 8) mod 256) * 2 ^ 8
  + ((v / 2 ^ 16) mod 256) * 2 ^ 16 + ((v / 2 ^ 24) mod 256) * 2 ^ 24
  = v mod 2 ^ 32.
Proof.
  change (2 ^ 32) with (256 * (256 * (256 * 256))).
  rewrite (Z.rem_mul_r v 256 (256 * (256 * 256))) by lia.
  rewrite (Z.rem_mul_r (v / 256) 256 (256 * 256)) by lia.
  rewrite (Z.rem_mul_r (v / 256 / 256) 256 256) by lia.
  rewrite !Z.div_div by lia.
  change (2 ^ 8) with 256. change (2 ^ 16) with (256 * 256).
  change (2 ^ 24) with (256 * 256 * 256). lia.
Qed.

Lemma len_nonneg {A} (l : list A) : 0 <= len l.
Proof. unfold len. lia. Qed.

Lemma len_app {A} (l1 l2 : list A) : len (l1 ++ l2) = len l1 + len l2.
Proof. unfold len. rewrite length_app. lia. Qed.

Lemma len_le32 (v : Z) : len (le32 v) = 4.
Proof. reflexivity. Qed.

Lemma slice_app_mid {A} (pre mid post : list A) (lo hi : Z) :
  lo = len pre → hi = len pre + len mid →
  slice (pre ++ mid ++ post) lo hi = Returned mid.
Proof.
  intros -> ->. unfold slice.
  pose proof (len_nonneg pre). pose proof (len_nonneg mid). pose proof (len_nonneg post).
  rewrite !len_app.
  destruct (len pre <? 0) eqn:E1; [lia|].
  destruct (len pre + len mid <? len pre) eqn:E2; [lia|].
  destruct (len pre + (len mid + len post) <? len pre + len mid) eqn:E3; [lia|].
  simpl. f_equal. unfold len.
  rewrite Nat2Z.id, drop_app_length.
  replace (Z.to_nat (Z.of_nat (length pre) + Z.of_nat (length mid) - Z.of_nat (length pre)))
    with (length mid) by lia.
  apply take_app_length.
Qed.

Lemma slice_from_app {A} (pre post : list A) (lo : Z) :
  lo = len pre → slice_from (pre ++ post) lo = Returned post.
Proof.
  intros ->. unfold slice_from.
  pose proof (slice_app_mid pre post [] (len pre) (len pre + len post)
                eq_refl eq_refl) as Hs.
  rewrite app_nil_r in Hs. rewrite len_app. exact Hs.
Qed.

Lemma Uint32_app (pre rest : list byte) (v off : Z) :
  off = len pre → Uint32 (pre ++ le32 v ++ rest) off = Returned (v mod 2 ^ 32).
Proof.
  intros ->. unfold Uint32. rewrite slice_from_app by reflexivity.
  simpl. rewrite !Z_of_byte_of_Z. f_equal. apply le32_value.
Qed.

(** Writing into the zeroed tail of a buffer that is filled from the left. *)
Lemma copy_at_fill {A} (z : A) (pre src : list A) (k : nat) (off : Z) :
  off = len pre → (length src <= k)%nat →
  copy_at (pre ++ replicate k z) off src
  = Returned ((pre ++ src) ++ replicate (k - length src) z).
Proof.
  intros -> Hk. unfold copy_at. rewrite slice_from_app by reflexivity. simpl.
  rewrite length_replicate. unfold len. rewrite Nat2Z.id.
  rewrite take_app_length. rewrite Nat.min_r by lia.
  rewrite take_ge by lia. rewrite drop_replicate, <- app_assoc. reflexivity.
Qed.

Lemma PutUint32_fill (pre : list byte) (k : nat) (off v : Z) :
  off = len pre → (4 <= k)%nat →
  PutUint32 (pre ++ replicate k x00%byte) off v
  = Returned ((pre ++ le32 v) ++ replicate (k - 4) x00%byte).
Proof.
  intros -> Hk. unfold PutUint32. rewrite slice_from_app by reflexivity. simpl.
  unfold len at 1. rewrite length_replicate.
  destruct (Z.of_nat k <? 4) eqn:E; [lia|].
  apply (copy_at_fill x00%byte pre (le32 v) k); [reflexivity|simpl; lia].
Qed.

Lemma PutUint32_start (k : nat) (v : Z) :
  (4 <= k)%nat →
  PutUint32 (replicate k x00%byte) 0 v = Returned (le32 v ++ replicate (k - 4) x00%byte).
Proof. intros Hk. exact (PutUint32_fill [] k 0 v eq_refl Hk). Qed.

Lemma Uint32_start (rest : list byte) (v : Z) :
  Uint32 (le32 v ++ rest) 0 = Returned (v mod 2 ^ 32).
Proof. exact (Uint32_app [] rest v 0 eq_refl). Qed.

Lemma make_replicate {A} (z : A) (n : Z) :
  0 <= n → make z n = Returned (replicate (Z.to_nat n) z).
Proof. intros Hn. unfold make. destruct (n <? 0) eqn:E; [lia|reflexivity]. Qed.

Lemma make_len {A B} (z : A) (l : list B) :
  make z (len l) = Returned (replicate (length l) z).
Proof.
  rewrite make_replicate by apply len_nonneg. unfold len. rewrite Nat2Z.id. reflexivity.
Qed.

Lemma index_lookup {A} (l : list A) (i : nat) (x : A) :
  l !! i = Some x → index l (Z.of_nat i) = Returned x.
Proof.
  intros Hl. unfold index. pose proof (lookup_lt_Some _ _ _ Hl) as Hlt.
  unfold len. destruct (Z.of_nat i <? 0) eqn:E1; [lia|].
  destruct (Z.of_nat (length l) <=? Z.of_nat i) eqn:E2; [lia|].
  simpl. rewrite Nat2Z.id, Hl. reflexivity.
Qed.

Lemma index_Returned {A} (l : list A) (i : Z) (x : A) :
  index l i = Returned x ↔ 0 <= i ∧ l !! Z.to_nat i = Some x.
Proof.
  unfold index, len. split.
  - destruct (i <? 0) eqn:E1; [discriminate|].
    destruct (Z.of_nat (length l) <=? i) eqn:E2; [discriminate|]. simpl.
    destruct (l !! Z.to_nat i) eqn:E3; [|discriminate].
    intros [= ->]. split; [lia|reflexivity].
  - intros [Hi Hl]. pose proof (lookup_lt_Some _ _ _ Hl) as Hlt.
    destruct (i <? 0) eqn:E1; [lia|].
    destruct (Z.of_nat (length l) <=? i) eqn:E2; [lia|]. simpl.
    rewrite Hl. reflexivity.
Qed.

Lemma index_out_of_range {A} (l : list A) (i : Z) :
  ¬ (0 <= i < len l) → index l i = Panicked IndexOutOfRange.
Proof.
  intros Hi. unfold index.
  destruct (i <? 0) eqn:E1; [reflexivity|].
  destruct (len l <=? i) eqn:E2; [reflexivity|]. lia.
Qed.

Lemma index_in_range {A} (l : list A) (i : Z) :
  0 <= i < len l → ∃ x, index l i = Returned x ∧ l !! Z.to_nat i = Some x.
Proof.
  intros Hi. unfold len in Hi.
  destruct (lookup_lt_is_Some_2 l (Z.to_nat i)) as [x Hx]; [lia|].
  exists x. split; [|exact Hx]. apply index_Returned. split; [lia|exact Hx].
Qed.

(** ** The codec of PromiseSignature *)

Section PromiseSignatureCodec.
Context `{Suite}.
Import promise.

Lemma uint32_small (x : Z) : 0 <= x < 2 ^ 32 → uint32 x = x.
Proof. intros Hx. unfold uint32. apply Z.mod_small. exact Hx. Qed.

Lemma PromiseSignature_MarshalBinary_bytes (m : PromiseSignature) :
  PromiseSignature_MarshalBinary m
  = Returned (le32 (uint32 (len (bytes_of (sig_signature m)))) ++ bytes_of (sig_signature m)).
Proof.
  unfold PromiseSignature_MarshalBinary, PromiseSignature_MarshalSize, uint32Size.
  set (sig := bytes_of (sig_signature m)).
  pose proof (len_nonneg sig) as Hn.
  rewrite make_replicate by lia. cbn [mbind result_bind].
  rewrite PutUint32_start by (unfold len in *; lia).
  cbn [mbind result_bind].
  rewrite (copy_at_fill x00%byte (le32 _) sig) by (try reflexivity; unfold len in *; lia).
  cbn [mbind result_bind]. f_equal.
  replace (Z.to_nat (4 + len sig) - 4 - length sig)%nat with 0%nat
    by (unfold len; lia).
  apply app_nil_r.
Qed.

Lemma PromiseSignature_UnmarshalBinary_bytes (p : PromiseSignature) (sig rest : list byte) :
  len sig < 2 ^ 32 →
  PromiseSignature_UnmarshalBinary p (le32 (len sig) ++ sig ++ rest)
  = Returned {| sig_suite := sig_suite p; sig_signature := Some sig |}.
Proof.
  intros Hlen. pose proof (len_nonneg sig) as Hn. pose proof (len_nonneg rest) as Hr.
  unfold PromiseSignature_UnmarshalBinary, uint32Size.
  rewrite !len_app, len_le32.
  destruct (4 + (len sig + len rest) <? 4) eqn:E1; [lia|].
  rewrite Uint32_start.
  cbn [mbind result_bind]. rewrite Z.mod_small by lia.
  destruct (4 + (len sig + len rest) <? 4 + len sig) eqn:E2; [lia|].
  rewrite (slice_app_mid (le32 (len sig)) sig rest) by (rewrite ?len_le32; reflexivity).
  reflexivity.
Qed.

End PromiseSignatureCodec.

(** ** The codec of BlameProof *)

Lemma slice_at {A} (buf pre mid post : list A) (lo hi : Z) :
  buf = pre ++ mid ++ post → lo = len pre → hi = lo + len mid →
  slice buf lo hi = Returned mid.
Proof. intros -> -> ->. apply slice_app_mid; reflexivity. Qed.

Lemma Uint32_at (buf pre rest : list byte) (v off : Z) :
  buf = pre ++ le32 v ++ rest → off = len pre →
  Uint32 buf off = Returned (v mod 2 ^ 32).
Proof. intros -> ->. apply Uint32_app. reflexivity. Qed.

Lemma copy_at_start {A} (z : A) (src : list A) :
  copy_at (replicate (length src) z) 0 src = Returned src.
Proof.
  pose proof (copy_at_fill z [] src (length src) 0 eq_refl (le_n _)) as Hc.
  simpl in Hc. rewrite Nat.sub_diag, app_nil_r in Hc. exact Hc.
Qed.

Section BlameProofCodec.
Context `{Suite}.
Import promise.

Lemma BlameProof_MarshalBinary_bytes (m : BlameProof) (pointBuf : list byte) :
  Point_MarshalBinary (bp_diffieKey m) = Returned pointBuf →
  len pointBuf = PointLen (bp_suite m) →
  BlameProof_MarshalBinary m
  = Returned (le32 (uint32 (len (bytes_of (bp_diffieKeyProof m))))
              ++ le32 (uint32 (PromiseSignature_MarshalSize (bp_signature m)))
              ++ pointBuf ++ bytes_of (bp_diffieKeyProof m)
              ++ le32 (uint32 (len (bytes_of (sig_signature (bp_signature m)))))
              ++ bytes_of (sig_signature (bp_signature m))).
Proof.
  intros Hm Hlen.
  unfold BlameProof_MarshalBinary, BlameProof_MarshalSize.
  rewrite PromiseSignature_MarshalBinary_bytes, Hm.
  unfold PromiseSignature_MarshalSize, uint32Size.
  set (prf := bytes_of (bp_diffieKeyProof m)).
  set (sig := bytes_of (sig_signature (bp_signature m))).
  rewrite <- Hlen.
  pose proof (len_nonneg prf). pose proof (len_nonneg sig). pose proof (len_nonneg pointBuf).
  rewrite make_replicate by lia. cbn [mbind result_bind].
  rewrite PutUint32_start by (unfold len in *; lia). cbn [mbind result_bind].
  rewrite PutUint32_fill by (try reflexivity; unfold len in *; lia).
  cbn [mbind result_bind].
  rewrite (copy_at_fill x00%byte _ pointBuf)
    by (rewrite ?len_app, ?len_le32; try reflexivity; unfold len in *; lia).
  cbn [mbind result_bind].
  rewrite (copy_at_fill x00%byte _ prf)
    by (rewrite ?len_app, ?len_le32; try reflexivity; unfold len in *; lia).
  cbn [mbind result_bind].
  rewrite (copy_at_fill x00%byte _ (le32 _ ++ sig))
    by (rewrite ?len_app, ?len_le32, ?length_app; simpl; unfold len in *; lia).
  cbn [mbind result_bind]. f_equal.
  match goal with |- _ ++ replicate ?k _ = _ => replace k with 0%nat
    by (rewrite length_app; simpl; unfold len in *; lia) end.
  rewrite app_nil_r, <- !app_assoc. reflexivity.
Qed.

Lemma BlameProof_UnmarshalBinary_bytes (bp : BlameProof) (D : Point)
    (pointBuf prf sig : list byte) :
  len pointBuf = PointLen (bp_suite bp) →
  Point_UnmarshalBinary (bp_suite bp) pointBuf = Returned D →
  len prf < 2 ^ 32 → uint32Size + len sig < 2 ^ 32 →
  BlameProof_UnmarshalBinary bp
    (le32 (len prf) ++ le32 (uint32Size + len sig) ++ pointBuf ++ prf
     ++ le32 (len sig) ++ sig)
  = Returned {| bp_suite := bp_suite bp; bp_diffieKey := D;
                bp_diffieKeyProof := Some prf;
                bp_signature := {| sig_suite := bp_suite bp;
                                   sig_signature := Some sig |} |}.
Proof.
  intros Hlen Hu Hprf Hsig.
  pose proof (len_nonneg prf). pose proof (len_nonneg sig). pose proof (len_nonneg pointBuf).
  unfold BlameProof_UnmarshalBinary. rewrite <- Hlen.
  set (buf := le32 (len prf) ++ _).
  assert (Hbuf : len buf = 4 + (4 + (len pointBuf + (len prf + (4 + len sig))))).
  { subst buf. rewrite !len_app, !len_le32. reflexivity. }
  unfold uint32Size in *. rewrite Hbuf.
  destruct (_ <? 2 * 4 + len pointBuf) eqn:E1; [lia|].
  rewrite (Uint32_at buf [] (le32 (4 + len sig) ++ pointBuf ++ prf ++ le32 (len sig) ++ sig)
             (len prf) 0) by reflexivity.
  cbn [mbind result_bind].
  rewrite (Uint32_at buf (le32 (len prf)) (pointBuf ++ prf ++ le32 (len sig) ++ sig)
             (4 + len sig) 4) by reflexivity.
  cbn [mbind result_bind]. rewrite !Z.mod_small by lia.
  rewrite (slice_at buf (le32 (len prf) ++ le32 (4 + len sig)) pointBuf
             (prf ++ le32 (len sig) ++ sig) (2 * 4) (2 * 4 + len pointBuf))
    by (subst buf; rewrite <- ?app_assoc, ?len_app, ?len_le32; try reflexivity; lia).
  cbn [mbind result_bind]. rewrite Hlen, Hu. rewrite <- Hlen. cbn [mbind result_bind].
  destruct (_ <? 2 * 4 + len pointBuf + len prf + (4 + len sig)) eqn:E2; [lia|].
  rewrite make_len. cbn [mbind result_bind].
  rewrite (slice_at buf (le32 (len prf) ++ le32 (4 + len sig) ++ pointBuf) prf
             (le32 (len sig) ++ sig) (2 * 4 + len pointBuf) (2 * 4 + len pointBuf + len prf))
    by (subst buf; rewrite <- ?app_assoc, ?len_app, ?len_le32; try reflexivity; lia).
  cbn [mbind result_bind].
  rewrite copy_at_start. cbn [mbind result_bind].
  rewrite (slice_at buf (le32 (len prf) ++ le32 (4 + len sig) ++ pointBuf ++ prf)
             (le32 (len sig) ++ sig) [] (2 * 4 + len pointBuf + len prf)
             (2 * 4 + len pointBuf + len prf + (4 + len sig)))
    by (subst buf; rewrite <- ?app_assoc, ?app_nil_r, ?len_app, ?len_le32;
        try reflexivity; lia).
  cbn [mbind result_bind].
  pose proof (PromiseSignature_UnmarshalBinary_bytes
                (PromiseSignature_init (bp_suite bp) None) sig []) as Hs.
  rewrite app_nil_r in Hs. rewrite Hs by lia. reflexivity.
Qed.

End BlameProofCodec.

(** ** Loops that write and read runs of fixed-size encodings *)

Lemma for_loop_S {A} (k : nat) (i : Z) (body : Z → A → result A) (acc : A) :
  for_loop (S k) i body acc = (acc' ← body i acc; for_loop k (i + 1) body acc').
Proof. reflexivity. Qed.

Lemma len_concat_uniform {A} (encs : list (list A)) (L : Z) :
  Forall (λ b, len b = L) encs → len (concat encs) = Z.of_nat (length encs) * L.
Proof.
  induction 1 as [|b encs Hb _ IH]; [reflexivity|].
  simpl concat. rewrite len_app, IH, Hb. simpl length. lia.
Qed.

Lemma Forall_exists_Forall2 {A B} (P : A → B → Prop) (xs : list A) :
  Forall (λ x, ∃ b, P x b) xs → ∃ bs, Forall2 P xs bs.
Proof.
  induction 1 as [|x xs [b Hb] _ [bs IH]].
  - exists []. constructor.
  - exists (b :: bs). constructor; assumption.
Qed.

Section EncodingLoops.
Context {X : Type} (marshal : X → result (list byte))
        (unmarshal : list byte → result X) (L : Z).

#[local] Abbreviation encodes := (encodes marshal unmarshal L).

Lemma encodes_len (xs : list X) (encs : list (list byte)) :
  Forall2 encodes xs encs → Forall (λ b, len b = L) encs.
Proof. induction 1 as [|x b xs encs (_ & Hb & _) _ IH]; constructor; assumption. Qed.

Lemma marshal_loop (xs : list X) (encs : list (list byte)) (bufPos : Z) (m : nat) :
  Forall2 encodes xs encs →
  ∀ (j : nat) (pre : list byte) (k : nat),
    (j + m = length xs)%nat →
    len pre = bufPos + Z.of_nat j * L →
    (length (concat (drop j encs)) <= k)%nat →
    for_loop m (Z.of_nat j)
      (λ i buf, x ← index xs i; pb ← marshal x; copy_at buf (bufPos + i * L) pb)
      (pre ++ replicate k x00%byte)
    = Returned ((pre ++ concat (drop j encs))
                ++ replicate (k - length (concat (drop j encs))) x00%byte).
Proof.
  intros Henc. pose proof (Forall2_length _ _ _ Henc) as Hlen.
  induction m as [|m IH]; intros j pre k Hj Hpre Hk.
  - simpl. rewrite drop_ge by lia. simpl. rewrite app_nil_r, Nat.sub_0_r. reflexivity.
  - rewrite for_loop_S.
    destruct (lookup_lt_is_Some_2 xs j) as [x Hx]; [lia|].
    destruct (Forall2_lookup_l _ _ _ _ _ Henc Hx) as (b & Hb & Hm & Hlb & _).
    rewrite (index_lookup _ _ _ Hx). cbn [mbind result_bind]. rewrite Hm.
    cbn [mbind result_bind].
    rewrite (drop_S _ _ _ Hb) in Hk |- *. simpl concat in Hk |- *.
    rewrite length_app in Hk.
    rewrite (copy_at_fill x00%byte pre b k) by lia. cbn [mbind result_bind].
    replace (Z.of_nat j + 1) with (Z.of_nat (S j)) by lia.
    rewrite IH; [|lia|rewrite len_app; lia|lia].
    rewrite <- !app_assoc, length_app. do 5 f_equal. lia.
Qed.

Lemma unmarshal_loop (xs : list X) (encs : list (list byte))
    (buf pre post : list byte) (bufPos : Z) (m : nat) :
  Forall2 encodes xs encs →
  buf = pre ++ concat encs ++ post → len pre = bufPos →
  ∀ (j : nat) (acc : list X),
    (j + m = length xs)%nat →
    for_loop m (Z.of_nat j)
      (λ i acc,
         b ← slice buf (bufPos + i * L) (bufPos + i * L + L);
         x ← unmarshal b; Returned (acc ++ [x]))
      acc
    = Returned (acc ++ drop j xs).
Proof.
  intros Henc -> Hpre. pose proof (Forall2_length _ _ _ Henc) as Hlen.
  pose proof (encodes_len _ _ Henc) as HL.
  induction m as [|m IH]; intros j acc Hj.
  - simpl. rewrite drop_ge by lia. rewrite app_nil_r. reflexivity.
  - rewrite for_loop_S.
    destruct (lookup_lt_is_Some_2 xs j) as [x Hx]; [lia|].
    destruct (Forall2_lookup_l _ _ _ _ _ Henc Hx) as (b & Hb & _ & Hlb & Hu).
    rewrite (slice_at _ (pre ++ concat (take j encs)) b
               (concat (drop (S j) encs) ++ post)).
    + cbn [mbind result_bind]. rewrite Hu. cbn [mbind result_bind].
      replace (Z.of_nat j + 1) with (Z.of_nat (S j)) by lia.
      rewrite IH by lia. rewrite (drop_S _ _ _ Hx), <- app_assoc. reflexivity.
    + rewrite <- (take_drop_middle _ _ _ Hb) at 1.
      rewrite concat_app. simpl concat. rewrite <- !app_assoc. reflexivity.
    + rewrite len_app, Hpre.
      rewrite (len_concat_uniform (take j encs) L) by (apply Forall_take; exact HL).
      rewrite length_take. f_equal. f_equal. lia.
    + rewrite Hlb. reflexivity.
Qed.

End EncodingLoops.

(** ** The codec of Promise *)

Lemma for_range_length {A B} (l : list B) (body : Z → A → result A) (acc : A) :
  for_range 0 (len l) body acc = for_loop (length l) (Z.of_nat 0) body acc.
Proof. unfold for_range, len. rewrite Z.sub_0_r, Nat2Z.id. reflexivity. Qed.

Section PromiseCodec.
Context `{Suite}.
Import promise.

Lemma points_of_encs (s : SuiteT) (xs : list Point) :
  Forall (point_of s) xs → ∃ encs, Forall2 (point_enc s) xs encs.
Proof. intros Hxs. apply Forall_exists_Forall2. exact Hxs. Qed.

Lemma secrets_of_encs (s : SuiteT) (xs : list Secret) :
  Forall (secret_of s) xs → ∃ encs, Forall2 (secret_enc s) xs encs.
Proof. intros Hxs. apply Forall_exists_Forall2. exact Hxs. Qed.

Lemma len_encs {X} (marshal : X → result (list byte)) (unmarshal : list byte → result X)
    (L : Z) (xs : list X) (encs : list (list byte)) :
  Forall2 (encodes marshal unmarshal L) xs encs → len (concat encs) = len xs * L.
Proof.
  intros Henc. rewrite (len_concat_uniform encs L) by (eapply encodes_len; exact Henc).
  unfold len. rewrite (Forall2_length _ _ _ Henc). reflexivity.
Qed.

Lemma PubPoly_MarshalBinary_bytes (s : SuiteT) (pub : PubPoly) (encs : list (list byte)) :
  Forall2 (point_enc s) pub encs → PubPoly_MarshalBinary pub = Returned (concat encs).
Proof.
  induction 1 as [|c b pub encs (Hm & _ & _) _ IH]; [reflexivity|].
  simpl. rewrite Hm. cbn [mbind result_bind]. rewrite IH. reflexivity.
Qed.

Lemma PubPoly_UnmarshalBinary_bytes (s : SuiteT) (pub : PubPoly) (encs : list (list byte)) :
  Forall2 (point_enc s) pub encs →
  PubPoly_UnmarshalBinary s (length pub) (concat encs) = Returned pub.
Proof.
  induction 1 as [|c b pub encs (_ & Hl & Hu) _ IH]; [reflexivity|].
  simpl.
  rewrite (slice_at (b ++ concat encs) [] b (concat encs) 0 (PointLen s))
    by (rewrite ?Hl; reflexivity).
  cbn [mbind result_bind]. rewrite Hu. cbn [mbind result_bind].
  rewrite slice_from_app by (symmetry; exact Hl).
  cbn [mbind result_bind]. rewrite IH. reflexivity.
Qed.

Lemma MarshalBinary_bytes (m : Promise) (keyBuf : list byte)
    (polyEncs insEncs secEncs : list (list byte)) :
  len (p_insurers m) = p_n m → len (p_secrets m) = p_n m →
  point_enc (p_suite m) (p_pubKey m) keyBuf →
  Forall2 (point_enc (p_suite m)) (p_pubPoly m) polyEncs →
  Forall2 (point_enc (p_suite m)) (p_insurers m) insEncs →
  Forall2 (secret_enc (p_suite m)) (p_secrets m) secEncs →
  MarshalBinary m
  = Returned (le32 (uint32 (p_n m)) ++ le32 (uint32 (p_t m)) ++ le32 (uint32 (p_r m))
              ++ keyBuf ++ concat polyEncs ++ concat insEncs ++ concat secEncs).
Proof.
  intros Hni Hns (Hkm & Hkl & _) Hpoly Hins Hsec.
  pose proof (len_encs _ _ _ _ _ Hpoly) as Hlp.
  pose proof (len_encs _ _ _ _ _ Hins) as Hli.
  pose proof (len_encs _ _ _ _ _ Hsec) as Hls.
  rewrite Hni in Hli. rewrite Hns in Hls.
  unfold MarshalBinary, MarshalSize, PubPoly_MarshalSize, uint32Size.
  rewrite (PubPoly_MarshalBinary_bytes _ _ _ Hpoly), Hkm.
  set (polyBuf := concat polyEncs) in *.
  set (insBuf := concat insEncs) in *.
  set (secBuf := concat secEncs) in *.
  rewrite make_replicate by (unfold len in *; lia). cbn [mbind result_bind].
  rewrite PutUint32_start by (unfold len in *; lia). cbn [mbind result_bind].
  rewrite PutUint32_fill by (try reflexivity; unfold len in *; lia).
  cbn [mbind result_bind].
  rewrite PutUint32_fill by (try reflexivity; unfold len in *; lia).
  cbn [mbind result_bind].
  rewrite (copy_at_fill x00%byte _ keyBuf)
    by (rewrite ?len_app, ?len_le32; try reflexivity; unfold len in *; lia).
  cbn [mbind result_bind].
  rewrite (copy_at_fill x00%byte _ polyBuf)
    by (rewrite ?len_app, ?len_le32; unfold len in *; lia).
  cbn [mbind result_bind].
  rewrite for_range_length.
  rewrite (marshal_loop Point_MarshalBinary (Point_UnmarshalBinary (p_suite m)) _
             (p_insurers m) insEncs _ _ Hins 0)
    by (rewrite ?drop_0, ?len_app, ?len_le32; fold insBuf; try reflexivity;
        unfold len in *; lia).
  cbn [mbind result_bind]. rewrite drop_0. fold insBuf.
  rewrite for_range_length.
  rewrite (marshal_loop Secret_MarshalBinary (Secret_UnmarshalBinary (p_suite m)) _
             (p_secrets m) secEncs _ _ Hsec 0)
    by (rewrite ?drop_0, ?len_app, ?len_le32; fold secBuf; try reflexivity;
        unfold len in *; lia).
  cbn [mbind result_bind]. rewrite drop_0. fold secBuf. f_equal.
  match goal with |- _ ++ replicate ?k _ = _ => replace k with 0%nat
    by (unfold len in *; lia) end.
  rewrite app_nil_r, <- !app_assoc. reflexivity.
Qed.

Lemma UnmarshalBinary_bytes (p0 : Promise) (n t r : Z) (pubKey : Point) (pubPoly : PubPoly)
    (insurers : list Point) (secrets : list Secret) (keyBuf : list byte)
    (polyEncs insEncs secEncs : list (list byte)) :
  0 <= t → t <= r <= n → n < 2 ^ 32 →
  len insurers = n → len secrets = n → len pubPoly = t →
  point_enc (p_suite p0) pubKey keyBuf →
  Forall2 (point_enc (p_suite p0)) pubPoly polyEncs →
  Forall2 (point_enc (p_suite p0)) insurers insEncs →
  Forall2 (secret_enc (p_suite p0)) secrets secEncs →
  UnmarshalBinary p0
    (le32 n ++ le32 t ++ le32 r ++ keyBuf ++ concat polyEncs ++ concat insEncs
     ++ concat secEncs)
  = Returned {| p_id := p_id p0; p_suite := p_suite p0; p_t := t; p_r := r; p_n := n;
                p_pubKey := pubKey; p_pubPoly := pubPoly;
                p_insurers := insurers; p_secrets := secrets |}.
Proof.
  intros Ht Htr Hn Hni Hns Hnp (_ & Hkl & Hku) Hpoly Hins Hsec.
  pose proof (len_encs _ _ _ _ _ Hpoly) as Hlp.
  pose proof (len_encs _ _ _ _ _ Hins) as Hli.
  pose proof (len_encs _ _ _ _ _ Hsec) as Hls.
  rewrite Hnp in Hlp. rewrite Hni in Hli. rewrite Hns in Hls.
  set (polyBuf := concat polyEncs) in *.
  set (insBuf := concat insEncs) in *.
  set (secBuf := concat secEncs) in *.
  unfold UnmarshalBinary, PubPoly_MarshalSize, PubPoly_Init, uint32Size. cbn zeta.
  set (buf := le32 n ++ _).
  rewrite (Uint32_at buf [] (le32 t ++ le32 r ++ keyBuf ++ polyBuf ++ insBuf ++ secBuf) n 0)
    by reflexivity.
  cbn [mbind result_bind].
  rewrite (Uint32_at buf (le32 n) (le32 r ++ keyBuf ++ polyBuf ++ insBuf ++ secBuf) t 4)
    by reflexivity.
  cbn [mbind result_bind].
  rewrite (Uint32_at buf (le32 n ++ le32 t) (keyBuf ++ polyBuf ++ insBuf ++ secBuf) r (2 * 4))
    by (subst buf; rewrite <- ?app_assoc; reflexivity).
  cbn [mbind result_bind]. rewrite !Z.mod_small by lia.
  rewrite (slice_at buf (le32 n ++ le32 t ++ le32 r) keyBuf (polyBuf ++ insBuf ++ secBuf)
             (3 * 4) (3 * 4 + PointLen (p_suite p0)))
    by (subst buf; rewrite <- ?app_assoc, ?len_app, ?len_le32; try reflexivity; lia).
  cbn [mbind result_bind]. rewrite Hku. cbn [mbind result_bind].
  rewrite make_replicate by lia. cbn [mbind result_bind].
  rewrite (slice_at buf (le32 n ++ le32 t ++ le32 r ++ keyBuf) polyBuf (insBuf ++ secBuf)
             (3 * 4 + PointLen (p_suite p0))
             (3 * 4 + PointLen (p_suite p0) + t * PointLen (p_suite p0)))
    by (subst buf; rewrite <- ?app_assoc, ?len_app, ?len_le32; try reflexivity; lia).
  cbn [mbind result_bind].
  replace (Z.to_nat t) with (length pubPoly) by (unfold len in *; lia).
  subst polyBuf. rewrite (PubPoly_UnmarshalBinary_bytes _ _ _ Hpoly).
  set (polyBuf := concat polyEncs) in *.
  cbn [mbind result_bind].
  unfold for_range. rewrite !Z.sub_0_r.
  pose proof (unmarshal_loop Point_MarshalBinary (Point_UnmarshalBinary (p_suite p0)) _
             insurers insEncs buf (le32 n ++ le32 t ++ le32 r ++ keyBuf ++ polyBuf) secBuf
             (3 * 4 + PointLen (p_suite p0) + t * PointLen (p_suite p0)) (Z.to_nat n)
             Hins) as Hloop1.
  specialize (Hloop1 ltac:(subst buf insBuf; rewrite <- ?app_assoc; reflexivity)
                     ltac:(rewrite ?len_app, ?len_le32; lia) 0%nat []
                     ltac:(unfold len in *; lia)).
  change (Z.of_nat 0) with 0 in Hloop1. rewrite Hloop1.
  cbn [mbind result_bind app]. rewrite drop_0.
  pose proof (unmarshal_loop Secret_MarshalBinary (Secret_UnmarshalBinary (p_suite p0)) _
             secrets secEncs buf
             (le32 n ++ le32 t ++ le32 r ++ keyBuf ++ polyBuf ++ insBuf) []
             (3 * 4 + PointLen (p_suite p0) + t * PointLen (p_suite p0)
              + n * PointLen (p_suite p0)) (Z.to_nat n)
             Hsec) as Hloop2.
  specialize (Hloop2 ltac:(subst buf secBuf; rewrite <- ?app_assoc, ?app_nil_r; reflexivity)
                     ltac:(rewrite ?len_app, ?len_le32; lia) 0%nat []
                     ltac:(unfold len in *; lia)).
  change (Z.of_nat 0) with 0 in Hloop2. rewrite Hloop2.
  cbn [mbind result_bind app]. rewrite drop_0.
  unfold verifyPromise. cbn [p_n p_t p_r p_insurers p_secrets].
  destruct (n <? t) eqn:E1; [lia|]. destruct (r <? t) eqn:E2; [lia|].
  destruct (n <? r) eqn:E3; [lia|]. cbn [orb].
  rewrite Hni, Hns, Z.eqb_refl. reflexivity.
Qed.

Lemma Equal_loop (xs ys : list Secret) (is1 is2 : list Point) (m : nat) :
  xs = ys → is1 = is2 →
  ∀ j : nat, (j + m <= length xs)%nat → (j + m <= length is1)%nat →
  for_loop m (Z.of_nat j)
    (λ i (ok : bool),
       if negb ok then Returned false else
       s1 ← index xs i; s2 ← index ys i;
       if negb (bool_decide (s1 = s2)) then Returned false else
       i1 ← index is1 i; i2 ← index is2 i;
       Returned (bool_decide (i1 = i2))) true
  = Returned true.
Proof.
  intros <- <-. induction m as [|m IH]; intros j Hx Hi; [reflexivity|].
  rewrite for_loop_S. cbn [negb].
  destruct (lookup_lt_is_Some_2 xs j) as [x Hxj]; [lia|].
  destruct (lookup_lt_is_Some_2 is1 j) as [y Hyj]; [lia|].
  rewrite (index_lookup _ _ _ Hxj). cbn [mbind result_bind].
  rewrite bool_decide_eq_true_2 by reflexivity. cbn [negb].
  rewrite (index_lookup _ _ _ Hyj). cbn [mbind result_bind].
  rewrite bool_decide_eq_true_2 by reflexivity.
  replace (Z.of_nat j + 1) with (Z.of_nat (S j)) by lia.
  apply IH; lia.
Qed.

(** Two promises that differ at most in their identifier are [Equal]. *)
Lemma Equal_same_fields (p p2 : Promise) :
  len (p_insurers p) = p_n p → len (p_secrets p) = p_n p →
  p_suite p2 = p_suite p → p_t p2 = p_t p → p_r p2 = p_r p → p_n p2 = p_n p →
  p_pubKey p2 = p_pubKey p → p_pubPoly p2 = p_pubPoly p →
  p_insurers p2 = p_insurers p → p_secrets p2 = p_secrets p →
  Equal p p2 = Returned true.
Proof.
  intros Hni Hns Hs Ht Hr Hn Hk Hp Hi Hx. unfold Equal.
  rewrite Hs, Ht, Hr, Hn, Hk, Hp, Hi, Hx.
  rewrite Z.eqb_refl. cbn [negb].
  rewrite bool_decide_eq_true_2 by reflexivity. cbn [negb].
  unfold for_range. rewrite Z.sub_0_r.
  rewrite (Equal_loop _ _ _ _ _ eq_refl eq_refl 0) by (unfold len in *; lia).
  cbn [mbind result_bind negb].
  rewrite !Z.eqb_refl. unfold PubPoly_Equal.
  rewrite !bool_decide_eq_true_2 by reflexivity. reflexivity.
Qed.

End PromiseCodec.

(** ** Round trips through the wire format *)

Section RoundTrip.
Context `{Suite}.
Import promise.

(** C9.  For each of Promise, PromiseSignature and BlameProof, and for every
    well-formed value [m], [MarshalBinary] returns a buffer, unmarshalling
    that buffer into any receiver initialised with [UnmarshalInit] on the
    suite of [m] returns nil, and the receiver is then equal to [m] as the
    [Equal] method of the type decides. *)
Theorem C9_marshal_unmarshal_round_trip :
  (∀ m p0 : Promise, Promise_wf m →
     ∃ buf p', MarshalBinary m = Returned buf
               ∧ UnmarshalBinary (UnmarshalInit p0 (p_suite m)) buf = Returned p'
               ∧ Equal m p' = Returned true)
  ∧ (∀ m p0 : PromiseSignature, PromiseSignature_wf m →
     ∃ buf p', PromiseSignature_MarshalBinary m = Returned buf
               ∧ PromiseSignature_UnmarshalBinary
                   (PromiseSignature_UnmarshalInit p0 (sig_suite m)) buf = Returned p'
               ∧ PromiseSignature_Equal m p' = true)
  ∧ (∀ m p0 : BlameProof, BlameProof_wf m →
     ∃ buf p', BlameProof_MarshalBinary m = Returned buf
               ∧ BlameProof_UnmarshalBinary
                   (BlameProof_UnmarshalInit p0 (bp_suite m)) buf = Returned p'
               ∧ BlameProof_Equal m p' = true).
Proof.
  split; [|split].
  - intros m p0 (Htrn & Hni & Hns & Hnp & Hn & Hkey & Hpoly & Hins & Hsec).
    destruct Hkey as [keyBuf Hkey].
    destruct (points_of_encs _ _ Hpoly) as [polyEncs Hpe].
    destruct (points_of_encs _ _ Hins) as [insEncs Hie].
    destruct (secrets_of_encs _ _ Hsec) as [secEncs Hse].
    pose proof (len_nonneg (p_pubPoly m)) as Ht.
    eexists _, _. split; [|split].
    + rewrite (MarshalBinary_bytes m keyBuf polyEncs insEncs secEncs) by assumption.
      rewrite !uint32_small by lia. reflexivity.
    + apply (UnmarshalBinary_bytes _ (p_n m) (p_t m) (p_r m) (p_pubKey m) (p_pubPoly m)
               (p_insurers m) (p_secrets m) keyBuf polyEncs insEncs secEncs);
        try assumption; lia.
    + apply Equal_same_fields; try assumption; reflexivity.
  - intros m p0 (sig & Hsig & Hlen).
    pose proof (len_nonneg sig) as Hn.
    eexists _, _. split; [|split].
    + rewrite PromiseSignature_MarshalBinary_bytes, Hsig.
      change (bytes_of (Some sig)) with sig.
      rewrite uint32_small by lia. reflexivity.
    + pose proof (PromiseSignature_UnmarshalBinary_bytes
                    (PromiseSignature_UnmarshalInit p0 (sig_suite m)) sig [] Hlen) as Hu.
      rewrite app_nil_r in Hu. exact Hu.
    + unfold PromiseSignature_Equal, DeepEqual_bytes. cbn [sig_suite sig_signature
        PromiseSignature_UnmarshalInit].
      rewrite Hsig, !bool_decide_eq_true_2 by reflexivity. reflexivity.
  - intros m p0 ((pointBuf & Hm & Hl & Hu) & (prf & Hprf & Hpl) & (sig & Hsig & Hsl) & Hs).
    pose proof (len_nonneg sig) as Hn. pose proof (len_nonneg prf) as Hn'.
    unfold uint32Size in Hsl.
    eexists _, _. split; [|split].
    + rewrite (BlameProof_MarshalBinary_bytes m pointBuf Hm Hl).
      unfold PromiseSignature_MarshalSize, uint32Size. rewrite Hprf, Hsig.
      change (bytes_of (Some sig)) with sig. change (bytes_of (Some prf)) with prf.
      rewrite !uint32_small by lia. reflexivity.
    + apply (BlameProof_UnmarshalBinary_bytes _ (bp_diffieKey m) pointBuf prf sig);
        cbn [bp_suite BlameProof_UnmarshalInit]; unfold uint32Size; try assumption; lia.
    + unfold BlameProof_Equal, PromiseSignature_Equal, DeepEqual_bytes.
      cbn [bp_suite bp_diffieKey bp_diffieKeyProof bp_signature sig_suite sig_signature
           BlameProof_UnmarshalInit].
      rewrite Hprf, Hsig, Hs, !bool_decide_eq_true_2 by reflexivity. reflexivity.
Qed.

End RoundTrip.

Lemma mod256_point_of (P : byte) : @point_of mod256.suite 0%nat P.
Proof. exists [P]. repeat split. Qed.

Lemma mod256_secret_of (x : byte) : @secret_of mod256.suite 0%nat x.
Proof. exists [x]. repeat split. Qed.

Lemma mod256_Promise_wf : @Promise_wf mod256.suite examples.the_promise.
Proof.
  unfold Promise_wf, examples.the_promise.
  cbn [promise.p_t promise.p_r promise.p_n promise.p_suite promise.p_pubKey
       promise.p_pubPoly promise.p_insurers promise.p_secrets].
  repeat apply conj;
    first [ lia | reflexivity | apply mod256_point_of
          | repeat first [ apply Forall_nil_2
                         | apply Forall_cons_2;
                           [ first [apply mod256_point_of | apply mod256_secret_of] | ] ] ].
Qed.

Lemma mod256_PromiseSignature_wf : @PromiseSignature_wf mod256.suite examples.the_signature.
Proof. eexists. split; [reflexivity|]. vm_compute. reflexivity. Qed.

Lemma mod256_BlameProof_wf : @BlameProof_wf mod256.suite examples.the_blame.
Proof.
  split; [apply mod256_point_of|]. split; [|split].
  - eexists. split; [reflexivity|]. vm_compute. reflexivity.
  - eexists. split; [reflexivity|]. vm_compute. reflexivity.
  - reflexivity.
Qed.

Lemma C9_marshal_unmarshal_round_trip_witness :
  (∃ buf p',
     @promise.MarshalBinary mod256.suite examples.the_promise = Returned buf
     ∧ promise.UnmarshalBinary (promise.UnmarshalInit examples.blank_promise 0%nat) buf
       = Returned p'
     ∧ promise.Equal examples.the_promise p' = Returned true)
  ∧ (∃ buf p',
     @promise.PromiseSignature_MarshalBinary mod256.suite examples.the_signature
     = Returned buf
     ∧ promise.PromiseSignature_UnmarshalBinary
         (promise.PromiseSignature_UnmarshalInit examples.blank_signature 0%nat) buf
       = Returned p'
     ∧ promise.PromiseSignature_Equal examples.the_signature p' = true)
  ∧ (∃ buf p',
     @promise.BlameProof_MarshalBinary mod256.suite examples.the_blame = Returned buf
     ∧ promise.BlameProof_UnmarshalBinary
         (promise.BlameProof_UnmarshalInit examples.blank_blame 0%nat) buf
       = Returned p'
     ∧ promise.BlameProof_Equal examples.the_blame p' = true).
Proof.
  destruct (@C9_marshal_unmarshal_round_trip mod256.suite) as (HP & HS & HB).
  split; [|split].
  - exact (HP examples.the_promise examples.blank_promise mod256_Promise_wf).
  - exact (HS examples.the_signature examples.blank_signature mod256_PromiseSignature_wf).
  - exact (HB examples.the_blame examples.blank_blame mod256_BlameProof_wf).
Defined.

(** ** Construction and decoding of a Promise *)

Lemma bind_Returned {A B} (m : result A) (f : A → result B) (b : B) :
  m ≫= f = Returned b ↔ ∃ a, m = Returned a ∧ f a = Returned b.
Proof.
  split.
  - destruct m as [a| |]; cbn; [|discriminate..]. intros Hf. exists a. auto.
  - intros (a & -> & Hf). exact Hf.
Qed.

Lemma Uint32_range (buf : list byte) (off v : Z) :
  Uint32 buf off = Returned v → 0 <= v < 2 ^ 32.
Proof.
  unfold Uint32. intros Hu. apply bind_Returned in Hu as (dst & _ & Hu).
  destruct dst as [|b0 [|b1 [|b2 [|b3 ?]]]]; try discriminate.
  injection Hu as <-.
  pose proof (Z_of_byte_range b0). pose proof (Z_of_byte_range b1).
  pose proof (Z_of_byte_range b2). pose proof (Z_of_byte_range b3). lia.
Qed.

Lemma append_loop_length {A} (body : Z → list A → result (list A)) :
  (∀ i acc acc', body i acc = Returned acc' → length acc' = S (length acc)) →
  ∀ (k : nat) (i : Z) (acc l : list A),
    for_loop k i body acc = Returned l → length l = (length acc + k)%nat.
Proof.
  intros Hbody. induction k as [|k IH]; intros i acc l Hl.
  - injection Hl as <-. lia.
  - rewrite for_loop_S in Hl. apply bind_Returned in Hl as (acc' & Hb & Hl).
    apply IH in Hl. apply Hbody in Hb. lia.
Qed.

Lemma verifyPromise_Returned `{Suite} (p : promise.Promise) :
  promise.verifyPromise p = Returned () ↔
  promise.p_t p <= promise.p_r p <= promise.p_n p
  ∧ len (promise.p_insurers p) = promise.p_n p
  ∧ len (promise.p_secrets p) = promise.p_n p.
Proof.
  unfold promise.verifyPromise.
  destruct (promise.p_n p <? promise.p_t p) eqn:E1;
  destruct (promise.p_r p <? promise.p_t p) eqn:E2;
  destruct (promise.p_n p <? promise.p_r p) eqn:E3; cbn [orb];
  destruct (len (promise.p_insurers p) =? promise.p_n p) eqn:E4;
  destruct (len (promise.p_secrets p) =? promise.p_n p) eqn:E5; cbn [negb orb];
  split; try discriminate; try (intros _; lia); try (intros; lia); reflexivity.
Qed.

Section ConstructAndDecode.
Context `{Suite}.
Import promise.

(** C4, as the code has it.  A Promise that [ConstructPromise] returns, or
    that [UnmarshalBinary] leaves in its receiver when it returns nil,
    satisfies [t <= r <= n] with [n = len(insurers) = len(secrets)]; a
    decoded threshold is moreover not negative.  [UnmarshalBinary] does not
    ask for [1 <= t]. *)
Theorem C4_promise_thresholds_ordered :
  (∀ (secretPair longPair : KeyPair) (t r : Z) (insurers : list Point) (rand : Stream)
     (p : Promise),
     ConstructPromise secretPair longPair t r insurers rand = Returned p →
     p_t p <= p_r p <= p_n p
     ∧ len (p_insurers p) = p_n p ∧ len (p_secrets p) = p_n p)
  ∧ (∀ (p0 : Promise) (buf : list byte) (p : Promise),
     UnmarshalBinary p0 buf = Returned p →
     0 <= p_t p ∧ p_t p <= p_r p <= p_n p
     ∧ len (p_insurers p) = p_n p ∧ len (p_secrets p) = p_n p).
Proof.
  split.
  - intros secretPair longPair t r insurers rand p. unfold ConstructPromise.
    destruct ((t <=? r) && (r <=? len insurers)) eqn:Eg; cbn [negb]; [|discriminate].
    destruct (bool_decide (kp_Suite longPair = kp_Suite secretPair)); cbn [negb];
      [|discriminate].
    intros Hc.
    apply bind_Returned in Hc as (pripoly & _ & Hc).
    apply bind_Returned in Hc as (prishares & _ & Hc).
    apply bind_Returned in Hc as (pubPoly & _ & Hc).
    apply bind_Returned in Hc as (secrets & Hloop & Hc).
    injection Hc as <-. cbn [p_t p_r p_n p_insurers p_secrets].
    apply andb_true_iff in Eg as [Htr Hrn].
    split; [lia|]. split; [reflexivity|].
    unfold for_range in Hloop. apply append_loop_length in Hloop.
    + unfold len in *. simpl in Hloop. lia.
    + intros i acc acc' Hb.
      apply bind_Returned in Hb as (ins & _ & Hb).
      apply bind_Returned in Hb as (dh & _ & Hb).
      apply bind_Returned in Hb as (share & _ & Hb).
      injection Hb as <-. rewrite length_app. simpl. lia.
  - intros p0 buf p. unfold UnmarshalBinary. cbn zeta. intros Hu.
    apply bind_Returned in Hu as (n & Hn & Hu).
    apply bind_Returned in Hu as (t & Ht & Hu).
    apply bind_Returned in Hu as (r & Hr & Hu).
    apply bind_Returned in Hu as (keyBuf & _ & Hu).
    apply bind_Returned in Hu as (pubKey & _ & Hu).
    apply bind_Returned in Hu as (? & _ & Hu).
    apply bind_Returned in Hu as (polyBuf & _ & Hu).
    apply bind_Returned in Hu as (pubPoly & _ & Hu).
    apply bind_Returned in Hu as (insurers & _ & Hu).
    apply bind_Returned in Hu as (secrets & _ & Hu).
    apply bind_Returned in Hu as ([] & Hv & Hu).
    injection Hu as <-. apply verifyPromise_Returned in Hv.
    cbn [p_t p_r p_n p_insurers p_secrets] in *.
    apply Uint32_range in Ht. lia.
Qed.

(** C5, as the code has it.  When [t <= r <= len(insurers)] does not hold,
    [ConstructPromise] panics with the message "Invalid t, r, and n.
    Expected t <= r <= n"; it has no error result and returns nothing. *)
Theorem C5_invalid_parameters_panic :
  ∀ (secretPair longPair : KeyPair) (t r : Z) (insurers : list Point) (rand : Stream),
    ¬ (t <= r <= len insurers) →
    ConstructPromise secretPair longPair t r insurers rand
    = Panicked (PanicMsg "Invalid t, r, and n. Expected t <= r <= n").
Proof.
  intros secretPair longPair t r insurers rand Hbad. unfold ConstructPromise.
  destruct ((t <=? r) && (r <=? len insurers)) eqn:Eg; cbn [negb]; [|reflexivity].
  apply andb_true_iff in Eg as [Htr Hrn]. lia.
Qed.

End ConstructAndDecode.

Lemma C4_promise_thresholds_ordered_witness :
  @promise.ConstructPromise mod256.suite examples.secretPair examples.longPair 2 2
     examples.insurers examples.rand = Returned examples.the_promise
  ∧ promise.p_t examples.the_promise <= promise.p_r examples.the_promise
    <= promise.p_n examples.the_promise
  ∧ @promise.UnmarshalBinary mod256.suite examples.blank_promise zero_threshold.buf
    = Returned zero_threshold.decoded
  ∧ promise.p_t zero_threshold.decoded <= promise.p_r zero_threshold.decoded
    <= promise.p_n zero_threshold.decoded.
Proof.
  destruct (@C4_promise_thresholds_ordered mod256.suite) as [HC HU].
  assert (Hc : @promise.ConstructPromise mod256.suite examples.secretPair
                 examples.longPair 2 2 examples.insurers examples.rand
               = Returned examples.the_promise) by reflexivity.
  assert (Hu : @promise.UnmarshalBinary mod256.suite examples.blank_promise
                 zero_threshold.buf = Returned zero_threshold.decoded)
    by reflexivity.
  split; [exact Hc|]. split; [exact (proj1 (HC _ _ _ _ _ _ _ Hc))|].
  split; [exact Hu|]. exact (proj1 (proj2 (HU _ _ _ Hu))).
Defined.

(** C4, the lower bound [1 <= t] does not hold: the buffer that encodes
    [n = t = r = 0] and one point is accepted, and the decoded threshold is
    zero. *)
Lemma C4_decoded_threshold_zero :
  @promise.UnmarshalBinary mod256.suite examples.blank_promise zero_threshold.buf
  = Returned zero_threshold.decoded
  ∧ ¬ (1 <= promise.p_t zero_threshold.decoded
       ∧ promise.p_t zero_threshold.decoded <= promise.p_r zero_threshold.decoded
         <= promise.p_n zero_threshold.decoded).
Proof. split; [reflexivity|]. cbn. lia. Qed.

Lemma C5_invalid_parameters_panic_witness :
  ¬ (2 <= 1 <= len examples.insurers)
  ∧ @promise.ConstructPromise mod256.suite examples.secretPair examples.longPair 2 1
      examples.insurers examples.rand
    = Panicked (PanicMsg "Invalid t, r, and n. Expected t <= r <= n").
Proof.
  assert (Hbad : ¬ (2 <= 1 <= len examples.insurers)) by lia.
  split; [exact Hbad|].
  exact (@C5_invalid_parameters_panic mod256.suite examples.secretPair examples.longPair
           2 1 examples.insurers examples.rand Hbad).
Defined.

(** C5, no error is returned: with [t = 2 > r = 1] the call panics, and no
    error value reaches the caller. *)
Lemma C5_no_error_returned :
  ¬ (2 <= 1 <= len examples.insurers)
  ∧ ¬ (∃ e, @promise.ConstructPromise mod256.suite examples.secretPair examples.longPair
              2 1 examples.insurers examples.rand = Failed e).
Proof.
  split; [lia|]. intros [e He].
  assert (Hp : @promise.ConstructPromise mod256.suite examples.secretPair
                 examples.longPair 2 1 examples.insurers examples.rand
               = Panicked (PanicMsg "Invalid t, r, and n. Expected t <= r <= n"))
    by reflexivity.
  rewrite Hp in He. discriminate.
Qed.

(** ** Verification of shares *)

Lemma range_guard (i n : Z) : (i <? 0) || (n <=? i) = false ↔ 0 <= i < n.
Proof. rewrite orb_false_iff, Z.ltb_ge, Z.leb_gt. lia. Qed.

Lemma range_guard_true (i n : Z) : (i <? 0) || (n <=? i) = true ↔ ¬ (0 <= i < n).
Proof. rewrite orb_true_iff, Z.ltb_lt, Z.leb_le. lia. Qed.

Lemma index_cases {A} (l : list A) (i : Z) :
  0 <= i →
  (∃ x, index l i = Returned x ∧ l !! Z.to_nat i = Some x)
  ∨ (index l i = Panicked IndexOutOfRange ∧ l !! Z.to_nat i = None).
Proof.
  intros Hi. destruct (l !! Z.to_nat i) as [x|] eqn:El.
  - left. exists x. split; [|reflexivity]. apply index_Returned. auto.
  - right. split; [|reflexivity]. apply index_out_of_range.
    apply lookup_ge_None in El. unfold len. lia.
Qed.

Section ShareVerification.
Context `{Suite}.
Import promise.

Lemma decrypt_Some (p : Promise) (i : Z) (dh : Point) (share : Secret) :
  decrypt p i dh = Some share ↔
  ∃ mask sec, diffieHellmanSecret (p_suite p) dh = Returned mask
              ∧ p_secrets p !! Z.to_nat i = Some sec
              ∧ share = Secret_Sub (p_suite p) sec mask.
Proof.
  unfold decrypt. split.
  - destruct (diffieHellmanSecret _ _) as [mask| |]; [|discriminate..].
    destruct (_ !! _) as [sec|]; [|discriminate].
    intros [= <-]. eauto.
  - intros (mask & sec & -> & -> & ->). reflexivity.
Qed.

Lemma VerifyShare_Returned (p : Promise) (i : Z) (kp : KeyPair) :
  VerifyShare p i kp = Returned () ↔
  0 <= i < p_n p
  ∧ p_insurers p !! Z.to_nat i = Some (kp_Public kp)
  ∧ ∃ share,
      decrypt p i (Point_Mul (p_suite p) (Some (p_pubKey p)) (kp_Secret kp)) = Some share
      ∧ passes_check p i share = true.
Proof.
  unfold VerifyShare, passes_check.
  destruct ((i <? 0) || (p_n p <=? i)) eqn:Eg.
  - apply range_guard_true in Eg. split; [discriminate|]. intros [Hi _]. lia.
  - apply range_guard in Eg.
    destruct (index_cases (p_insurers p) i ltac:(lia)) as [(ins & -> & Hins)|[-> Hins]];
      cbn [mbind result_bind].
    2:{ split; [discriminate|]. intros (_ & Hl & _). congruence. }
    rewrite Hins. destruct (decide (ins = kp_Public kp)) as [->|Hne].
    2:{ rewrite bool_decide_eq_false_2 by exact Hne. cbn [negb].
        split; [discriminate|]. intros (_ & [= Hl] & _). contradiction. }
    rewrite bool_decide_eq_true_2 by reflexivity. cbn [negb].
    set (dh := Point_Mul _ _ _).
    split.
    + intros Hv. apply bind_Returned in Hv as (mask & Hmask & Hv).
      apply bind_Returned in Hv as (sec & Hsec & Hv).
      apply index_Returned in Hsec as [_ Hsec].
      destruct (PubPoly_Check _ _ _ _) eqn:Ec; [|discriminate].
      split; [exact Eg|]. split; [reflexivity|].
      exists (Secret_Sub (p_suite p) sec mask). split; [|exact Ec].
      apply decrypt_Some. eauto.
    + intros (_ & _ & share & Hd & Hc).
      apply decrypt_Some in Hd as (mask & sec & -> & Hsec & ->).
      cbn [mbind result_bind].
      rewrite (proj2 (index_Returned _ _ _) (conj (proj1 Eg) Hsec)).
      cbn [mbind result_bind]. rewrite Hc. reflexivity.
Qed.

Lemma encrypt_loop (s : SuiteT) (long : Secret) (insurers : list Point)
    (prishares : list Secret) (m : nat) :
  ∀ (j : nat) (acc l : list Secret),
    length acc = j →
    for_loop m (Z.of_nat j)
      (λ i secrets,
         ins ← index insurers i;
         let diffieBase := Point_Mul s (Some ins) long in
         diffieSecret ← diffieHellmanSecret s diffieBase;
         share ← index prishares i;
         Returned (secrets ++ [Secret_Add s share diffieSecret])) acc
    = Returned l →
    ∀ (i : nat) (sec : Secret), l !! i = Some sec →
      (i < j)%nat ∧ acc !! i = Some sec
      ∨ (j <= i)%nat ∧ encrypted_slot s long insurers prishares i sec.
Proof.
  induction m as [|m IH]; intros j acc l Hacc Hl i sec Hi.
  - injection Hl as <-. left. split; [|exact Hi].
    apply lookup_lt_Some in Hi. lia.
  - rewrite for_loop_S in Hl. apply bind_Returned in Hl as (acc' & Hb & Hl).
    apply bind_Returned in Hb as (ins & Hins & Hb). cbn zeta in Hb.
    apply bind_Returned in Hb as (mask & Hmask & Hb).
    apply bind_Returned in Hb as (share & Hshare & Hb).
    injection Hb as <-.
    apply index_Returned in Hins as [_ Hins]. apply index_Returned in Hshare as [_ Hshare].
    rewrite Nat2Z.id in Hins, Hshare.
    replace (Z.of_nat j + 1) with (Z.of_nat (S j)) in Hl by lia.
    assert (Hacc' : length (acc ++ [Secret_Add s share mask]) = S j)
      by (rewrite length_app; simpl; lia).
    destruct (IH (S j) _ l Hacc' Hl i sec Hi) as [[Hlt Ha]|[Hge He]].
    + destruct (decide (i = j)) as [->|Hne].
      * right. split; [lia|].
        rewrite lookup_app_r, Hacc, Nat.sub_diag in Ha by lia.
        injection Ha as <-. exists ins, mask, share. auto.
      * left. split; [lia|]. rewrite lookup_app_l in Ha by lia. exact Ha.
    + right. split; [lia|exact He].
Qed.

Lemma encrypt_loop_length (s : SuiteT) (long : Secret) (insurers : list Point)
    (prishares : list Secret) (m : nat) (i : Z) (acc l : list Secret) :
  for_loop m i
    (λ i secrets,
       ins ← index insurers i;
       let diffieBase := Point_Mul s (Some ins) long in
       diffieSecret ← diffieHellmanSecret s diffieBase;
       share ← index prishares i;
       Returned (secrets ++ [Secret_Add s share diffieSecret])) acc
  = Returned l →
  length l = (length acc + m)%nat.
Proof.
  apply append_loop_length. intros i' a a' Hb.
  apply bind_Returned in Hb as (? & _ & Hb). cbn zeta in Hb.
  apply bind_Returned in Hb as (? & _ & Hb).
  apply bind_Returned in Hb as (? & _ & Hb).
  injection Hb as <-. rewrite length_app. simpl. lia.
Qed.

(** C6.  [VerifyShare(i, kp)] returns nil exactly when [i] is in range,
    [insurers[i]] is the public key of [kp], and [secrets[i]] minus the
    hash-to-scalar of the Diffie-Hellman point [pubKey * kp.Secret] passes
    the public-polynomial check at [i].  On a promise that [ConstructPromise]
    returned for an honest promiser, in a suite with the laws of
    [suite_laws], every insurer whose key sits at index [i] gets nil. *)
Theorem C6_VerifyShare_accepts_honest_shares :
  (∀ (p : Promise) (i : Z) (kp : KeyPair),
     VerifyShare p i kp = Returned () ↔
     0 <= i < p_n p
     ∧ p_insurers p !! Z.to_nat i = Some (kp_Public kp)
     ∧ ∃ share,
         decrypt p i (Point_Mul (p_suite p) (Some (p_pubKey p)) (kp_Secret kp)) = Some share
         ∧ passes_check p i share = true)
  ∧ (∀ (secretPair longPair : KeyPair) (t r : Z) (insurers : list Point) (rand : Stream)
       (p : Promise),
     suite_laws (kp_Suite secretPair) →
     honest_key (kp_Suite secretPair) longPair →
     ConstructPromise secretPair longPair t r insurers rand = Returned p →
     ∀ (i : Z) (kp : KeyPair),
       0 <= i < p_n p →
       insurers !! Z.to_nat i = Some (kp_Public kp) →
       honest_key (kp_Suite secretPair) kp →
       VerifyShare p i kp = Returned ()).
Proof.
  split; [exact VerifyShare_Returned|].
  intros secretPair longPair t r insurers rand p Hlaws Hlong Hc i kp Hi Hins Hkp.
  unfold ConstructPromise in Hc.
  destruct ((t <=? r) && (r <=? len insurers)); cbn [negb] in Hc; [|discriminate].
  destruct (bool_decide (kp_Suite longPair = kp_Suite secretPair));
    cbn [negb] in Hc; [|discriminate].
  apply bind_Returned in Hc as (pripoly & Hpick & Hc).
  apply bind_Returned in Hc as (prishares & Hsplit & Hc).
  apply bind_Returned in Hc as (pubPoly & Hcommit & Hc).
  apply bind_Returned in Hc as (secrets & Hloop & Hc).
  injection Hc as <-. cbn [p_n] in Hi.
  set (s := kp_Suite secretPair) in *.
  apply VerifyShare_Returned. cbn [p_n p_insurers p_suite p_pubKey].
  split; [exact Hi|]. split; [exact Hins|].
  unfold for_range in Hloop.
  pose proof (encrypt_loop_length _ _ _ _ _ _ _ _ Hloop) as Hlen.
  simpl in Hlen.
  destruct (lookup_lt_is_Some_2 secrets (Z.to_nat i)) as [sec Hsec];
    [unfold len in *; lia|].
  destruct (encrypt_loop s (kp_Secret longPair) insurers prishares _ 0 [] secrets
              eq_refl Hloop _ _ Hsec) as [[Hlt _]|[_ (ins & mask & share & Hi' & Hmask & Hsh & ->)]];
    [lia|].
  rewrite Hins in Hi'. injection Hi' as <-.
  exists share. split.
  - apply decrypt_Some. exists mask, (Secret_Add s share mask).
    cbn [p_suite p_secrets]. split; [|split].
    + rewrite Hlong, Hkp in *. rewrite (dh_agree s Hlaws). exact Hmask.
    + exact Hsec.
    + symmetry. apply (add_sub s Hlaws).
  - unfold passes_check. cbn [p_suite p_pubPoly].
    rewrite <- (Z2Nat.id i) by lia.
    exact (shares_check s Hlaws _ _ _ _ _ _ _ _ _ Hpick Hsplit Hcommit Hsh).
Qed.

End ShareVerification.

(** ** The small suite obeys the laws of an honest run *)

Section Mod256.
Import mod256.

Lemma byte_ext (a b : byte) : Z_of_byte a = Z_of_byte b → a = b.
Proof.
  intros E. rewrite <- (byte_of_Z_of_byte a), <- (byte_of_Z_of_byte b), E. reflexivity.
Qed.

Lemma bmul_bmul_swap (c x y : byte) : bmul (bmul c x) y = bmul (bmul c y) x.
Proof.
  apply byte_ext. unfold bmul. rewrite !Z_of_byte_of_Z.
  rewrite !Z.mul_mod_idemp_l by lia. f_equal. ring.
Qed.

Lemma bsub_badd (a b : byte) : bsub (badd a b) b = a.
Proof.
  apply byte_ext. unfold bsub, badd. rewrite !Z_of_byte_of_Z.
  rewrite Zminus_mod_idemp_l.
  replace (Z_of_byte a + Z_of_byte b - Z_of_byte b) with (Z_of_byte a) by ring.
  apply Z.mod_small. apply Z_of_byte_range.
Qed.

Lemma bmul_horner_step (c a x h : byte) :
  bmul c (badd a (bmul x h)) = badd (bmul c a) (bmul x (bmul c h)).
Proof.
  apply byte_ext. unfold bmul, badd. rewrite !Z_of_byte_of_Z.
  set (C := Z_of_byte c). set (A := Z_of_byte a).
  set (X := Z_of_byte x). set (Hh := Z_of_byte h).
  rewrite Z.mul_mod_idemp_r by lia.
  rewrite (Z.mul_mod_idemp_r X) by lia.
  rewrite <- Z.add_mod by lia.
  replace (C * (A + (X * Hh) mod 256)) with (C * A + C * ((X * Hh) mod 256)) by ring.
  rewrite <- Z.add_mod_idemp_r by lia.
  rewrite Z.mul_mod_idemp_r by lia.
  rewrite Z.add_mod_idemp_r by lia. f_equal. ring.
Qed.

Lemma bmul_horner (c x : byte) (poly : list byte) :
  bmul c (horner poly x) = horner (bmul c <$> poly) x.
Proof.
  induction poly as [|a cs IH].
  - apply byte_ext. unfold bmul. rewrite Z_of_byte_of_Z. simpl horner.
    change (Z_of_byte x00) with 0. rewrite Z.mul_0_r. reflexivity.
  - rewrite fmap_cons. cbn [horner]. rewrite <- IH. apply bmul_horner_step.
Qed.

Lemma mod256_suite_laws : @suite_laws mod256.suite 0%nat.
Proof.
  split.
  - intros x y. cbn. apply bmul_bmul_swap.
  - intros a b. cbn. apply bsub_badd.
  - intros k s0 rand poly n shares pub i sh _ Hsplit Hcommit Hsh.
    cbn in Hsplit, Hcommit |- *. unfold split, commit in *.
    apply bind_Returned in Hsplit as (z & Hmake & Hsplit).
    injection Hsplit as <-. injection Hcommit as <-.
    rewrite list_lookup_fmap in Hsh.
    destruct (seqZ 0 n !! i) as [v|] eqn:Ev; [|discriminate].
    injection Hsh as <-. apply lookup_seqZ in Ev as [-> _].
    unfold pubcheck, eval. apply bool_decide_eq_true.
    rewrite Z.add_0_l. apply bmul_horner.
Qed.

End Mod256.

Lemma C6_VerifyShare_accepts_honest_shares_witness :
  @promise.VerifyShare mod256.suite examples.the_promise 1 (examples.key x09) = Returned ().
Proof.
  destruct (@C6_VerifyShare_accepts_honest_shares mod256.suite) as [_ Hhonest].
  apply (Hhonest examples.secretPair examples.longPair 2 2 examples.insurers examples.rand
           examples.the_promise mod256_suite_laws).
  - reflexivity.
  - reflexivity.
  - cbn. lia.
  - reflexivity.
  - reflexivity.
Defined.

(** ** Blame and reveal *)

Section BlameAndReveal.
Context `{Suite}.
Import promise.

Lemma diffieHellmanSecret_not_Failed (s : SuiteT) (P : Point) (e : error) :
  diffieHellmanSecret s P ≠ Failed e.
Proof. unfold diffieHellmanSecret. destruct (Point_MarshalBinary P); discriminate. Qed.

(** C8.  For an index in range and a blame proof whose author signature
    verifies against [insurers[i]] over [sigBlameMsg] and whose proof
    verifies for [diffieKey] against [pubKey]: [VerifyBlame] returns the
    error "Unjustified blame" exactly when [secrets[i]] minus the
    hash-to-scalar of [diffieKey] passes the public-polynomial check at
    [i], and returns nil exactly when that share fails the check. *)
Theorem C8_VerifyBlame_verdict :
  ∀ (p : Promise) (i : Z) (bp : BlameProof),
    0 <= i < p_n p →
    verifySignature p i (bp_signature bp) sigBlameMsg = Returned () →
    proof_HashVerify (p_suite p) protocolName (bp_diffieKey bp) (p_pubKey p)
      (bytes_of (bp_diffieKeyProof bp)) = None →
    (VerifyBlame p i bp = Failed (errors_New "Unjustified blame. The share checks out okay.")
     ↔ ∃ share, decrypt p i (bp_diffieKey bp) = Some share
                ∧ passes_check p i share = true)
    ∧ (VerifyBlame p i bp = Returned ()
       ↔ ∃ share, decrypt p i (bp_diffieKey bp) = Some share
                  ∧ passes_check p i share = false).
Proof.
  intros p i bp Hi Hsig Hprf. unfold VerifyBlame, passes_check.
  rewrite (proj2 (range_guard i (p_n p)) Hi), Hsig, Hprf.
  cbn [mbind result_bind check].
  unfold decrypt.
  destruct (diffieHellmanSecret (p_suite p) (bp_diffieKey bp)) as [mask|e|q] eqn:Ed;
    cbn [mbind result_bind].
  2:{ exfalso. exact (diffieHellmanSecret_not_Failed _ _ _ Ed). }
  2:{ split; (split; [discriminate|intros (? & [=] & _)]). }
  destruct (index_cases (p_secrets p) i ltac:(lia)) as [(sec & -> & ->)|[-> ->]];
    cbn [mbind result_bind].
  2:{ split; (split; [discriminate|intros (? & [=] & _)]). }
  destruct (PubPoly_Check _ _ _ (Secret_Sub (p_suite p) sec mask)) eqn:Ec.
  - split; split.
    + intros _. exists (Secret_Sub (p_suite p) sec mask). auto.
    + intros _. reflexivity.
    + discriminate.
    + intros (share & [= <-] & Hc). congruence.
  - split; split.
    + discriminate.
    + intros (share & [= <-] & Hc). congruence.
    + intros _. exists (Secret_Sub (p_suite p) sec mask). auto.
    + intros _. reflexivity.
Qed.

(** C10.  [RevealShare] reads [secrets[i]] with no check of [i]: on a
    promise whose [secrets] has [n] entries, an index outside [0 <= i < n]
    makes it panic (with an index out of range once the Diffie-Hellman mask
    is computed), where [VerifyShare] and [VerifyRevealedShare] return the
    error "Invalid index"; for an index in range it returns [secrets[i]]
    minus the mask. *)
Theorem C10_RevealShare_unchecked_index :
  ∀ (p : Promise) (i : Z) (kp : KeyPair),
    len (p_secrets p) = p_n p →
    let dh := Point_Mul (p_suite p) (Some (p_pubKey p)) (kp_Secret kp) in
    (¬ (0 <= i < p_n p) →
       (∃ q, RevealShare p i kp = Panicked q)
       ∧ (∀ mask, diffieHellmanSecret (p_suite p) dh = Returned mask →
                  RevealShare p i kp = Panicked IndexOutOfRange)
       ∧ VerifyShare p i kp = Failed (errors_New "Invalid index. Expected 0 <= i < n")
       ∧ ∀ share, VerifyRevealedShare p i share
                  = Failed (errors_New "Invalid index. Expected 0 <= i < n"))
    ∧ (0 <= i < p_n p →
       ∀ mask, diffieHellmanSecret (p_suite p) dh = Returned mask →
         ∃ sec, p_secrets p !! Z.to_nat i = Some sec
                ∧ RevealShare p i kp = Returned (Secret_Sub (p_suite p) sec mask)).
Proof.
  intros p i kp Hlen dh. split.
  - intros Hout.
    assert (Hidx : index (p_secrets p) i = Panicked IndexOutOfRange)
      by (apply index_out_of_range; lia).
    unfold RevealShare, VerifyShare, VerifyRevealedShare. fold dh.
    rewrite (proj2 (range_guard_true i (p_n p)) Hout), Hidx.
    split; [|split; [|split; [reflexivity|intros; reflexivity]]].
    + destruct (diffieHellmanSecret (p_suite p) dh) as [mask|e|q] eqn:Ed;
        cbn [mbind result_bind]; eauto.
      exfalso. exact (diffieHellmanSecret_not_Failed _ _ _ Ed).
    + intros mask ->. reflexivity.
  - intros Hin mask Hmask.
    destruct (index_in_range (p_secrets p) i ltac:(lia)) as (sec & Hidx & Hsec).
    exists sec. split; [exact Hsec|].
    unfold RevealShare. fold dh. rewrite Hmask, Hidx. reflexivity.
Qed.

End BlameAndReveal.

Lemma C8_VerifyBlame_verdict_witness :
  @promise.VerifyBlame mod256.suite examples.the_promise 0 examples.the_blame
  = Failed (errors_New "Unjustified blame. The share checks out okay.")
  ↔ ∃ share, decrypt examples.the_promise 0 (promise.bp_diffieKey examples.the_blame)
             = Some share
             ∧ passes_check examples.the_promise 0 share = true.
Proof.
  apply (@C8_VerifyBlame_verdict mod256.suite examples.the_promise 0 examples.the_blame).
  - cbn. lia.
  - reflexivity.
  - reflexivity.
Defined.

Lemma C10_RevealShare_unchecked_index_witness :
  @promise.RevealShare mod256.suite examples.the_promise 3 (examples.key x09)
  = Panicked IndexOutOfRange
  ∧ @promise.VerifyShare mod256.suite examples.the_promise 3 (examples.key x09)
    = Failed (errors_New "Invalid index. Expected 0 <= i < n").
Proof.
  destruct (@C10_RevealShare_unchecked_index mod256.suite examples.the_promise 3
              (examples.key x09) eq_refl) as [Hout _].
  destruct (Hout ltac:(cbn; lia)) as (_ & Hpanic & Hverify & _).
  split; [|exact Hverify].
  apply (Hpanic (mod256.pick1 [mod256.bmul x21 x09])). reflexivity.
Defined.

(** ** Certification of a Promise *)

Section CertifiedPromise.
Context `{Suite}.
Import promise.

Lemma verifySignature_no_panic (p : Promise) (i : Z) (sig : PromiseSignature)
    (msg : list byte) (q : panic) :
  len (p_insurers p) = p_n p → verifySignature p i sig msg ≠ Panicked q.
Proof.
  intros Hlen. unfold verifySignature.
  destruct ((i <? 0) || (p_n p <=? i)) eqn:Eg; [discriminate|].
  apply range_guard in Eg.
  destruct (sig_signature sig) as [signature|]; [|discriminate].
  destruct (index_in_range (p_insurers p) i ltac:(lia)) as (ins & -> & _).
  cbn [mbind result_bind]. destruct (anon_Verify _ _ _ _); discriminate.
Qed.

Lemma VerifyBlame_no_panic (p : Promise) (i : Z) (bl : BlameProof) (q : panic) :
  marshal_total → len (p_insurers p) = p_n p → len (p_secrets p) = p_n p →
  VerifyBlame p i bl ≠ Panicked q.
Proof.
  intros Hm Hli Hls. unfold VerifyBlame.
  destruct ((i <? 0) || (p_n p <=? i)) eqn:Eg; [discriminate|].
  apply range_guard in Eg.
  destruct (verifySignature p i (bp_signature bl) sigBlameMsg) as [[]|e|q'] eqn:Es;
    cbn [mbind result_bind]; [|discriminate|].
  2:{ exfalso. exact (verifySignature_no_panic _ _ _ _ _ Hli Es). }
  destruct (proof_HashVerify _ _ _ _ _); cbn [check mbind result_bind]; [discriminate|].
  unfold diffieHellmanSecret. destruct (Hm (bp_diffieKey bl)) as [b ->].
  cbn [mbind result_bind].
  destruct (index_in_range (p_secrets p) i ltac:(lia)) as (sec & -> & _).
  cbn [mbind result_bind]. destruct (PubPoly_Check _ _ _ _); discriminate.
Qed.

Lemma valid_signatures_in_S (ps : PromiseState) (j k : nat) :
  valid_signatures_in ps j (S k)
  = Z.b2z (valid_signature ps j) + valid_signatures_in ps (S j) k.
Proof.
  unfold valid_signatures_in. simpl seq. rewrite filter_cons.
  destruct (decide (valid_signature ps j = true)) as [Hv|Hv].
  - rewrite Hv. simpl. lia.
  - apply not_true_is_false in Hv. rewrite Hv. simpl. lia.
Qed.

Section Loop.
Variable ps : PromiseState.
Hypothesis Hmarshal : marshal_total.
Hypothesis Hinsurers : len (p_insurers (ps_Promise ps)) = p_n (ps_Promise ps).
Hypothesis Hsecrets : len (p_secrets (ps_Promise ps)) = p_n (ps_Promise ps).
Hypothesis Hsignatures : len (ps_signatures ps) = p_n (ps_Promise ps).
Hypothesis Hblames : len (ps_blames ps) = p_n (ps_Promise ps).

(** One turn either meets a valid blame and fails, or counts the signature
    of its slot. *)
Lemma PromiseCertified_body_step (j : nat) (acc : Z) :
  Z.of_nat j < p_n (ps_Promise ps) →
  (valid_blame ps j
   ∧ PromiseCertified_body ps (Z.of_nat j) acc
     = Failed (errors_New "A valid blame proofs proves this Promise to be uncertified."))
  ∨ (¬ valid_blame ps j
     ∧ PromiseCertified_body ps (Z.of_nat j) acc
       = Returned (acc + Z.b2z (valid_signature ps j))).
Proof.
  intros Hj. unfold PromiseCertified_body, valid_blame, valid_signature.
  destruct (index_in_range (ps_signatures ps) (Z.of_nat j) ltac:(lia)) as (sig & -> & Hs).
  destruct (index_in_range (ps_blames ps) (Z.of_nat j) ltac:(lia)) as (bl & Hbi & Hb).
  rewrite Nat2Z.id in Hs, Hb. rewrite Hs, Hb. cbn [mbind result_bind].
  assert (Hsig : (match sig with
                  | Some sig0 =>
                      ok ← is_nil (VerifySignature (ps_Promise ps) (Z.of_nat j) sig0);
                      Returned (if ok : bool then acc + 1 else acc)
                  | None => Returned acc
                  end)
                 = Returned (acc + Z.b2z (match sig with
                                          | Some sig0 =>
                                              bool_decide (VerifySignature (ps_Promise ps)
                                                             (Z.of_nat j) sig0 = Returned ())
                                          | None => false
                                          end))).
  { destruct sig as [sig|]; [|simpl; f_equal; lia].
    destruct (VerifySignature (ps_Promise ps) (Z.of_nat j) sig) as [[]|e|q] eqn:Ev.
    - rewrite bool_decide_eq_true_2 by reflexivity. reflexivity.
    - rewrite bool_decide_eq_false_2 by discriminate. simpl. f_equal. lia.
    - exfalso. exact (verifySignature_no_panic _ _ _ _ _ Hinsurers Ev). }
  rewrite Hsig. cbn [mbind result_bind]. rewrite Hbi. cbn [mbind result_bind].
  destruct bl as [bl|].
  - destruct (VerifyBlame (ps_Promise ps) (Z.of_nat j) bl) as [[]|e|q] eqn:Ev.
    + left. split; [eauto|reflexivity].
    + right. split; [|reflexivity]. intros (bl' & [= <-] & Hv). congruence.
    + exfalso. exact (VerifyBlame_no_panic _ _ _ _ Hmarshal Hinsurers Hsecrets Ev).
  - right. split; [|reflexivity]. intros (bl' & [=] & _).
Qed.

Lemma PromiseCertified_loop (k : nat) :
  ∀ (j : nat) (acc : Z),
    Z.of_nat (j + k) = p_n (ps_Promise ps) →
    ((∃ i, (j <= i)%nat ∧ valid_blame ps i)
     ∧ ∃ e, for_loop k (Z.of_nat j) (PromiseCertified_body ps) acc = Failed e)
    ∨ ((∀ i, (j <= i)%nat → ¬ valid_blame ps i)
       ∧ for_loop k (Z.of_nat j) (PromiseCertified_body ps) acc
         = Returned (acc + valid_signatures_in ps j k)).
Proof.
  induction k as [|k IH]; intros j acc Hjk.
  - right. split.
    + intros i Hi (bl & Hbl & _). apply lookup_lt_Some in Hbl. unfold len in *. lia.
    + simpl. unfold valid_signatures_in. simpl. f_equal. lia.
  - rewrite for_loop_S.
    destruct (PromiseCertified_body_step j acc ltac:(lia)) as [[Hv ->]|[Hv ->]];
      cbn [mbind result_bind].
    + left. split; [exists j; split; [lia|exact Hv]|eauto].
    + replace (Z.of_nat j + 1) with (Z.of_nat (S j)) by lia.
      destruct (IH (S j) (acc + Z.b2z (valid_signature ps j)) ltac:(lia))
        as [[(i & Hi & Hvi) He]|[Hnone ->]].
      * left. split; [exists i; split; [lia|exact Hvi]|exact He].
      * right. split.
        -- intros i Hi. destruct (decide (i = j)) as [->|Hne]; [exact Hv|].
           apply Hnone. lia.
        -- rewrite valid_signatures_in_S. f_equal. lia.
Qed.

End Loop.

(** C2.  On a state over a well-formed Promise, with one signature slot and
    one blame slot per insurer: [PromiseCertified] returns an error whenever
    some slot [j] holds a blame proof that passes [VerifyBlame]; when no
    slot does, it returns nil exactly when at least [r] slots hold a
    signature that passes [VerifySignature]. *)
Theorem C2_PromiseCertified_verdict :
  ∀ ps : PromiseState,
    marshal_total →
    verifyPromise (ps_Promise ps) = Returned () →
    len (ps_signatures ps) = p_n (ps_Promise ps) →
    len (ps_blames ps) = p_n (ps_Promise ps) →
    ((∃ j, valid_blame ps j) → ∃ e, PromiseCertified ps = Failed e)
    ∧ (¬ (∃ j, valid_blame ps j) →
       (PromiseCertified ps = Returned () ↔ p_r (ps_Promise ps) <= valid_signatures ps)).
Proof.
  intros ps Hm Hwf Hsigs Hblames.
  pose proof (proj1 (verifyPromise_Returned _) Hwf) as (Htrn & Hli & Hls).
  unfold PromiseCertified, for_range. rewrite Hwf. cbn [mbind result_bind].
  rewrite Z.sub_0_r.
  pose proof (len_nonneg (ps_signatures ps)) as Hn.
  destruct (PromiseCertified_loop ps Hm Hli Hls Hsigs Hblames
              (Z.to_nat (p_n (ps_Promise ps))) 0 0 ltac:(lia))
    as [[Hsome [e He]]|[Hnone Hloop]].
  - change (Z.of_nat 0) with 0 in He. rewrite He. cbn [mbind result_bind]. split.
    + eauto.
    + intros Hno. exfalso. apply Hno. destruct Hsome as (i & _ & Hi). eauto.
  - change (Z.of_nat 0) with 0 in Hloop. rewrite Hloop. cbn [mbind result_bind]. split.
    + intros (j & Hj). exfalso. exact (Hnone j ltac:(lia) Hj).
    + intros _. unfold valid_signatures.
      replace (length (ps_signatures ps)) with (Z.to_nat (p_n (ps_Promise ps)))
        by (unfold len in *; lia).
      rewrite Z.add_0_l.
      destruct (_ <? p_r (ps_Promise ps)) eqn:E.
      * split; [discriminate|]. lia.
      * split; [lia|reflexivity].
Qed.

End CertifiedPromise.

Lemma mod256_marshal_total : @marshal_total mod256.suite.
Proof. intros P. exists [P]. reflexivity. Qed.

Lemma mod256_no_valid_blame : ¬ (∃ j, @valid_blame mod256.suite examples.the_state j).
Proof.
  intros (j & bl & Hbl & Hv).
  destruct j as [|[|[|j]]]; simpl in Hbl; try discriminate.
  injection Hbl as <-.
  assert (Hf : @promise.VerifyBlame mod256.suite examples.the_promise 0 examples.the_blame
               = Failed (errors_New "Unjustified blame. The share checks out okay."))
    by reflexivity.
  change (promise.ps_Promise examples.the_state) with examples.the_promise in Hv.
  change (Z.of_nat 0) with 0 in Hv. rewrite Hf in Hv. discriminate.
Qed.

Lemma C2_PromiseCertified_verdict_witness :
  @promise.PromiseCertified mod256.suite examples.the_state = Returned ()
  ↔ promise.p_r (promise.ps_Promise examples.the_state)
    <= valid_signatures examples.the_state.
Proof.
  apply (@C2_PromiseCertified_verdict mod256.suite examples.the_state).
  - exact mod256_marshal_total.
  - reflexivity.
  - reflexivity.
  - reflexivity.
  - exact mod256_no_valid_blame.
Defined.

(** ** Certification of a deal *)

Section DealCertification.
Context `{Suite}.
Import vss.

Lemma responses_with_empty (st : byte) : responses_with st ∅ = 0.
Proof. unfold responses_with. rewrite map_filter_empty, map_size_empty. reflexivity. Qed.

Lemma responses_with_insert (st : byte) (m : gmap N Response) (k : N) (r : Response) :
  m !! k = None →
  responses_with st (<[k := r]> m)
  = responses_with st m + Z.b2z (bool_decide (r_Status r = st)).
Proof.
  intros Hk. unfold responses_with. rewrite map_filter_insert. simpl.
  destruct (decide (r_Status r = st)) as [Hst|Hst].
  - rewrite bool_decide_eq_true_2 by exact Hst.
    rewrite map_size_insert_None by (apply map_lookup_filter_None_2; auto).
    simpl. lia.
  - rewrite bool_decide_eq_false_2 by exact Hst.
    rewrite delete_id by exact Hk. simpl. lia.
Qed.

Lemma count_status_insert (st : byte) (m : gmap N Response) (k : N) (r : Response) :
  m !! k = None →
  count_status st (<[k := r]> m)
  = count_status st m + Z.b2z (bool_decide (r_Status r = st)).
Proof.
  intros Hk. unfold count_status. rewrite map_fold_insert_L.
  - destruct (bool_decide (r_Status r = st)); simpl; lia.
  - intros j1 j2 z1 z2 y _ _ _.
    destruct (bool_decide (r_Status z1 = st)), (bool_decide (r_Status z2 = st)); lia.
  - exact Hk.
Qed.

(** The loop over the map counts what the specification counts. *)
Lemma count_status_responses_with (st : byte) (m : gmap N Response) :
  count_status st m = responses_with st m.
Proof.
  induction m as [|k r m Hk IH] using map_ind.
  - rewrite responses_with_empty. reflexivity.
  - rewrite count_status_insert, responses_with_insert, IH by exact Hk. reflexivity.
Qed.

(** Replacing a stored response: its old status stops counting, its new
    status counts. *)
Lemma responses_with_replace (st : byte) (m : gmap N Response) (k : N) (r r' : Response) :
  m !! k = Some r →
  responses_with st (<[k := r']> m)
  = responses_with st m - Z.b2z (bool_decide (r_Status r = st))
    + Z.b2z (bool_decide (r_Status r' = st)).
Proof.
  intros Hk.
  rewrite <- (insert_delete_eq m k r').
  rewrite <- (insert_delete_id m k r Hk) at 2.
  rewrite !responses_with_insert by apply lookup_delete_eq. lia.
Qed.

Lemma after_binding_frame (a : aggregator) (d : Deal) :
  a_responses (after_binding a d) = a_responses a
  ∧ a_t (after_binding a d) = a_t a
  ∧ a_badDealer (after_binding a d) = a_badDealer a
  ∧ a_verifiers (after_binding a d) = a_verifiers a
  ∧ a_suite (after_binding a d) = a_suite a
  ∧ a_dealer (after_binding a d) = a_dealer a.
Proof. unfold after_binding. destruct (a_deal a); cbn; auto 10. Qed.

Lemma after_binding_bound (a : aggregator) (d : Deal) :
  is_Some (a_deal a) → after_binding a d = a.
Proof. intros [d0 Hd]. unfold after_binding. rewrite Hd. reflexivity. Qed.

(** Whatever [VerifyDeal] answers, it leaves the aggregator with the deal
    bound and nothing else touched. *)
Lemma VerifyDeal_state (d : Deal) (inclusion : bool) (a : aggregator) :
  (VerifyDeal d inclusion a).2 = after_binding a d.
Proof.
  unfold VerifyDeal, after_binding.
  destruct (a_deal a) as [d0|] eqn:Ed.
  - rewrite (bool_decide_eq_false_2 (Some d0 = None)) by discriminate.
    destruct (bool_decide (is_Some (Some d0)) && inclusion); reflexivity.
  - rewrite (bool_decide_eq_false_2 (is_Some None)) by (intros [? [=]]).
    rewrite (bool_decide_eq_true_2 (None = None)) by reflexivity. reflexivity.
Qed.

Lemma VerifyDeal_accepts (d : Deal) (inclusion : bool) (a : aggregator) :
  ¬ (is_Some (a_deal a) ∧ inclusion = true) →
  validT (Z.of_N (d_T d)) (a_verifiers a) = true →
  a_sid (after_binding a d) = d_SessionID d →
  sign_VerifySchnorr (a_suite a) (a_dealer a) (msgDeal d) (d_Signature d) = None →
  I (d_SecShare d) = I (d_RndShare d) →
  0 <= I (d_SecShare d) < len (a_verifiers a) →
  share_opens (a_suite a) (a_verifiers a) d →
  VerifyDeal d inclusion a = (Returned (), after_binding a d).
Proof.
  intros Hincl Ht Hsid Hsig HI Hrange Hopen.
  pose proof (after_binding_frame a d) as (_ & _ & _ & Hv & Hs & Hd).
  unfold VerifyDeal.
  assert (Hg : bool_decide (is_Some (a_deal a)) && inclusion = false).
  { destruct (bool_decide (is_Some (a_deal a))) eqn:E; [|reflexivity].
    apply bool_decide_eq_true in E. destruct inclusion; [|reflexivity].
    exfalso. auto. }
  rewrite Hg.
  assert (Ha : (if bool_decide (a_deal a = None) then bind_deal a d else a)
               = after_binding a d).
  { unfold after_binding. destruct (a_deal a) as [d0|].
    - rewrite bool_decide_eq_false_2 by discriminate. reflexivity.
    - rewrite bool_decide_eq_true_2 by reflexivity. reflexivity. }
  rewrite Ha. cbn zeta. rewrite Hv, Hs, Hd, Ht, Hsid, Hsig. cbn [negb].
  unfold bytes_Equal. rewrite bool_decide_eq_true_2 by reflexivity.
  cbn [negb check mbind result_bind].
  rewrite (proj2 (Z.eqb_eq _ _) HI). cbn [negb].
  rewrite (proj2 (range_guard _ _) Hrange).
  rewrite bool_decide_eq_true_2 by exact Hopen. reflexivity.
Qed.

(** A justification that is accepted turns the stored complaint into a
    justified one and touches no other response. *)
Lemma verifyJustification_Returned (j : Justification) (a a' : aggregator) :
  verifyJustification j a = (Returned (), a') →
  ∃ r, a_responses a !! j_Index j = Some r
       ∧ r_Status r = StatusComplaint
       ∧ a' = set_responses (after_binding a (j_Deal j))
                (<[j_Index j := set_Status r statusJustified]> (a_responses a)).
Proof.
  unfold verifyJustification.
  destruct (negb (bool_decide (is_Some (findPub (a_verifiers a) (j_Index j)))));
    [discriminate|].
  destruct (a_responses a !! j_Index j) as [r|]; [|discriminate].
  destruct (bool_decide (r_Status r = StatusComplaint)) eqn:Est; cbn [negb];
    [|discriminate].
  apply bool_decide_eq_true in Est.
  pose proof (VerifyDeal_state (j_Deal j) false a) as Hst.
  destruct (VerifyDeal (j_Deal j) false a) as [[[]|e|q] a1]; cbn in Hst; subst a1;
    [|discriminate..].
  intros [= <-]. exists r. split; [reflexivity|]. split; [exact Est|].
  rewrite (proj1 (after_binding_frame a (j_Deal j))). reflexivity.
Qed.

(** C3.  [DealCertified] is true exactly when at least [t] stored responses
    have status Approval, [badDealer] is false, and fewer than [t] stored
    responses have status Complaint.  A complaint whose justification was
    accepted is stored with status [statusJustified]: from then on it counts
    neither as an approval nor as a complaint. *)
Theorem C3_DealCertified_counts :
  (∀ a : aggregator,
     DealCertified a = true ↔
     a_t a <= responses_with StatusApproval (a_responses a)
     ∧ a_badDealer a = false
     ∧ responses_with StatusComplaint (a_responses a) < a_t a)
  ∧ (∀ (j : Justification) (a a' : aggregator),
     verifyJustification j a = (Returned (), a') →
     ∃ r, a_responses a !! j_Index j = Some r
          ∧ r_Status r = StatusComplaint
          ∧ a_responses a' !! j_Index j = Some (set_Status r statusJustified)
          ∧ responses_with StatusApproval (a_responses a')
            = responses_with StatusApproval (a_responses a)
          ∧ responses_with StatusComplaint (a_responses a')
            = responses_with StatusComplaint (a_responses a) - 1).
Proof.
  split.
  - intros a. unfold DealCertified, EnoughApprovals. cbn zeta.
    rewrite !count_status_responses_with.
    rewrite andb_true_iff, negb_true_iff, orb_false_iff, Z.leb_le, Z.leb_gt.
    tauto.
  - intros j a a' Hj.
    apply verifyJustification_Returned in Hj as (r & Hr & Hst & ->).
    exists r. cbn [a_responses set_responses].
    split; [exact Hr|]. split; [exact Hst|]. split; [apply lookup_insert_eq|].
    rewrite !(responses_with_replace _ _ _ r _ Hr). cbn [r_Status set_Status].
    rewrite Hst. unfold StatusComplaint, StatusApproval, statusJustified.
    rewrite (bool_decide_eq_false_2 (x00 = x01)) by discriminate.
    rewrite (bool_decide_eq_false_2 (x02 = x01)) by discriminate.
    rewrite (bool_decide_eq_true_2 (x00 = x00)) by reflexivity.
    rewrite (bool_decide_eq_false_2 (x02 = x00)) by discriminate.
    cbn [Z.b2z]. split; lia.
Qed.

End DealCertification.

(** ** Errors and the state of the aggregator *)

Section AggregatorErrors.
Context `{Suite}.
Import vss.

Lemma addResponse_Failed (r : Response) (a a' : aggregator) (e : error) :
  addResponse r a = (Failed e, a') → a' = a.
Proof.
  unfold addResponse.
  destruct (negb (bool_decide (is_Some (findPub (a_verifiers a) (r_Index r)))));
    [intros [= _ <-]; reflexivity|].
  destruct (bool_decide (is_Some (a_responses a !! r_Index r)));
    [intros [= _ <-]; reflexivity|discriminate].
Qed.

Lemma verifyResponse_Failed (r : Response) (a a' : aggregator) (e : error) :
  verifyResponse r a = (Failed e, a') → a' = a.
Proof.
  unfold verifyResponse.
  destruct (negb (bytes_Equal (r_SessionID r) (a_sid a)));
    [intros [= _ <-]; reflexivity|].
  destruct (findPub (a_verifiers a) (r_Index r)) as [pub|];
    [|intros [= _ <-]; reflexivity].
  destruct (sign_VerifySchnorr _ _ _ _); [intros [= _ <-]; reflexivity|].
  apply addResponse_Failed.
Qed.

Lemma verifyJustification_Failed (j : Justification) (a a' : aggregator) (e : error) :
  verifyJustification j a = (Failed e, a') →
  a' = a ∨ a' = set_badDealer (after_binding a (j_Deal j)) true.
Proof.
  unfold verifyJustification.
  destruct (negb (bool_decide (is_Some (findPub (a_verifiers a) (j_Index j)))));
    [intros [= _ <-]; auto|].
  destruct (a_responses a !! j_Index j) as [r|]; [|intros [= _ <-]; auto].
  destruct (negb (bool_decide (r_Status r = StatusComplaint)));
    [intros [= _ <-]; auto|].
  pose proof (VerifyDeal_state (j_Deal j) false a) as Hst.
  destruct (VerifyDeal (j_Deal j) false a) as [[[]|e'|q] a1]; cbn in Hst; subst a1;
    [discriminate| |discriminate].
  intros [= _ <-]. auto.
Qed.

(** C7, as the code has it.  [addResponse] and [verifyResponse] leave the
    aggregator as it was when they return an error, and a response with a
    wrong session identifier, an index out of range, a bad signature or an
    index already present makes [verifyResponse] return an error: it is not
    inserted.  [VerifyDeal] leaves the aggregator as it was once a deal is
    bound; on an aggregator with no deal yet it binds [commits], [sid] and
    [deal] to the incoming deal before it validates it, and the binding
    stays when it returns an error.  [verifyJustification] that returns an
    error changes nothing, or, when the re-verification of the deal fails,
    sets [badDealer] on top of what [VerifyDeal] left.  None of them changes
    [responses] when it returns an error. *)
Theorem C7_failed_operations_and_state :
  (∀ (r : Response) (a a' : aggregator) (e : error),
     addResponse r a = (Failed e, a') → a' = a)
  ∧ (∀ (r : Response) (a a' : aggregator) (e : error),
     verifyResponse r a = (Failed e, a') → a' = a)
  ∧ (∀ (r : Response) (a : aggregator),
     bytes_Equal (r_SessionID r) (a_sid a) = false
     ∨ findPub (a_verifiers a) (r_Index r) = None
     ∨ (∃ pub err, findPub (a_verifiers a) (r_Index r) = Some pub
                   ∧ sign_VerifySchnorr (a_suite a) pub (msgResponse r) (r_Signature r)
                     = Some err)
     ∨ is_Some (a_responses a !! r_Index r) →
     ∃ e, verifyResponse r a = (Failed e, a))
  ∧ (∀ (d : Deal) (inclusion : bool) (a a' : aggregator) (e : error),
     VerifyDeal d inclusion a = (Failed e, a') →
     a' = after_binding a d
     ∧ (is_Some (a_deal a) → a' = a)
     ∧ a_responses a' = a_responses a)
  ∧ (∀ (j : Justification) (a a' : aggregator) (e : error),
     verifyJustification j a = (Failed e, a') →
     (a' = a ∨ a' = set_badDealer (after_binding a (j_Deal j)) true)
     ∧ a_responses a' = a_responses a).
Proof.
  split; [exact addResponse_Failed|].
  split; [exact verifyResponse_Failed|].
  split; [|split].
  - intros r a Hbad. unfold verifyResponse.
    destruct (bytes_Equal (r_SessionID r) (a_sid a)) eqn:Es; cbn [negb]; [|eauto].
    destruct (findPub (a_verifiers a) (r_Index r)) as [pub|] eqn:Ef; [|eauto].
    destruct (sign_VerifySchnorr _ _ _ _) as [err|] eqn:Ev; [eauto|].
    destruct Hbad as [Hb|[Hb|[(pub' & err & Hp & Hv)|Hb]]]; try discriminate.
    + injection Hp as <-. congruence.
    + unfold addResponse. rewrite Ef.
      rewrite (bool_decide_eq_true_2 (is_Some (Some pub))) by eauto. cbn [negb].
      rewrite bool_decide_eq_true_2 by exact Hb. eauto.
  - intros d inclusion a a' e Hv.
    pose proof (VerifyDeal_state d inclusion a) as Hst. rewrite Hv in Hst.
    cbn in Hst. subst a'.
    split; [reflexivity|]. split; [apply after_binding_bound|].
    apply after_binding_frame.
  - intros j a a' e Hj. pose proof (verifyJustification_Failed _ _ _ _ Hj) as Hc.
    split; [exact Hc|].
    destruct Hc as [->| ->]; [reflexivity|].
    cbn [a_responses set_badDealer]. apply after_binding_frame.
Qed.

Lemma findPub_in_range (verifiers : list Point) (i : Z) :
  0 <= i < len verifiers → is_Some (findPub verifiers (Z.to_N (uint32 i))).
Proof.
  intros Hi. unfold findPub, uint32.
  assert (Hm : 0 <= i mod 2 ^ 32 <= i)
    by (split; [apply Z.mod_pos_bound; lia|apply Z.mod_le; lia]).
  rewrite Z2N.id by lia.
  destruct (len verifiers <=? i mod 2 ^ 32) eqn:E; [lia|].
  apply lookup_lt_is_Some_2. unfold len in *. lia.
Qed.

Lemma set_aggregator_same (v : Verifier) (a : aggregator) :
  v_aggregator v = Some a → set_aggregator v (Some a) = v.
Proof. destruct v. cbn. intros ->. reflexivity. Qed.

(** Once a deal is bound, every deal addressed to the verifier is turned
    away as already processed, whatever its session identifier. *)
Lemma ProcessDeal_later_deal (v : Verifier) (a : aggregator) (d : Deal) :
  v_aggregator v = Some a → is_Some (a_deal a) →
  I (d_SecShare d) = v_index v →
  ProcessDeal d v = (Failed errDealAlreadyProcessed, v).
Proof.
  intros Ha Hd Hidx. unfold ProcessDeal.
  rewrite (proj2 (Z.eqb_eq _ _) Hidx). cbn [negb]. cbn zeta.
  rewrite Ha, bool_decide_eq_false_2 by discriminate.
  unfold with_aggregator, VerifyDeal. rewrite Ha.
  rewrite (bool_decide_eq_true_2 _ Hd). cbn [andb].
  rewrite bool_decide_eq_true_2 by reflexivity.
  rewrite (set_aggregator_same _ _ Ha). reflexivity.
Qed.

(** C1, at the first deal.  A verifier that has no aggregator yet answers a
    deal addressed to it, whose session identifier is not the recomputed
    one but which is otherwise in order, with a signed approval and no
    error; the aggregator it creates takes the identifier of the deal as
    its own and stores the approval. *)
Theorem C1_first_deal_session_id_unchecked :
  ∀ (v : Verifier) (d : Deal) (sig : list byte),
    v_aggregator v = None →
    I (d_SecShare d) = v_index v →
    d_SessionID d ≠ sessionID (v_suite v) (v_dealer v) (v_verifiers v)
                      (d_Commitments d) (Z.of_N (d_T d)) →
    validT (Z.of_N (d_T d)) (v_verifiers v) = true →
    sign_VerifySchnorr (v_suite v) (v_dealer v) (msgDeal d) (d_Signature d) = None →
    I (d_SecShare d) = I (d_RndShare d) →
    0 <= I (d_SecShare d) < len (v_verifiers v) →
    share_opens (v_suite v) (v_verifiers v) d →
    sign_Schnorr (v_suite v) (v_longterm v) (msgResponse (approval_of v d)) = Returned sig →
    ∃ v' a',
      ProcessDeal d v = (Returned (set_Signature (approval_of v d) sig), v')
      ∧ v_aggregator v' = Some a'
      ∧ a_sid a' = d_SessionID d
      ∧ a_responses a' !! r_Index (approval_of v d)
        = Some (set_Signature (approval_of v d) sig).
Proof.
  intros v d sig Hnil Hidx Hsid Ht Hsig HI Hrange Hopen Hsign.
  set (a0 := newAggregator (v_suite v) (v_dealer v) (v_verifiers v) (d_Commitments d)
               (Z.of_N (d_T d)) (d_SessionID d)).
  set (r := set_Signature (approval_of v d) sig).
  exists (set_aggregator v
            (Some (set_responses (after_binding a0 d)
                     (<[r_Index r := r]> (a_responses (after_binding a0 d)))))).
  eexists. split; [|split; [reflexivity|split]].
  - unfold ProcessDeal. rewrite (proj2 (Z.eqb_eq _ _) Hidx). cbn [negb]. cbn zeta.
    rewrite Hnil, bool_decide_eq_true_2 by reflexivity.
    unfold with_aggregator at 1. cbn [v_aggregator set_aggregator].
    fold a0.
    rewrite (VerifyDeal_accepts d true a0); cbn [a_deal a_verifiers a_suite a_dealer a0
                                                  newAggregator];
      [|intros [[? [=]] _]|assumption|reflexivity|assumption..].
    cbn [v_suite v_longterm v_index v_dealer v_verifiers v_aggregator set_aggregator].
    unfold sign_and_store.
    cbn [v_suite v_longterm v_index v_dealer v_verifiers v_aggregator set_aggregator].
    change {| r_SessionID := _; r_Index := _; r_Status := StatusApproval;
              r_Signature := [] |} with (approval_of v d).
    rewrite Hsign. fold r.
    unfold with_aggregator, addResponse.
    cbn [v_suite v_longterm v_index v_dealer v_verifiers v_aggregator set_aggregator].
    rewrite (proj1 (proj2 (proj2 (proj2 (after_binding_frame a0 d))))).
    cbn [a_verifiers a0 newAggregator].
    rewrite (bool_decide_eq_true_2 (is_Some (findPub (v_verifiers v) (r_Index r))))
      by (apply findPub_in_range; lia).
    cbn [negb].
    rewrite (proj1 (after_binding_frame a0 d)). cbn [a_responses a0 newAggregator].
    rewrite (bool_decide_eq_false_2 (is_Some (∅ !! r_Index r)))
      by (rewrite lookup_empty; intros [? [=]]).
    reflexivity.
  - reflexivity.
  - cbn [a_responses set_responses]. apply lookup_insert_eq.
Qed.

End AggregatorErrors.

Lemma pair_of_fst {A B} (x : A * B) (a : A) : x.1 = a → x = (a, x.2).
Proof. destruct x. simpl. intros ->. reflexivity. Qed.

Lemma C1_first_deal_session_id_unchecked_witness :
  vss.d_SessionID examples.foreign_deal
  ≠ @vss.sessionID mod256.suite 0%nat examples.dealerPub examples.verifiers
      (vss.d_Commitments examples.foreign_deal) 2
  ∧ ∃ v' a',
      @vss.ProcessDeal mod256.suite examples.foreign_deal examples.verifier0
      = (Returned (vss.set_Signature
                     (approval_of examples.verifier0 examples.foreign_deal)
                     [x0f; x4f]%byte), v')
      ∧ vss.v_aggregator v' = Some a'
      ∧ vss.a_sid a' = vss.d_SessionID examples.foreign_deal
      ∧ vss.a_responses a' !! vss.r_Index (approval_of examples.verifier0 examples.foreign_deal)
        = Some (vss.set_Signature
                  (approval_of examples.verifier0 examples.foreign_deal) [x0f; x4f]%byte).
Proof.
  assert (Hsid : vss.d_SessionID examples.foreign_deal
                 ≠ @vss.sessionID mod256.suite 0%nat examples.dealerPub examples.verifiers
                     (vss.d_Commitments examples.foreign_deal) 2)
    by (intros Heq; vm_compute in Heq; discriminate).
  split; [exact Hsid|].
  apply (@C1_first_deal_session_id_unchecked mod256.suite examples.verifier0
           examples.foreign_deal).
  - reflexivity.
  - reflexivity.
  - exact Hsid.
  - reflexivity.
  - reflexivity.
  - reflexivity.
  - change (0 <= 0 < 3). lia.
  - reflexivity.
  - reflexivity.
Defined.

Lemma C3_DealCertified_counts_witness :
  ∃ r, vss.a_responses examples.complained !! 1%N = Some r
       ∧ vss.r_Status r = vss.StatusComplaint
       ∧ vss.a_responses (@vss.verifyJustification mod256.suite examples.justification
                            examples.complained).2 !! 1%N
         = Some (vss.set_Status r vss.statusJustified)
       ∧ responses_with vss.StatusApproval
           (vss.a_responses (@vss.verifyJustification mod256.suite examples.justification
                               examples.complained).2)
         = responses_with vss.StatusApproval (vss.a_responses examples.complained)
       ∧ responses_with vss.StatusComplaint
           (vss.a_responses (@vss.verifyJustification mod256.suite examples.justification
                               examples.complained).2)
         = responses_with vss.StatusComplaint (vss.a_responses examples.complained) - 1.
Proof.
  apply (proj2 (@C3_DealCertified_counts mod256.suite) examples.justification
           examples.complained).
  apply pair_of_fst. reflexivity.
Defined.

Lemma C7_failed_operations_and_state_witness :
  ∃ e, @vss.verifyResponse mod256.suite
         (examples.signed_response 1 vss.StatusComplaint x09) examples.complained
       = (Failed e, examples.complained).
Proof.
  apply (proj1 (proj2 (proj2 (@C7_failed_operations_and_state mod256.suite)))).
  right. right. right. eexists. reflexivity.
Defined.

(** C7, an error that changes the state: on an aggregator with no deal
    bound, [VerifyDeal] of a deal with threshold zero returns an error and
    yet binds the deal. *)
Lemma C7_rejected_deal_is_bound :
  @vss.VerifyDeal mod256.suite examples.bad_deal true examples.fresh_aggregator
  = (Failed (errors_New "vss: invalid t received in Deal"),
     vss.bind_deal examples.fresh_aggregator examples.bad_deal)
  ∧ vss.bind_deal examples.fresh_aggregator examples.bad_deal ≠ examples.fresh_aggregator.
Proof.
  split; [reflexivity|].
  intros Heq. apply (f_equal vss.a_deal) in Heq. discriminate.
Qed.

(** ** The example data is what the operations produce *)

Section Examples.
#[local] Existing Instance mod256.suite.
Import examples.

Example ConstructPromise_example :
  promise.ConstructPromise secretPair longPair 2 2 insurers rand = Returned the_promise.
Proof. reflexivity. Qed.

Example Blame_example :
  promise.Blame the_promise 0 (key x05) rand [] = Returned the_blame.
Proof. reflexivity. Qed.

Example PromiseState_example :
  (ps ← promise.Init the_promise;
   ps ← promise.AddSignature ps 0 (Some the_signature);
   ps ← promise.AddSignature ps 2 (Some (promise.Sign the_promise 2 (key x0d) rand));
   promise.AddBlameProof ps 0 (Some the_blame))
  = Returned the_state.
Proof. reflexivity. Qed.

Example PromiseCertified_example : promise.PromiseCertified the_state = Returned ().
Proof. reflexivity. Qed.

Example NewVerifier_example :
  vss.NewVerifier 0%nat x05 dealerPub verifiers = Returned verifier0.
Proof. reflexivity. Qed.

Example ProcessDeal_example :
  (vss.ProcessDeal (deal 0) verifier0).1
  = Returned (signed_response 0 vss.StatusApproval x05).
Proof. reflexivity. Qed.

Example MinimumT_example : vss.MinimumT 7 = 4.
Proof. reflexivity. Qed.

(** A signature that was never set lies outside the round trip: it goes on
    the wire as an empty signature, which [Equal] tells from nil. *)
Example nil_signature_example :
  promise.PromiseSignature_MarshalBinary blank_signature = Returned (le32 0)
  ∧ promise.PromiseSignature_UnmarshalBinary blank_signature (le32 0)
    = Returned {| promise.sig_suite := 0%nat; promise.sig_signature := Some [] |}
  ∧ promise.PromiseSignature_Equal blank_signature
      {| promise.sig_suite := 0%nat; promise.sig_signature := Some [] |} = false.
Proof. repeat split. Qed.

End Examples.

(** * The life of a session, and the rest of the two packages

    The constructors and accessors of the dealer and of the verifier, the
    runs of an aggregator, the remaining operations on a promise and its
    state, and the codecs on streams. *)

(** ** A new verifier *)

Section VerifierLifeCycle.
Context `{Suite}.
Import vss.

Lemma find_index_spec (pub : Point) (verifiers : list Point) (i : Z) :
  match find_index pub verifiers i with
  | None => pub ∉ verifiers
  | Some k =>
      i <= k < i + len verifiers
      ∧ verifiers !! Z.to_nat (k - i) = Some pub
      ∧ ∀ j, (j < Z.to_nat (k - i))%nat → verifiers !! j ≠ Some pub
  end.
Proof.
  revert i. induction verifiers as [|v vs IH]; intros i; cbn [find_index].
  - apply not_elem_of_nil.
  - destruct (decide (v = pub)) as [->|Hne].
    + rewrite bool_decide_eq_true_2 by reflexivity.
      replace (i - i) with 0 by lia. unfold len. cbn [length].
      split; [lia|]. split; [reflexivity|]. intros j Hj. cbn in Hj. lia.
    + rewrite bool_decide_eq_false_2 by exact Hne.
      specialize (IH (i + 1)). destruct (find_index pub vs (i + 1)) as [k|].
      * destruct IH as (Hk & Hlook & Hfirst). unfold len in *. cbn [length].
        split; [lia|].
        replace (Z.to_nat (k - i)) with (S (Z.to_nat (k - (i + 1)))) by lia.
        split; [exact Hlook|].
        intros [|j] Hj; cbn; [congruence|]. apply Hfirst. lia.
      * rewrite elem_of_cons. intros [->|Hin]; [congruence|auto].
Qed.

(** X1.  [NewVerifier] fails exactly when the public key of [longterm] is
    not in [verifiers]; otherwise the verifier it returns has no aggregator
    yet, and its index is the first position of [verifiers] that holds its
    public key. *)
Theorem X1_NewVerifier_first_index :
  ∀ (s : SuiteT) (longterm : Secret) (dealerKey : Point) (verifiers : list Point),
    let pub := Point_Mul s None longterm in
    (pub ∉ verifiers ↔
       NewVerifier s longterm dealerKey verifiers
       = Failed (errors_New "vss: public key not found in the list of verifiers"))
    ∧ (pub ∈ verifiers ↔
       ∃ v, NewVerifier s longterm dealerKey verifiers = Returned v
            ∧ v_aggregator v = None
            ∧ Verifier_Key v = (longterm, pub)
            ∧ v_dealer v = dealerKey ∧ v_verifiers v = verifiers
            ∧ 0 <= Verifier_Index v < len verifiers
            ∧ verifiers !! Z.to_nat (Verifier_Index v) = Some pub
            ∧ ∀ j, (j < Z.to_nat (Verifier_Index v))%nat → verifiers !! j ≠ Some pub).
Proof.
  intros s longterm dealerKey verifiers pub.
  pose proof (find_index_spec pub verifiers 0) as Hspec.
  unfold NewVerifier. fold pub.
  destruct (find_index pub verifiers 0) as [k|].
  - destruct Hspec as (Hk & Hlook & Hfirst).
    replace (k - 0) with k in * by lia.
    assert (Hin : pub ∈ verifiers) by (apply list_elem_of_lookup; eauto).
    split.
    + split; [intros Hn; contradiction|discriminate].
    + split; [|intros _; exact Hin].
      intros _. eexists. split; [reflexivity|].
      cbn. repeat split; try lia; assumption.
  - split.
    + split; [reflexivity|intros _; exact Hspec].
    + split; [intros Hin; contradiction|].
      intros (v & Hv & _). discriminate.
Qed.

End VerifierLifeCycle.

Section AggregatorRuns.
Context `{Suite}.
Import vss.

Lemma VerifyDeal_not_Panicked (d : Deal) (inclusion : bool) (a : aggregator) (q : panic) :
  (VerifyDeal d inclusion a).1 ≠ Panicked q.
Proof.
  unfold VerifyDeal.
  destruct (bool_decide (is_Some (a_deal a)) && inclusion); [discriminate|].
  cbn zeta. cbn [fst].
  destruct (negb (validT _ _)); [discriminate|].
  destruct (negb (bytes_Equal _ _)); [discriminate|].
  destruct (sign_VerifySchnorr _ _ _ _); cbn [check mbind result_bind]; [discriminate|].
  destruct (negb (_ =? _)); [discriminate|].
  destruct ((_ <? 0) || _); [discriminate|].
  destruct (negb (bool_decide _)); discriminate.
Qed.

(** What [addResponse] answers, and the state it leaves. *)
Lemma addResponse_cases (r : Response) (a : aggregator) :
  (is_Some (findPub (a_verifiers a) (r_Index r))
   ∧ a_responses a !! r_Index r = None
   ∧ addResponse r a
     = (Returned (), set_responses a (<[r_Index r := r]> (a_responses a))))
  ∨ (¬ (is_Some (findPub (a_verifiers a) (r_Index r))
        ∧ a_responses a !! r_Index r = None)
     ∧ ∃ e, addResponse r a = (Failed e, a)).
Proof.
  unfold addResponse.
  destruct (decide (is_Some (findPub (a_verifiers a) (r_Index r)))) as [Hp|Hp].
  - rewrite (bool_decide_eq_true_2 _ Hp). cbn [negb].
    destruct (a_responses a !! r_Index r) as [r0|] eqn:Er.
    + rewrite bool_decide_eq_true_2 by eauto.
      right. split; [intros [_ [=]]|eauto].
    + rewrite bool_decide_eq_false_2 by (intros [? [=]]).
      left. auto.
  - rewrite (bool_decide_eq_false_2 _ Hp). cbn [negb].
    right. split; [tauto|eauto].
Qed.

Lemma verifyResponse_cases (r : Response) (a : aggregator) :
  (r_SessionID r = a_sid a
   ∧ (∃ pub, findPub (a_verifiers a) (r_Index r) = Some pub
             ∧ sign_VerifySchnorr (a_suite a) pub (msgResponse r) (r_Signature r) = None)
   ∧ a_responses a !! r_Index r = None
   ∧ verifyResponse r a
     = (Returned (), set_responses a (<[r_Index r := r]> (a_responses a))))
  ∨ (¬ (r_SessionID r = a_sid a
        ∧ (∃ pub, findPub (a_verifiers a) (r_Index r) = Some pub
                  ∧ sign_VerifySchnorr (a_suite a) pub (msgResponse r) (r_Signature r)
                    = None)
        ∧ a_responses a !! r_Index r = None)
     ∧ ∃ e, verifyResponse r a = (Failed e, a)).
Proof.
  unfold verifyResponse, bytes_Equal.
  destruct (decide (r_SessionID r = a_sid a)) as [Hs|Hs].
  2:{ rewrite (bool_decide_eq_false_2 _ Hs). cbn [negb].
      right. split; [tauto|eauto]. }
  rewrite (bool_decide_eq_true_2 _ Hs). cbn [negb].
  destruct (findPub (a_verifiers a) (r_Index r)) as [pub|] eqn:Ep.
  2:{ right. split; [|eauto]. intros (_ & (pub & [=] & _) & _). }
  destruct (sign_VerifySchnorr (a_suite a) pub (msgResponse r) (r_Signature r))
    as [err|] eqn:Ev.
  { right. split; [|eauto]. intros (_ & (pub' & [= <-] & Hv) & _). congruence. }
  destruct (addResponse_cases r a) as [(Hp & Hn & Ha)|(Hn & e & Ha)].
  - left. split; [exact Hs|]. split; [eauto|]. split; [exact Hn|exact Ha].
  - right. split; [|eauto].
    intros (_ & _ & Hnone). apply Hn. split; [rewrite Ep; eauto|exact Hnone].
Qed.

Lemma verifyJustification_cases (j : Justification) (a : aggregator) :
  (verifyJustification j a).2 = a
  ∨ (verifyJustification j a).2 = set_badDealer (after_binding a (j_Deal j)) true
  ∨ ∃ r, a_responses a !! j_Index j = Some r
         ∧ r_Status r = StatusComplaint
         ∧ (verifyJustification j a).2
           = set_responses (after_binding a (j_Deal j))
               (<[j_Index j := set_Status r statusJustified]> (a_responses a)).
Proof.
  destruct (verifyJustification j a) as [[[]|e|q] a'] eqn:E.
  - apply verifyJustification_Returned in E as (r & Hr & Hst & ->).
    right. right. exists r. auto.
  - apply verifyJustification_Failed in E as [->| ->]; auto.
  - left. revert E. unfold verifyJustification.
    destruct (negb (bool_decide _)); [discriminate|].
    destruct (a_responses a !! j_Index j) as [r|]; [|discriminate].
    destruct (negb (bool_decide _)); [discriminate|].
    pose proof (VerifyDeal_not_Panicked (j_Deal j) false a) as Hnp.
    destruct (VerifyDeal (j_Deal j) false a) as [[[]|e'|q'] a1]; try discriminate.
    exfalso. exact (Hnp q' eq_refl).
Qed.

Lemma kept_or_justified_refl (r : Response) : kept_or_justified r r.
Proof. left. reflexivity. Qed.

Lemma kept_or_justified_trans (r r' r'' : Response) :
  kept_or_justified r r' → kept_or_justified r' r'' → kept_or_justified r r''.
Proof.
  intros [->|[Hc ->]] [->|[Hc' ->]]; unfold kept_or_justified; auto.
Qed.

Lemma continues_refl (a : aggregator) : continues a a.
Proof.
  split; auto; [|lia].
  intros k r Hr. exists r. split; [exact Hr|apply kept_or_justified_refl].
Qed.

Lemma continues_trans (a a' a'' : aggregator) :
  continues a a' → continues a' a'' → continues a a''.
Proof.
  intros [Ht Hv Hdl Hs Hb Hd Hr Ha] [Ht' Hv' Hdl' Hs' Hb' Hd' Hr' Ha'].
  split; try congruence; auto.
  - intros d Ed. destruct (Hd d Ed) as (Ed' & Es & Ec).
    destruct (Hd' d Ed') as (Ed'' & Es' & Ec'). repeat split; congruence.
  - intros k r Er. destruct (Hr k r Er) as (r' & Er' & Hk).
    destruct (Hr' k r' Er') as (r'' & Er'' & Hk').
    exists r''. split; [exact Er''|]. eapply kept_or_justified_trans; eauto.
  - lia.
Qed.

Lemma continues_after_binding (a : aggregator) (d : Deal) :
  continues a (after_binding a d).
Proof.
  destruct (a_deal a) as [d0|] eqn:Ed.
  - rewrite after_binding_bound by (rewrite Ed; eauto). apply continues_refl.
  - unfold after_binding. rewrite Ed. split; cbn; auto; try congruence; [|lia].
    intros k r Hr. exists r. split; [exact Hr|apply kept_or_justified_refl].
Qed.

Lemma continues_set_badDealer (a : aggregator) : continues a (set_badDealer a true).
Proof.
  split; cbn; auto; [|lia].
  intros k r Hr. exists r. split; [exact Hr|apply kept_or_justified_refl].
Qed.

Lemma continues_insert (a : aggregator) (r : Response) :
  a_responses a !! r_Index r = None →
  continues a (set_responses a (<[r_Index r := r]> (a_responses a))).
Proof.
  intros Hn. split; cbn; auto.
  - intros k r0 Hr0. exists r0. split; [|apply kept_or_justified_refl].
    rewrite lookup_insert_ne; [exact Hr0|]. intros Heq. rewrite Heq in Hn. congruence.
  - rewrite responses_with_insert by exact Hn.
    destruct (bool_decide _); cbn; lia.
Qed.

Lemma continues_justify (a : aggregator) (k : N) (r : Response) :
  a_responses a !! k = Some r → r_Status r = StatusComplaint →
  continues a (set_responses a (<[k := set_Status r statusJustified]> (a_responses a))).
Proof.
  intros Hr Hst. split; cbn; auto.
  - intros k0 r0 Hr0. destruct (decide (k0 = k)) as [->|Hne].
    + rewrite lookup_insert_eq. eexists. split; [reflexivity|].
      right. split; congruence.
    + rewrite lookup_insert_ne by congruence.
      exists r0. split; [exact Hr0|apply kept_or_justified_refl].
  - rewrite (responses_with_replace _ _ _ r) by exact Hr. cbn [r_Status set_Status].
    rewrite Hst. rewrite !bool_decide_eq_false_2 by discriminate. cbn. lia.
Qed.

Lemma aggregator_step_continues (a a' : aggregator) :
  aggregator_step a a' → continues a a'.
Proof.
  intros [d incl|r|j|r].
  - rewrite VerifyDeal_state. apply continues_after_binding.
  - destruct (verifyResponse_cases r a) as [(_ & _ & Hn & ->)|(_ & e & ->)]; cbn [snd].
    + apply continues_insert, Hn.
    + apply continues_refl.
  - destruct (verifyJustification_cases j a) as [->|[->|(r & Hr & Hst & ->)]].
    + apply continues_refl.
    + eapply continues_trans; [apply continues_after_binding|apply continues_set_badDealer].
    + eapply continues_trans; [apply continues_after_binding|].
      pose proof (after_binding_frame a (j_Deal j)) as (Hresp & _).
      rewrite <- Hresp. apply continues_justify; [rewrite Hresp; exact Hr|exact Hst].
  - destruct (addResponse_cases r a) as [(_ & Hn & ->)|(_ & e & ->)]; cbn [snd].
    + apply continues_insert, Hn.
    + apply continues_refl.
Qed.

Lemma run_continues (a a' : aggregator) :
  rtc aggregator_step a a' → continues a a'.
Proof.
  induction 1 as [a|a a1 a' Hstep _ IH].
  - apply continues_refl.
  - eapply continues_trans; [apply aggregator_step_continues, Hstep|exact IH].
Qed.

End AggregatorRuns.

Section AggregatorInvariants.
Context `{Suite}.
Import vss.

(** X2.  Through any sequence of calls on an aggregator, the threshold, the
    verifiers, the dealer key and the suite stay what they were; a
    [badDealer] flag that is set stays set; and once a deal is bound, the
    deal, the session identifier and the commitments never change. *)
Theorem X2_session_parameters_fixed :
  ∀ a a' : aggregator,
    rtc aggregator_step a a' →
    a_t a' = a_t a ∧ a_verifiers a' = a_verifiers a
    ∧ a_dealer a' = a_dealer a ∧ a_suite a' = a_suite a
    ∧ (a_badDealer a = true → a_badDealer a' = true)
    ∧ (∀ d, a_deal a = Some d →
         a_deal a' = Some d ∧ a_sid a' = a_sid a ∧ a_commits a' = a_commits a).
Proof.
  intros a a' Hrun. destruct (run_continues a a' Hrun). auto 10.
Qed.

Lemma EnoughApprovals_iff (a : aggregator) :
  EnoughApprovals a = true ↔ a_t a <= responses_with StatusApproval (a_responses a).
Proof.
  unfold EnoughApprovals. cbn zeta. rewrite count_status_responses_with.
  apply Z.leb_le.
Qed.

Lemma DealCertified_iff (a : aggregator) :
  DealCertified a = true ↔
  a_t a <= responses_with StatusApproval (a_responses a)
  ∧ a_badDealer a = false
  ∧ responses_with StatusComplaint (a_responses a) < a_t a.
Proof.
  unfold DealCertified. cbn zeta.
  rewrite andb_true_iff, negb_true_iff, orb_false_iff, EnoughApprovals_iff.
  rewrite count_status_responses_with, Z.leb_gt. tauto.
Qed.

(** X3.  No call removes a stored response or replaces it by another: a
    stored response stays as it is, except that a complaint may become a
    justified complaint.  A stored approval stays an approval, so
    [EnoughApprovals], once true, is true in every later state. *)
Theorem X3_stored_responses_are_kept :
  ∀ a a' : aggregator,
    rtc aggregator_step a a' →
    (∀ k r, a_responses a !! k = Some r →
       ∃ r', a_responses a' !! k = Some r' ∧ kept_or_justified r r')
    ∧ (∀ k r, a_responses a !! k = Some r → r_Status r = StatusApproval →
         a_responses a' !! k = Some r)
    ∧ (EnoughApprovals a = true → EnoughApprovals a' = true).
Proof.
  intros a a' Hrun. destruct (run_continues a a' Hrun) as [Ht _ _ _ _ _ Hr Ha].
  split; [exact Hr|]. split.
  - intros k r Hk Hst. destruct (Hr k r Hk) as (r' & Hk' & [->|[Hc _]]);
      [exact Hk'|]. rewrite Hst in Hc. discriminate.
  - rewrite !EnoughApprovals_iff. lia.
Qed.

Lemma findPub_Some_lt (verifiers : list Point) (idx : N) :
  is_Some (findPub verifiers idx) → Z.of_N idx < len verifiers.
Proof.
  unfold findPub. cbn zeta.
  destruct (len verifiers <=? Z.of_N idx) eqn:E; [intros [? [=]]|lia].
Qed.

Lemma responses_indexed_insert (a : aggregator) (r : Response) :
  responses_indexed a →
  is_Some (findPub (a_verifiers a) (r_Index r)) →
  responses_indexed (set_responses a (<[r_Index r := r]> (a_responses a))).
Proof.
  intros Hinv Hp k r0. cbn [a_responses a_verifiers set_responses].
  destruct (decide (k = r_Index r)) as [->|Hne].
  - rewrite lookup_insert_eq. intros [= <-]. split; [reflexivity|].
    apply findPub_Some_lt, Hp.
  - rewrite lookup_insert_ne by congruence. apply Hinv.
Qed.

Lemma responses_indexed_after_binding (a : aggregator) (d : Deal) :
  responses_indexed a → responses_indexed (after_binding a d).
Proof.
  intros Hinv k r.
  pose proof (after_binding_frame a d) as (-> & _ & _ & -> & _). apply Hinv.
Qed.

Lemma responses_indexed_step (a a' : aggregator) :
  responses_indexed a → aggregator_step a a' → responses_indexed a'.
Proof.
  intros Hinv [d incl|r|j|r].
  - rewrite VerifyDeal_state. apply responses_indexed_after_binding, Hinv.
  - destruct (verifyResponse_cases r a) as [(_ & (pub & Hp & _) & _ & ->)|(_ & e & ->)];
      cbn [snd]; [|exact Hinv].
    apply responses_indexed_insert; [exact Hinv|rewrite Hp; eauto].
  - destruct (verifyJustification_cases j a) as [->|[->|(r & Hr & Hst & ->)]].
    + exact Hinv.
    + intros k r. cbn [a_responses a_verifiers set_badDealer].
      apply responses_indexed_after_binding, Hinv.
    + intros k r0. cbn [a_responses a_verifiers set_responses].
      rewrite (proj1 (proj2 (proj2 (proj2 (after_binding_frame a (j_Deal j)))))).
      destruct (Hinv _ _ Hr) as [Hidx Hlt].
      destruct (decide (k = j_Index j)) as [->|Hne].
      * rewrite lookup_insert_eq. intros [= <-]. cbn [r_Index set_Status]. auto.
      * rewrite lookup_insert_ne by congruence. apply Hinv.
  - destruct (addResponse_cases r a) as [(Hp & _ & ->)|(_ & e & ->)];
      cbn [snd]; [|exact Hinv].
    apply responses_indexed_insert; assumption.
Qed.

Lemma responses_indexed_size (a : aggregator) :
  responses_indexed a → (size (a_responses a) ≤ length (a_verifiers a))%nat.
Proof.
  intros Hinv.
  set (all := list_to_set (N.of_nat <$> seq 0 (length (a_verifiers a))) : gset N).
  assert (Hsub : dom (a_responses a) ⊆ all).
  { intros k Hk. apply elem_of_dom in Hk as [r Hr].
    destruct (Hinv k r Hr) as [_ Hlt]. unfold len in Hlt.
    apply elem_of_list_to_set, list_elem_of_fmap.
    exists (N.to_nat k). split; [lia|]. apply elem_of_seq. lia. }
  apply subseteq_size in Hsub. rewrite size_dom in Hsub.
  etransitivity; [exact Hsub|]. unfold all.
  rewrite size_list_to_set.
  - rewrite length_fmap, length_seq. reflexivity.
  - apply NoDup_fmap_2; [intros x y Hxy; lia|apply NoDup_seq].
Qed.

(** X4.  An aggregator made by [newAggregator] stores no response, and
    through any sequence of calls every stored response sits under the
    index it carries, that index names a verifier, and there are at most as
    many stored responses as verifiers. *)
Theorem X4_responses_indexed_by_verifier :
  (∀ s dealer verifiers commitments t sid,
     responses_indexed (newAggregator s dealer verifiers commitments t sid))
  ∧ (∀ a a' : aggregator,
       responses_indexed a → rtc aggregator_step a a' →
       responses_indexed a'
       ∧ (size (a_responses a') ≤ length (a_verifiers a'))%nat).
Proof.
  split.
  - intros s dealer verifiers commitments t sid k r. cbn. rewrite lookup_empty.
    discriminate.
  - intros a a' Hinv Hrun.
    assert (Hinv' : responses_indexed a').
    { induction Hrun as [a|a a1 a' Hstep _ IH]; [exact Hinv|].
      apply IH. eapply responses_indexed_step; eauto. }
    split; [exact Hinv'|apply responses_indexed_size, Hinv'].
Qed.

End AggregatorInvariants.

Section Certified.
Context `{Suite}.
Import vss.

Lemma badDealer_never_certified (a : aggregator) :
  a_badDealer a = true → DealCertified a = false.
Proof.
  intros Hb. unfold DealCertified. cbn zeta. rewrite Hb, orb_true_r.
  apply andb_false_r.
Qed.

(** X5.  A certified deal stays certified when a further response that is
    not a complaint is accepted.  A justification whose deal fails the
    re-verification returns that error and sets [badDealer], and from a
    state with [badDealer] set no sequence of calls leads to a state where
    [DealCertified] is true. *)
Theorem X5_certification_and_bad_dealer :
  (∀ (r : Response) (a a' : aggregator),
     DealCertified a = true →
     verifyResponse r a = (Returned (), a') →
     r_Status r ≠ StatusComplaint →
     DealCertified a' = true)
  ∧ (∀ (j : Justification) (a : aggregator) (r : Response) (e : error),
     is_Some (findPub (a_verifiers a) (j_Index j)) →
     a_responses a !! j_Index j = Some r →
     r_Status r = StatusComplaint →
     (VerifyDeal (j_Deal j) false a).1 = Failed e →
     (verifyJustification j a).1 = Failed e
     ∧ a_badDealer (verifyJustification j a).2 = true)
  ∧ (∀ a a' : aggregator,
     a_badDealer a = true → rtc aggregator_step a a' → DealCertified a' = false).
Proof.
  split; [|split].
  - intros r a a' Hc Hv Hst.
    destruct (verifyResponse_cases r a) as [(_ & _ & Hn & Hv')|(_ & e & Hv')];
      rewrite Hv' in Hv; [|discriminate].
    injection Hv as <-.
    apply DealCertified_iff in Hc as (Ha & Hb & Hco).
    apply DealCertified_iff. cbn [a_t a_responses a_badDealer set_responses].
    rewrite !responses_with_insert by exact Hn.
    rewrite (bool_decide_eq_false_2 (r_Status r = StatusComplaint)) by exact Hst.
    destruct (bool_decide (r_Status r = StatusApproval)); cbn; repeat split; lia || auto.
  - intros j a r e Hp Hr Hst Hd. unfold verifyJustification.
    rewrite (bool_decide_eq_true_2 _ Hp), Hr, (bool_decide_eq_true_2 _ Hst). cbn [negb].
    destruct (VerifyDeal (j_Deal j) false a) as [x a1]. cbn [fst] in Hd. subst x.
    split; reflexivity.
  - intros a a' Hb Hrun. apply badDealer_never_certified.
    destruct (run_continues a a' Hrun) as [_ _ _ _ Hb' _ _ _]. auto.
Qed.

(** X6.  [verifyResponse] accepts a response exactly when its session
    identifier is the aggregator's, its index names a verifier whose key
    verifies its signature, and no response is stored under that index.
    It then stores the response under its index and touches no other
    entry; and in every later state a further response with the same index
    is refused and changes nothing. *)
Theorem X6_one_response_per_verifier :
  (∀ (r : Response) (a : aggregator),
     (verifyResponse r a).1 = Returned () ↔
     r_SessionID r = a_sid a
     ∧ (∃ pub, findPub (a_verifiers a) (r_Index r) = Some pub
               ∧ sign_VerifySchnorr (a_suite a) pub (msgResponse r) (r_Signature r) = None)
     ∧ a_responses a !! r_Index r = None)
  ∧ (∀ (r : Response) (a a' : aggregator),
     verifyResponse r a = (Returned (), a') →
     a_responses a' = <[r_Index r := r]> (a_responses a)
     ∧ ∀ (a'' : aggregator) (r' : Response),
         rtc aggregator_step a' a'' → r_Index r' = r_Index r →
         ∃ e, verifyResponse r' a'' = (Failed e, a'')).
Proof.
  split.
  - intros r a.
    destruct (verifyResponse_cases r a) as [(Hs & Hp & Hn & ->)|(Hnot & e & ->)];
      cbn [fst]; split; auto; try discriminate. intros Hc. contradiction.
  - intros r a a' Hv.
    destruct (verifyResponse_cases r a) as [(_ & _ & Hn & Hv')|(_ & e & Hv')];
      rewrite Hv' in Hv; [|discriminate].
    injection Hv as <-. split; [reflexivity|].
    intros a'' r' Hrun Hidx.
    destruct (run_continues _ _ Hrun) as [_ _ _ _ _ _ Hr _].
    destruct (Hr (r_Index r) r) as (r2 & Hr2 & _);
      [cbn; apply lookup_insert_eq|].
    destruct (verifyResponse_cases r' a'') as [(_ & _ & Hn' & _)|(_ & e & Hv'')].
    + rewrite Hidx in Hn'. congruence.
    + eauto.
Qed.

(** X7.  A complaint is justified at most once: once a justification for an
    index was accepted, every later justification for that index is
    refused with the error "justification received for an approval", and
    changes nothing. *)
Theorem X7_justification_only_once :
  ∀ (j : Justification) (a a' : aggregator),
    verifyJustification j a = (Returned (), a') →
    ∀ (a'' : aggregator) (j' : Justification),
      rtc aggregator_step a' a'' → j_Index j' = j_Index j →
      verifyJustification j' a''
      = (Failed (errors_New "vss: justification received for an approval"), a'').
Proof.
  intros j a a' Hj a'' j' Hrun Hidx.
  assert (Hp : is_Some (findPub (a_verifiers a) (j_Index j))).
  { revert Hj. unfold verifyJustification.
    destruct (bool_decide (is_Some (findPub (a_verifiers a) (j_Index j)))) eqn:E;
      cbn [negb]; [|discriminate].
    intros _. apply bool_decide_eq_true in E. exact E. }
  apply verifyJustification_Returned in Hj as (r & Hr & Hst & ->).
  destruct (run_continues _ _ Hrun) as [_ Hv _ _ _ _ Hresp _].
  cbn [a_verifiers set_responses] in Hv.
  rewrite (proj1 (proj2 (proj2 (proj2 (after_binding_frame a (j_Deal j)))))) in Hv.
  destruct (Hresp (j_Index j) (set_Status r statusJustified)) as (r2 & Hr2 & Hk);
    [cbn; apply lookup_insert_eq|].
  assert (Hst2 : r_Status r2 = statusJustified).
  { destruct Hk as [->|[Hc _]]; [reflexivity|cbn in Hc; discriminate]. }
  unfold verifyJustification. rewrite Hidx, Hv.
  rewrite (bool_decide_eq_true_2 _ Hp), Hr2. cbn [negb].
  rewrite bool_decide_eq_false_2 by (rewrite Hst2; discriminate). reflexivity.
Qed.

End Certified.

Section VerifierRuns.
Context `{Suite}.
Import vss.

Lemma set_aggregator_twice (v : Verifier) (x y : option aggregator) :
  set_aggregator (set_aggregator v x) y = set_aggregator v y.
Proof. reflexivity. Qed.

Lemma with_aggregator_Some {A} (m : go aggregator A) (v : Verifier) (a : aggregator) :
  v_aggregator v = Some a →
  with_aggregator m v = ((m a).1, set_aggregator v (Some (m a).2)).
Proof. intros Ha. unfold with_aggregator. rewrite Ha. destruct (m a). reflexivity. Qed.

(** The tail of [ProcessDeal] on a verifier that holds the aggregator [a]. *)
Lemma sign_and_store_cases (r : Response) (v : Verifier) (a : aggregator) :
  v_aggregator v = Some a →
  sign_and_store r v
  = match sign_Schnorr (v_suite v) (v_longterm v) (msgResponse r) with
    | Returned sig =>
        match (addResponse (set_Signature r sig) a).1 with
        | Returned _ =>
            (Returned (set_Signature r sig),
             set_aggregator v (Some (addResponse (set_Signature r sig) a).2))
        | Failed e =>
            (Failed e, set_aggregator v (Some (addResponse (set_Signature r sig) a).2))
        | Panicked q =>
            (Panicked q, set_aggregator v (Some (addResponse (set_Signature r sig) a).2))
        end
    | Failed e => (Failed e, v)
    | Panicked q => (Panicked q, v)
    end.
Proof.
  intros Ha. unfold sign_and_store.
  destruct (sign_Schnorr _ _ _) as [sig|e|q]; [|reflexivity..].
  rewrite (with_aggregator_Some _ v a Ha).
  destruct (addResponse (set_Signature r sig) a) as [[[]|e|q] a2]; reflexivity.
Qed.

(** [ProcessDeal] on a deal that carries the index of the verifier. *)
Lemma ProcessDeal_unfold (d : Deal) (v : Verifier) :
  I (d_SecShare d) = v_index v →
  ProcessDeal d v
  = let v1 := set_aggregator v (Some (after_binding (aggregator_for v d) d)) in
    match (VerifyDeal d true (aggregator_for v d)).1 with
    | Returned _ => sign_and_store (approval_of v d) v1
    | Failed e =>
        if bool_decide (e = errDealAlreadyProcessed) then (Failed e, v1)
        else sign_and_store (set_Status (approval_of v d) StatusComplaint) v1
    | Panicked q => (Panicked q, v1)
    end.
Proof.
  intros Hidx. unfold ProcessDeal.
  rewrite (proj2 (Z.eqb_eq _ _) Hidx). cbn [negb]. cbn zeta.
  destruct (v_aggregator v) as [a|] eqn:Ea.
  - assert (Ha0 : aggregator_for v d = a)
      by (unfold aggregator_for; rewrite Ea; reflexivity).
    rewrite Ha0.
    rewrite bool_decide_eq_false_2 by discriminate.
    rewrite (with_aggregator_Some _ v a Ea).
    pose proof (VerifyDeal_state d true a) as Hst.
    destruct (VerifyDeal d true a) as [x a1]. cbn [fst snd] in *. subst a1.
    destruct x as [[]|e|q]; reflexivity.
  - set (a0 := newAggregator (v_suite v) (v_dealer v) (v_verifiers v) (d_Commitments d)
                 (Z.of_N (d_T d)) (d_SessionID d)).
    assert (Ha0 : aggregator_for v d = a0)
      by (unfold aggregator_for; rewrite Ea; reflexivity).
    rewrite Ha0.
    rewrite bool_decide_eq_true_2 by reflexivity.
    rewrite (with_aggregator_Some _ _ a0) by reflexivity.
    pose proof (VerifyDeal_state d true a0) as Hst.
    destruct (VerifyDeal d true a0) as [x a1]. cbn [fst snd] in *. subst a1.
    rewrite set_aggregator_twice.
    destruct x as [[]|e|q]; reflexivity.
Qed.

Lemma ProcessDeal_wrong_index (d : Deal) (v : Verifier) :
  I (d_SecShare d) ≠ v_index v →
  ProcessDeal d v = (Failed (errors_New "vss: verifier got wrong index from deal"), v).
Proof.
  intros Hidx. unfold ProcessDeal.
  rewrite (proj2 (Z.eqb_neq _ _) Hidx). reflexivity.
Qed.

(** A step of the verifier keeps its own fields and continues its
    aggregator. *)
Lemma sign_and_store_state (r : Response) (v : Verifier) (a : aggregator) :
  v_aggregator v = Some a →
  ∃ a', (sign_and_store r v).2 = set_aggregator v (Some a') ∧ rtc aggregator_step a a'.
Proof.
  intros Ha. rewrite (sign_and_store_cases r v a Ha).
  destruct (sign_Schnorr _ _ _) as [sig|e|q].
  - exists (addResponse (set_Signature r sig) a).2. split.
    + destruct (addResponse (set_Signature r sig) a).1; reflexivity.
    + apply rtc_once. constructor.
  - exists a. split; [symmetry; apply set_aggregator_same, Ha|reflexivity].
  - exists a. split; [symmetry; apply set_aggregator_same, Ha|reflexivity].
Qed.

Lemma ProcessDeal_state (d : Deal) (v : Verifier) :
  I (d_SecShare d) = v_index v →
  ∃ a', (ProcessDeal d v).2 = set_aggregator v (Some a')
        ∧ rtc aggregator_step (after_binding (aggregator_for v d) d) a'.
Proof.
  intros Hidx. rewrite (ProcessDeal_unfold d v Hidx). cbn zeta.
  set (a1 := after_binding (aggregator_for v d) d).
  assert (Hstore : ∀ r, ∃ a',
            (sign_and_store r (set_aggregator v (Some a1))).2 = set_aggregator v (Some a')
            ∧ rtc aggregator_step a1 a').
  { intros r.
    destruct (sign_and_store_state r (set_aggregator v (Some a1)) a1 eq_refl)
      as (a' & Ha' & Hrun).
    exists a'. split; [rewrite Ha'; reflexivity|exact Hrun]. }
  destruct (VerifyDeal d true (aggregator_for v d)).1 as [[]|e|q].
  - apply Hstore.
  - destruct (bool_decide (e = errDealAlreadyProcessed)).
    + exists a1. split; reflexivity.
    + apply Hstore.
  - exists a1. split; reflexivity.
Qed.

Lemma verifier_step_cases (v v' : Verifier) :
  verifier_step v v' →
  v' = v
  ∨ ∃ a a', v' = set_aggregator v (Some a')
            ∧ rtc aggregator_step a a'
            ∧ (v_aggregator v = Some a
               ∨ (v_aggregator v = None ∧ is_Some (a_deal a))).
Proof.
  intros [d|r|j].
  - destruct (decide (I (d_SecShare d) = v_index v)) as [Hidx|Hidx].
    + destruct (ProcessDeal_state d v Hidx) as (a' & -> & Hrun). right.
      destruct (v_aggregator v) as [a|] eqn:Ea.
      * exists a, a'. split; [reflexivity|]. split; [|auto].
        eapply rtc_l; [|exact Hrun].
        replace (aggregator_for v d) with a
          by (unfold aggregator_for; rewrite Ea; reflexivity).
        rewrite <- (VerifyDeal_state d true a). constructor.
      * exists (after_binding (aggregator_for v d) d), a'.
        split; [reflexivity|]. split; [exact Hrun|]. right. split; [reflexivity|].
        unfold aggregator_for, after_binding. rewrite Ea. cbn. eauto.
    + rewrite (ProcessDeal_wrong_index d v Hidx). auto.
  - unfold ProcessResponse, with_aggregator.
    destruct (v_aggregator v) as [a|] eqn:Ea; [|auto].
    right. exists a, (verifyResponse r a).2. split.
    + destruct (verifyResponse r a). reflexivity.
    + split; [apply rtc_once; constructor|auto].
  - unfold ProcessJustification, with_aggregator.
    destruct (v_aggregator v) as [a|] eqn:Ea; [|auto].
    right. exists a, (verifyJustification j a).2. split.
    + destruct (verifyJustification j a). reflexivity.
    + split; [apply rtc_once; constructor|auto].
Qed.

Lemma bound_deal_step (v v' : Verifier) (d0 : Deal) :
  bound_deal v = Some d0 → verifier_step v v' →
  bound_deal v' = Some d0 ∧ v_index v' = v_index v.
Proof.
  intros Hb Hstep. unfold bound_deal in Hb.
  destruct (v_aggregator v) as [a|] eqn:Ea; [|discriminate]. cbn in Hb.
  destruct (verifier_step_cases v v' Hstep) as [->|(a1 & a' & -> & Hrun & Hor)].
  - unfold bound_deal. rewrite Ea. auto.
  - destruct Hor as [Ha|[Ha _]]; [|congruence].
    assert (a1 = a) as -> by congruence.
    destruct (run_continues _ _ Hrun) as [_ _ _ _ _ Hd _ _].
    destruct (Hd d0 Hb) as (Hd' & _). split; [exact Hd'|reflexivity].
Qed.

(** X8.  [ProcessDeal] turns away a deal that carries another index than
    the verifier's, and changes nothing.  A verifier that has no aggregator
    binds the first deal that carries its index, whatever [ProcessDeal]
    answers to it; and once a deal is bound it stays bound through every
    sequence of calls, and every further deal that carries the index of the
    verifier is answered with [errDealAlreadyProcessed], with no change of
    state. *)
Theorem X8_only_the_first_deal_is_processed :
  (∀ (d : Deal) (v : Verifier),
     I (d_SecShare d) ≠ v_index v →
     ProcessDeal d v
     = (Failed (errors_New "vss: verifier got wrong index from deal"), v))
  ∧ (∀ (d : Deal) (v : Verifier),
     I (d_SecShare d) = v_index v → v_aggregator v = None →
     bound_deal (ProcessDeal d v).2 = Some d)
  ∧ (∀ (v v' : Verifier) (d0 : Deal),
     bound_deal v = Some d0 → rtc verifier_step v v' →
     bound_deal v' = Some d0
     ∧ ∀ d', I (d_SecShare d') = v_index v →
             ProcessDeal d' v' = (Failed errDealAlreadyProcessed, v')).
Proof.
  split; [exact ProcessDeal_wrong_index|]. split.
  - intros d v Hidx Hnil.
    destruct (ProcessDeal_state d v Hidx) as (a' & -> & Hrun).
    destruct (run_continues _ _ Hrun) as [_ _ _ _ _ Hd _ _].
    unfold bound_deal. cbn. apply Hd.
    unfold aggregator_for, after_binding. rewrite Hnil. reflexivity.
  - intros v v' d0 Hb Hrun.
    assert (Hinv : bound_deal v' = Some d0 ∧ v_index v' = v_index v).
    { induction Hrun as [v|v v1 v' Hstep _ IH]; [auto|].
      destruct (bound_deal_step v v1 d0 Hb Hstep) as [Hb1 Hi1].
      destruct (IH Hb1) as [Hb' Hi']. split; [exact Hb'|congruence]. }
    destruct Hinv as [Hb' Hi']. split; [exact Hb'|].
    intros d' Hidx. unfold bound_deal in Hb'.
    destruct (v_aggregator v') as [a'|] eqn:Ea; [|discriminate]. cbn in Hb'.
    apply (ProcessDeal_later_deal v' a' d' Ea); [rewrite Hb'; eauto|congruence].
Qed.

(** X9.  When [ProcessDeal] returns a response, the deal carried the index
    of the verifier and is now the bound deal; the response carries the
    session identifier recomputed by the verifier and the verifier's
    index; it is an approval when [VerifyDeal] accepted the deal and a
    complaint when [VerifyDeal] returned an error; its signature is the
    Schnorr signature of the verifier over [msgResponse]; and it is stored
    under its index in the aggregator. *)
Theorem X9_ProcessDeal_response :
  ∀ (d : Deal) (v v' : Verifier) (r : Response),
    ProcessDeal d v = (Returned r, v') →
    I (d_SecShare d) = v_index v
    ∧ r_SessionID r = sessionID (v_suite v) (v_dealer v) (v_verifiers v)
                        (d_Commitments d) (Z.of_N (d_T d))
    ∧ r_Index r = Z.to_N (uint32 (v_index v))
    ∧ ((r_Status r = StatusApproval
        ∧ (VerifyDeal d true (aggregator_for v d)).1 = Returned ())
       ∨ (r_Status r = StatusComplaint
          ∧ ∃ e, (VerifyDeal d true (aggregator_for v d)).1 = Failed e
                 ∧ e ≠ errDealAlreadyProcessed))
    ∧ sign_Schnorr (v_suite v) (v_longterm v) (msgResponse r) = Returned (r_Signature r)
    ∧ bound_deal v' = Some d
    ∧ ∃ a', v_aggregator v' = Some a' ∧ a_responses a' !! r_Index r = Some r.
Proof.
  intros d v v' r Hp.
  destruct (decide (I (d_SecShare d) = v_index v)) as [Hidx|Hidx];
    [|rewrite (ProcessDeal_wrong_index d v Hidx) in Hp; discriminate].
  split; [exact Hidx|].
  rewrite (ProcessDeal_unfold d v Hidx) in Hp. cbn zeta in Hp.
  set (a0 := aggregator_for v d) in *.
  set (a1 := after_binding a0 d) in *.
  assert (Hnone : a_deal a0 = None).
  { destruct (a_deal a0) as [d0|] eqn:Ed; [|reflexivity]. exfalso.
    revert Hp. unfold VerifyDeal. rewrite Ed.
    rewrite bool_decide_eq_true_2 by eauto. cbn [andb fst].
    rewrite bool_decide_eq_true_2 by reflexivity. discriminate. }
  assert (Hbound : a_deal a1 = Some d)
    by (unfold a1, after_binding; rewrite Hnone; reflexivity).
  assert (Hstore : ∀ r0 : Response,
            r_Signature r0 = [] →
            sign_and_store r0 (set_aggregator v (Some a1)) = (Returned r, v') →
            r = set_Signature r0 (r_Signature r)
            ∧ sign_Schnorr (v_suite v) (v_longterm v) (msgResponse r0)
              = Returned (r_Signature r)
            ∧ bound_deal v' = Some d
            ∧ ∃ a', v_aggregator v' = Some a' ∧ a_responses a' !! r_Index r0 = Some r).
  { intros r0 Hsig0 Hs.
    rewrite (sign_and_store_cases r0 (set_aggregator v (Some a1)) a1 eq_refl) in Hs.
    cbn [v_suite v_longterm set_aggregator] in Hs.
    destruct (sign_Schnorr _ _ _) as [sig|e|q]; [|discriminate..].
    destruct (addResponse_cases (set_Signature r0 sig) a1)
      as [(_ & Hn & Ha)|(_ & e & Ha)]; rewrite Ha in Hs; cbn [fst snd] in Hs;
      [|discriminate].
    injection Hs as <- <-. cbn [r_Signature set_Signature].
    split; [reflexivity|]. split; [reflexivity|]. split.
    - unfold bound_deal. cbn. exact Hbound.
    - eexists. split; [reflexivity|]. cbn. apply lookup_insert_eq. }
  destruct (VerifyDeal d true a0).1 as [[]|e|q] eqn:Ev; [| |discriminate].
  - destruct (Hstore (approval_of v d) eq_refl Hp) as (Hr & Hsig & Hb & Hst).
    rewrite Hr. cbn [r_SessionID r_Index r_Status set_Signature approval_of msgResponse].
    split; [reflexivity|]. split; [reflexivity|]. split; [left; auto|].
    split; [exact Hsig|]. split; [exact Hb|].
    rewrite Hr in Hst. exact Hst.
  - destruct (bool_decide (e = errDealAlreadyProcessed)) eqn:Ee; [discriminate|].
    apply bool_decide_eq_false in Ee.
    destruct (Hstore (set_Status (approval_of v d) StatusComplaint) eq_refl Hp)
      as (Hr & Hsig & Hb & Hst).
    rewrite Hr.
    cbn [r_SessionID r_Index r_Status set_Signature set_Status approval_of msgResponse].
    split; [reflexivity|]. split; [reflexivity|]. split; [right; eauto|].
    split; [exact Hsig|]. split; [exact Hb|].
    rewrite Hr in Hst. exact Hst.
Qed.

End VerifierRuns.

(** ** The dealer *)

Lemma append_loop {A} (step : Z → result A) (body : Z → list A → result (list A)) :
  (∀ i acc, body i acc = (x ← step i; Returned (acc ++ [x]))) →
  ∀ (k : nat) (i : Z) (acc out : list A),
    for_loop k i body acc = Returned out →
    ∃ xs, out = acc ++ xs ∧ length xs = k
          ∧ ∀ (j : nat) (x : A), xs !! j = Some x → step (i + Z.of_nat j) = Returned x.
Proof.
  intros Hbody. induction k as [|k IH]; intros i acc out Hout.
  - injection Hout as <-. exists []. rewrite app_nil_r.
    split; [reflexivity|]. split; [reflexivity|]. intros j x. rewrite lookup_nil.
    discriminate.
  - rewrite for_loop_S in Hout. apply bind_Returned in Hout as (acc' & Hb & Hout).
    rewrite Hbody in Hb. apply bind_Returned in Hb as (x & Hx & Hb).
    injection Hb as <-.
    apply IH in Hout as (xs & -> & Hlen & Hxs).
    exists (x :: xs). rewrite <- app_assoc. split; [reflexivity|].
    split; [cbn; lia|].
    intros [|j] y; cbn.
    + intros [= <-]. rewrite Z.add_0_r. exact Hx.
    + intros Hy. apply Hxs in Hy. rewrite <- Hy. f_equal. lia.
Qed.

Section DealerConstruction.
Context `{Suite} `{!vss.Share}.
Import vss.

Lemma validT_spec (t : Z) (verifiers : list Point) :
  validT t verifiers = true ↔ 2 <= t <= len verifiers ∧ t < 2 ^ 32.
Proof.
  unfold validT, uint32. rewrite !andb_true_iff, !Z.leb_le, Z.eqb_eq.
  split.
  - intros [[H2 Hn] Hm]. split; [lia|].
    rewrite <- Hm. apply Z.mod_pos_bound. lia.
  - intros [[H2 Hn] Hm]. split; [lia|]. apply Z.mod_small. lia.
Qed.

Lemma validT_T (t : Z) (verifiers : list Point) :
  validT t verifiers = true → Z.of_N (Z.to_N (uint32 t)) = t.
Proof.
  intros Hv. apply validT_spec in Hv as [Ht Hm].
  unfold uint32. rewrite Z.mod_small by lia. lia.
Qed.

(** What [NewDealer] returns, spelled out. *)
Lemma NewDealer_Returned (s : SuiteT) (longterm secret : Secret) (verifiers : list Point)
    (r : Stream) (t : Z) (d : Dealer) :
  NewDealer s longterm secret verifiers r t = Returned d →
  validT t verifiers = true
  ∧ ∃ (f g : PriPoly) (C : SharePubPoly),
      let pub := Point_Mul s None longterm in
      let commitments := (SharePubPoly_Info C).2 in
      let sid := sessionID s pub verifiers commitments t in
      SharePubPoly_Add (PriPoly_Commit f (Point_Base s))
        (PriPoly_Commit g (deriveH s verifiers)) = Returned C
      ∧ dl_suite d = s ∧ dl_long d = longterm ∧ dl_pub d = pub
      ∧ dl_secret d = secret
      ∧ dl_secretCommits d = (SharePubPoly_Info (PriPoly_Commit f (Point_Base s))).2
      ∧ dl_verifiers d = verifiers ∧ dl_t d = t ∧ dl_sessionID d = sid
      ∧ dl_aggregator d = Some (newAggregator s pub verifiers commitments t sid)
      ∧ length (dl_deals d) = length verifiers
      ∧ ∀ (i : nat) (deal : Deal),
          dl_deals d !! i = Some deal →
          sign_Schnorr s longterm
            (msgDeal (new_Deal sid (PriPoly_Eval f (Z.of_nat i)) (PriPoly_Eval g (Z.of_nat i))
                        commitments (Z.to_N (uint32 t))))
          = Returned (d_Signature deal)
          ∧ deal = set_deal_Signature
                     (new_Deal sid (PriPoly_Eval f (Z.of_nat i)) (PriPoly_Eval g (Z.of_nat i))
                        commitments (Z.to_N (uint32 t)))
                     (d_Signature deal).
Proof.
  unfold NewDealer.
  destruct (validT t verifiers) eqn:Ev; cbn [negb]; [|discriminate].
  intros Hd. split; [reflexivity|].
  apply bind_Returned in Hd as ([f r1] & Hf & Hd).
  apply bind_Returned in Hd as ([g r2] & Hg & Hd). cbn [fst snd] in Hd.
  apply bind_Returned in Hd as (C & HC & Hd).
  apply bind_Returned in Hd as (deals & Hdeals & Hd).
  injection Hd as <-. exists f, g, C. cbn zeta.
  cbn [dl_suite dl_long dl_pub dl_secret dl_secretCommits dl_verifiers dl_t
       dl_sessionID dl_aggregator dl_deals].
  split; [exact HC|]. do 9 (split; [reflexivity|]).
  rewrite for_range_length in Hdeals.
  set (pub := Point_Mul s None longterm) in *.
  set (commitments := (SharePubPoly_Info C).2) in *.
  set (sid := sessionID s pub verifiers commitments t) in *.
  eapply (append_loop
            (λ i, let deal := new_Deal sid (PriPoly_Eval f i) (PriPoly_Eval g i)
                                commitments (Z.to_N (uint32 t)) in
                  sig ← sign_Schnorr s longterm (msgDeal deal);
                  Returned (set_deal_Signature deal sig)))
    in Hdeals as (xs & -> & Hlen & Hxs).
  2:{ intros i acc. cbn zeta. destruct (sign_Schnorr _ _ _); reflexivity. }
  cbn [app]. split; [exact Hlen|].
  intros i deal Hi. apply Hxs in Hi. cbn zeta in Hi.
  rewrite Z.add_0_l in Hi.
  apply bind_Returned in Hi as (sig & Hsig & Hi). injection Hi as <-.
  cbn [d_Signature set_deal_Signature]. auto.
Qed.

(** X10.  [NewDealer] refuses a threshold below 2, above the number of
    verifiers or not below [2^32] with the error "dealer: t <t> invalid";
    the threshold [MinimumT(n)] that the package recommends is among those
    refused when there are fewer than three verifiers.  A dealer that
    [NewDealer] returns holds one deal per verifier; each deal carries the
    session identifier of the dealer, the threshold, the commitments of the
    dealer's aggregator and the Schnorr signature of the dealer over
    [msgDeal]; and the dealer's aggregator is new: no deal bound, no
    response stored, its session identifier the hash of the dealer's key,
    the verifiers, the commitments and the threshold. *)
Theorem X10_NewDealer_deals :
  (∀ (s : SuiteT) (longterm secret : Secret) (verifiers : list Point) (r : Stream) (t : Z),
     ¬ (2 <= t <= len verifiers ∧ t < 2 ^ 32) →
     NewDealer s longterm secret verifiers r t
     = Failed (errors_New ("dealer: t " ++ Itoa t ++ " invalid")))
  ∧ (∀ verifiers : list Point,
     len verifiers < 3 → ¬ (2 <= MinimumT (len verifiers) <= len verifiers))
  ∧ (∀ (s : SuiteT) (longterm secret : Secret) (verifiers : list Point) (r : Stream) (t : Z)
       (d : Dealer),
     NewDealer s longterm secret verifiers r t = Returned d →
     2 <= t <= len verifiers ∧ t < 2 ^ 32
     ∧ Dealer_Key d = (longterm, Point_Mul s None longterm)
     ∧ len (Deals d) = len verifiers
     ∧ ∃ a, dl_aggregator d = Some a
            ∧ a = newAggregator s (Point_Mul s None longterm) verifiers (a_commits a) t
                    (Dealer_SessionID d)
            ∧ Dealer_SessionID d
              = sessionID s (Point_Mul s None longterm) verifiers (a_commits a) t
            ∧ ∀ (i : nat) (deal : Deal),
                Deals d !! i = Some deal →
                d_SessionID deal = Dealer_SessionID d
                ∧ Z.of_N (d_T deal) = t
                ∧ d_Commitments deal = a_commits a
                ∧ sign_Schnorr s longterm (msgDeal deal) = Returned (d_Signature deal)).
Proof.
  split; [|split].
  - intros s longterm secret verifiers r t Ht. unfold NewDealer.
    destruct (validT t verifiers) eqn:Ev; [|reflexivity].
    apply validT_spec in Ev. contradiction.
  - intros verifiers Hn. unfold MinimumT. pose proof (len_nonneg verifiers) as Hlen0.
    rewrite Z.quot_div_nonneg by lia.
    intros [H2 _].
    assert ((len verifiers + 1) / 2 < 2) by (apply Z.div_lt_upper_bound; lia). lia.
  - intros s longterm secret verifiers r t d Hd.
    destruct (NewDealer_Returned _ _ _ _ _ _ _ Hd)
      as (Hv & f & g & C & HC & Hs & Hl & Hp & Hsec & Hsc & Hvs & Ht & Hsid & Ha & Hlen
          & Hdeals).
    cbn zeta in *. pose proof (validT_T _ _ Hv) as HT.
    apply validT_spec in Hv as [Hr Hm].
    split; [exact Hr|]. split; [exact Hm|].
    split; [unfold Dealer_Key; rewrite Hl, Hp; reflexivity|].
    split; [unfold Deals, len; rewrite Hlen; reflexivity|].
    eexists. split; [exact Ha|]. unfold Dealer_SessionID. rewrite Hsid.
    cbn [a_commits newAggregator]. split; [reflexivity|]. split; [reflexivity|].
    intros i deal Hi. destruct (Hdeals i deal Hi) as [Hsig Hdeal].
    rewrite Hdeal at 1 2 3 4.
    cbn [d_SessionID d_T d_Commitments set_deal_Signature new_Deal].
    split; [reflexivity|]. split; [exact HT|]. split; [reflexivity|].
    exact Hsig.
Qed.

End DealerConstruction.

Section HonestDealer.
Context `{Suite} `{!vss.Share}.
Import vss.

Lemma NewVerifier_Returned (s : SuiteT) (x : Secret) (dealerKey : Point)
    (verifiers : list Point) (v : Verifier) :
  NewVerifier s x dealerKey verifiers = Returned v →
  v_suite v = s ∧ v_longterm v = x ∧ v_pub v = Point_Mul s None x
  ∧ v_dealer v = dealerKey ∧ v_verifiers v = verifiers ∧ v_aggregator v = None
  ∧ 0 <= v_index v < len verifiers
  ∧ verifiers !! Z.to_nat (v_index v) = Some (Point_Mul s None x).
Proof.
  unfold NewVerifier.
  pose proof (find_index_spec (Point_Mul s None x) verifiers 0) as Hspec.
  destruct (find_index (Point_Mul s None x) verifiers 0) as [k|]; [|discriminate].
  intros [= <-]. cbn. destruct Hspec as (Hk & Hlook & _).
  replace (k - 0) with k in Hlook by lia. repeat split; try lia; auto.
Qed.

Lemma findPub_small (verifiers : list Point) (k : Z) (P : Point) :
  0 <= k < 2 ^ 32 → verifiers !! Z.to_nat k = Some P →
  findPub verifiers (Z.to_N (uint32 k)) = Some P.
Proof.
  intros Hk Hl. unfold findPub, uint32. cbn zeta.
  rewrite Z.mod_small by lia. rewrite Z2N.id by lia.
  pose proof (lookup_lt_Some _ _ _ Hl) as Hlt.
  destruct (len verifiers <=? k) eqn:E; [unfold len in E; lia|]. exact Hl.
Qed.

(** X11.  In a suite with the laws of [share_laws], and with at most [2^32]
    verifiers: a verifier made by [NewVerifier] for the key of a dealer made
    by [NewDealer] over the same verifiers answers the deal that the dealer
    holds at its index with a signed approval that carries the dealer's
    session identifier, and [Dealer.ProcessResponse] accepts that approval,
    stores it, and returns no justification. *)
Theorem X11_honest_deal_is_approved :
  ∀ (s : SuiteT) (longterm secret x : Secret) (verifiers : list Point) (r : Stream)
    (t : Z) (d : Dealer) (v : Verifier),
    share_laws s →
    len verifiers <= 2 ^ 32 →
    NewDealer s longterm secret verifiers r t = Returned d →
    NewVerifier s x (Dealer_Key d).2 verifiers = Returned v →
    ∃ deal,
      Deals d !! Z.to_nat (Verifier_Index v) = Some deal
      ∧ ∀ sig,
          sign_Schnorr s x (msgResponse (approval_of v deal)) = Returned sig →
          let resp := set_Signature (approval_of v deal) sig in
          (∃ v', ProcessDeal deal v = (Returned resp, v') ∧ bound_deal v' = Some deal)
          ∧ r_SessionID resp = Dealer_SessionID d
          ∧ ∃ d' a', Dealer_ProcessResponse resp d = (Returned None, d')
                     ∧ dl_aggregator d' = Some a'
                     ∧ a_responses a' !! r_Index resp = Some resp.
Proof.
  intros s longterm secret x verifiers r t d v Hlaws Hn Hd Hv.
  destruct (NewDealer_Returned _ _ _ _ _ _ _ Hd)
    as (Hvalid & f & g & C & HC & Hs & Hl & Hp & Hsec & Hsc & Hvs & Ht & Hsid & Ha & Hlen
        & Hdeals).
  cbn zeta in *.
  set (pub := Point_Mul s None longterm) in *.
  set (commitments := (SharePubPoly_Info C).2) in *.
  set (sid := sessionID s pub verifiers commitments t) in *.
  unfold Dealer_Key in Hv. cbn [snd] in Hv. rewrite Hp in Hv.
  destruct (NewVerifier_Returned _ _ _ _ _ Hv)
    as (Hvs' & Hvl & Hvp & Hvd & Hvv & Hvn & Hvi & Hvk).
  unfold Verifier_Index.
  destruct (lookup_lt_is_Some_2 (dl_deals d) (Z.to_nat (v_index v))) as [deal Hdeal];
    [unfold len in Hvi; lia|].
  exists deal. split; [exact Hdeal|]. intros sig Hsig. cbn zeta.
  set (resp := set_Signature (approval_of v deal) sig).
  destruct (Hdeals _ _ Hdeal) as [Hdsig Hdeq].
  rewrite Z2Nat.id in Hdsig, Hdeq by lia.
  pose proof (validT_T _ _ Hvalid) as HT.
  assert (Hd_sid : d_SessionID deal = sid) by (rewrite Hdeq; reflexivity).
  assert (Hd_T : Z.of_N (d_T deal) = t) by (rewrite Hdeq; exact HT).
  assert (Hd_C : d_Commitments deal = commitments) by (rewrite Hdeq; reflexivity).
  assert (Hd_f : d_SecShare deal = PriPoly_Eval f (v_index v)) by (rewrite Hdeq; reflexivity).
  assert (Hd_g : d_RndShare deal = PriPoly_Eval g (v_index v)) by (rewrite Hdeq; reflexivity).
  assert (Hd_msg : msgDeal deal
                   = msgDeal (new_Deal sid (PriPoly_Eval f (v_index v))
                                (PriPoly_Eval g (v_index v)) commitments (Z.to_N (uint32 t))))
    by (rewrite Hdeq at 1; reflexivity).
  assert (Hidx : I (d_SecShare deal) = v_index v)
    by (rewrite Hd_f; apply (eval_index s Hlaws)).
  assert (Hr_sid : r_SessionID resp = sid).
  { unfold resp. cbn [r_SessionID set_Signature approval_of].
    rewrite Hvs', Hvd, Hvv, Hd_C, Hd_T. reflexivity. }
  set (a0 := newAggregator s pub verifiers commitments (Z.of_N (d_T deal)) sid).
  assert (Ha0 : aggregator_for v deal = a0).
  { unfold aggregator_for. rewrite Hvn. cbn [default].
    rewrite Hvs', Hvd, Hvv, Hd_C, Hd_sid. reflexivity. }
  assert (Hverify : VerifyDeal deal true a0 = (Returned (), after_binding a0 deal)).
  { apply VerifyDeal_accepts; cbn [a_deal a_verifiers a_suite a_dealer a0 newAggregator].
    - intros [[? [=]] _].
    - rewrite Hd_T. exact Hvalid.
    - reflexivity.
    - rewrite Hd_msg. apply (schnorr_verifies s Hlaws). exact Hdsig.
    - rewrite Hd_f, Hd_g, !(eval_index s Hlaws). reflexivity.
    - rewrite Hidx. exact Hvi.
    - unfold share_opens. rewrite Hd_f, Hd_g, Hd_C, (eval_index s Hlaws).
      apply (commit_opens s Hlaws). exact HC. }
  assert (Hfind : findPub verifiers (Z.to_N (uint32 (v_index v)))
                  = Some (Point_Mul s None x))
    by (apply findPub_small; [lia|exact Hvk]).
  split; [|split; [rewrite Hr_sid, <- Hsid; reflexivity|]].
  - rewrite (ProcessDeal_unfold deal v Hidx). cbn zeta. rewrite Ha0, Hverify. cbn [fst].
    rewrite (sign_and_store_cases _ (set_aggregator v (Some (after_binding a0 deal)))
               (after_binding a0 deal) eq_refl).
    cbn [v_suite v_longterm set_aggregator]. rewrite Hvs', Hvl, Hsig. fold resp.
    destruct (addResponse_cases resp (after_binding a0 deal))
      as [(_ & _ & Hadd)|(Hnot & _)].
    + rewrite Hadd. cbn [fst snd]. eexists. split; [reflexivity|].
      unfold bound_deal. cbn. reflexivity.
    + exfalso. apply Hnot.
      rewrite (proj1 (proj2 (proj2 (proj2 (after_binding_frame a0 deal))))).
      rewrite (proj1 (after_binding_frame a0 deal)).
      cbn [a_verifiers a_responses a0 newAggregator].
      split; [|apply lookup_empty].
      unfold resp. cbn [r_Index set_Signature approval_of]. rewrite Hfind. eauto.
  - set (agg := newAggregator s pub verifiers commitments t sid) in *.
    unfold Dealer_ProcessResponse. rewrite Ha.
    destruct (verifyResponse_cases resp agg) as [(_ & _ & _ & Hacc)|(Hnot & _)].
    + rewrite Hacc. cbn [r_Status resp set_Signature approval_of].
      rewrite bool_decide_eq_true_2 by reflexivity.
      eexists _, _. split; [reflexivity|]. split; [reflexivity|].
      cbn. apply lookup_insert_eq.
    + exfalso. apply Hnot. cbn [a_sid a_verifiers a_suite a_responses agg newAggregator].
      split; [exact Hr_sid|]. split; [|apply lookup_empty].
      exists (Point_Mul s None x). split.
      * unfold resp. cbn [r_Index set_Signature approval_of]. exact Hfind.
      * apply (schnorr_verifies s Hlaws).
        unfold resp at 2. cbn [r_Signature set_Signature].
        rewrite <- Hsig. unfold resp. reflexivity.
Qed.

End HonestDealer.

Section DealerAnswers.
Context `{Suite} `{!vss.Share}.
Import vss.

Lemma set_dealer_aggregator_same (d : Dealer) (a : aggregator) :
  dl_aggregator d = Some a → set_dealer_aggregator d (Some a) = d.
Proof. destruct d. cbn. intros ->. reflexivity. Qed.

Lemma NewDealer_ready (s : SuiteT) (longterm secret : Secret) (verifiers : list Point)
    (r : Stream) (t : Z) (d : Dealer) :
  NewDealer s longterm secret verifiers r t = Returned d → dealer_ready d.
Proof.
  intros Hd.
  destruct (NewDealer_Returned _ _ _ _ _ _ _ Hd)
    as (_ & f & g & C & _ & _ & _ & _ & _ & _ & Hvs & _ & _ & Ha & Hlen & _).
  cbn zeta in *. eexists. split; [exact Ha|]. rewrite Hvs. cbn.
  split; [reflexivity|]. unfold len. rewrite Hlen. reflexivity.
Qed.

(** The justification the dealer makes for the response [r], before and
    after signing. *)
Lemma Dealer_ProcessResponse_cases (r : Response) (d : Dealer) (a : aggregator) :
  dl_aggregator d = Some a →
  a_verifiers a = dl_verifiers d →
  len (dl_deals d) = len (dl_verifiers d) →
  match (verifyResponse r a).1 with
  | Returned _ =>
      let d' := set_dealer_aggregator d
                  (Some (set_responses a (<[r_Index r := r]> (a_responses a)))) in
      if bool_decide (r_Status r = StatusApproval)
      then Dealer_ProcessResponse r d = (Returned None, d')
      else ∃ deal,
             dl_deals d !! N.to_nat (r_Index r) = Some deal
             ∧ let j := {| j_SessionID := dl_sessionID d; j_Index := r_Index r;
                           j_Deal := deal; j_Signature := [] |} in
               Dealer_ProcessResponse r d
               = match sign_Schnorr (dl_suite d) (dl_long d) (msgJustification j) with
                 | Returned sig =>
                     (Returned (Some {| j_SessionID := dl_sessionID d;
                                        j_Index := r_Index r; j_Deal := deal;
                                        j_Signature := sig |}), d')
                 | Failed e => (Failed e, d')
                 | Panicked q => (Panicked q, d')
                 end
  | Failed e => Dealer_ProcessResponse r d = (Failed e, d)
  | Panicked q => False
  end.
Proof.
  intros Ha Hvs Hlen. unfold Dealer_ProcessResponse. rewrite Ha.
  destruct (verifyResponse_cases r a) as [(_ & (pub & Hp & _) & _ & ->)|(_ & e & ->)];
    cbn [fst].
  2:{ rewrite (set_dealer_aggregator_same d a Ha). reflexivity. }
  cbn zeta. destruct (bool_decide (r_Status r = StatusApproval)); [reflexivity|].
  cbn [dl_deals dl_sessionID dl_suite dl_long set_dealer_aggregator].
  assert (Hlt : Z.of_N (r_Index r) < len (dl_deals d)).
  { rewrite Hlen, <- Hvs. apply findPub_Some_lt. rewrite Hp. eauto. }
  destruct (index_in_range (dl_deals d) (Z.of_N (r_Index r))) as (deal & Hidx & Hl);
    [lia|].
  replace (Z.to_nat (Z.of_N (r_Index r))) with (N.to_nat (r_Index r)) in Hl by lia.
  exists deal. split; [exact Hl|].
  rewrite Hidx. cbn [j_SessionID j_Index j_Deal].
  destruct (sign_Schnorr _ _ _); reflexivity.
Qed.


(** X13.  In a suite with the laws of [share_laws]: the justification that a
    dealer made by [NewDealer] returns for a response is accepted by every
    aggregator of the session (same suite, dealer key and verifiers, and,
    once it has a deal bound, the dealer's session identifier) that holds a
    complaint under the index of that response; the complaint becomes a
    justified complaint, and [badDealer] is not set by it. *)
Theorem X13_honest_justification_is_accepted :
  ∀ (s : SuiteT) (longterm secret : Secret) (verifiers : list Point) (rnd : Stream)
    (t : Z) (d d' : Dealer) (c c' : Response) (j : Justification) (a : aggregator),
    share_laws s →
    NewDealer s longterm secret verifiers rnd t = Returned d →
    Dealer_ProcessResponse c d = (Returned (Some j), d') →
    a_suite a = s → a_dealer a = (Dealer_Key d).2 → a_verifiers a = verifiers →
    (is_Some (a_deal a) → a_sid a = Dealer_SessionID d) →
    a_responses a !! r_Index c = Some c' →
    r_Status c' = StatusComplaint →
    ∃ a', verifyJustification j a = (Returned (), a')
          ∧ a_responses a' !! r_Index c = Some (set_Status c' statusJustified)
          ∧ a_badDealer a' = a_badDealer a.
Proof.
  intros s longterm secret verifiers rnd t d d' c c' j a Hlaws Hd Hj Has Had Hav Hsid
    Hc Hst.
  destruct (NewDealer_Returned _ _ _ _ _ _ _ Hd)
    as (Hvalid & f & g & C & HC & Hs & Hl & Hp & Hsec & Hsc & Hvs & Ht & Hdsid & Ha & Hlen
        & Hdeals).
  cbn zeta in *.
  set (pub := Point_Mul s None longterm) in *.
  set (commitments := (SharePubPoly_Info C).2) in *.
  set (sid := sessionID s pub verifiers commitments t) in *.
  set (agg := newAggregator s pub verifiers commitments t sid) in *.
  assert (Hready : len (dl_deals d) = len (dl_verifiers d))
    by (unfold len; rewrite Hlen, Hvs; reflexivity).
  pose proof (Dealer_ProcessResponse_cases c d agg Ha (eq_sym Hvs) Hready) as Hcases.
  destruct (verifyResponse_cases c agg) as [(_ & (P & HP & _) & _ & Hacc)|(_ & e & Hacc)];
    rewrite Hacc in Hcases; cbn [fst] in Hcases; [|rewrite Hcases in Hj; discriminate].
  cbn zeta in Hcases.
  destruct (bool_decide (r_Status c = StatusApproval));
    [rewrite Hcases in Hj; discriminate|].
  destruct Hcases as (deal & Hdeal & Hcases). rewrite Hcases in Hj.
  destruct (sign_Schnorr _ _ _) as [sig|e|q]; [|discriminate..].
  injection Hj as <- _.
  destruct (Hdeals _ _ Hdeal) as [Hdsig Hdeq].
  set (i := Z.of_nat (N.to_nat (r_Index c))) in *.
  pose proof (validT_T _ _ Hvalid) as HT.
  assert (Hd_sid : d_SessionID deal = sid) by (rewrite Hdeq; reflexivity).
  assert (Hd_T : Z.of_N (d_T deal) = t) by (rewrite Hdeq; exact HT).
  assert (Hd_C : d_Commitments deal = commitments) by (rewrite Hdeq; reflexivity).
  assert (Hd_f : d_SecShare deal = PriPoly_Eval f i) by (rewrite Hdeq; reflexivity).
  assert (Hd_g : d_RndShare deal = PriPoly_Eval g i) by (rewrite Hdeq; reflexivity).
  assert (Hd_msg : msgDeal deal
                   = msgDeal (new_Deal sid (PriPoly_Eval f i) (PriPoly_Eval g i)
                                commitments (Z.to_N (uint32 t))))
    by (rewrite Hdeq at 1; reflexivity).
  assert (Hin : is_Some (findPub (a_verifiers a) (r_Index c))).
  { rewrite Hav. cbn [a_verifiers agg newAggregator] in HP. rewrite HP. eauto. }
  assert (Hi : 0 <= i < len verifiers).
  { apply findPub_Some_lt in Hin. rewrite Hav in Hin. unfold i. lia. }
  assert (Hverify : VerifyDeal deal false a = (Returned (), after_binding a deal)).
  { apply VerifyDeal_accepts.
    - intros [_ [=]].
    - rewrite Hd_T, Hav. exact Hvalid.
    - unfold after_binding. destruct (a_deal a) as [d0|] eqn:Ed; [|reflexivity].
      rewrite Hsid by eauto. unfold Dealer_SessionID. rewrite Hdsid, Hd_sid. reflexivity.
    - rewrite Has, Had. unfold Dealer_Key. cbn [snd]. rewrite Hp, Hd_msg.
      apply (schnorr_verifies s Hlaws). exact Hdsig.
    - rewrite Hd_f, Hd_g, !(eval_index s Hlaws). reflexivity.
    - rewrite Hd_f, (eval_index s Hlaws), Hav. exact Hi.
    - unfold share_opens. rewrite Has, Hav, Hd_f, Hd_g, Hd_C, (eval_index s Hlaws).
      apply (commit_opens s Hlaws). exact HC. }
  unfold verifyJustification. cbn [j_Index j_Deal].
  rewrite (bool_decide_eq_true_2 _ Hin), Hc, (bool_decide_eq_true_2 _ Hst). cbn [negb].
  rewrite Hverify. eexists. split; [reflexivity|].
  cbn [a_responses a_badDealer set_responses].
  split; [apply lookup_insert_eq|apply after_binding_frame].
Qed.

(** X14.  The dealer releases the commitment of the secret and the
    commitments of its polynomial, and the verifier releases its deal,
    exactly when [DealCertified] is true of their aggregator; until then
    each of them returns nil.  The test of [EnoughApprovals] that precedes
    the one of [DealCertified] in the three methods adds nothing to it. *)
Theorem X14_released_when_certified :
  (∀ (d : Dealer) (a : aggregator),
     dl_aggregator d = Some a →
     SecretCommit d
     = Returned (if DealCertified a
                 then Some (Point_Mul (dl_suite d) None (dl_secret d)) else None)
     ∧ Commits d
       = Returned (if DealCertified a then Some (dl_secretCommits d) else None))
  ∧ (∀ (v : Verifier) (a : aggregator),
     v_aggregator v = Some a →
     Verifier_Deal v = Returned (if DealCertified a then a_deal a else None)).
Proof.
  assert (Hgate : ∀ a, negb (EnoughApprovals a) || negb (DealCertified a)
                       = negb (DealCertified a)).
  { intros a. unfold DealCertified. cbn zeta.
    destruct (EnoughApprovals a); reflexivity. }
  split.
  - intros d a Ha. unfold SecretCommit, Commits. rewrite Ha, Hgate.
    destruct (DealCertified a); split; reflexivity.
  - intros v a Ha. unfold Verifier_Deal. rewrite Ha, Hgate.
    destruct (DealCertified a); reflexivity.
Qed.

(** The loop of [RecoverSecret], from the deal after the prefix [pre]. *)
Lemma RecoverSecret_loop (first : Deal) (pre post : list Deal) (acc : list PriShare) :
  head (pre ++ post) = Some first →
  for_loop (length post) (Z.of_nat (length pre))
    (λ i shares,
       deal ← index (pre ++ post) i;
       first ← index (pre ++ post) 0;
       if bytes_Equal (d_SessionID deal) (d_SessionID first)
       then Returned (shares ++ [d_SecShare deal])
       else Failed (errors_New "vss: all deals need to have same session id")) acc
  = if bool_decide (Forall (λ d, d_SessionID d = d_SessionID first) post)
    then Returned (acc ++ (d_SecShare <$> post))
    else Failed (errors_New "vss: all deals need to have same session id").
Proof.
  revert pre acc. induction post as [|d post IH]; intros pre acc Hhead.
  - cbn [length for_loop]. rewrite bool_decide_eq_true_2 by constructor.
    rewrite app_nil_r. reflexivity.
  - specialize (IH (pre ++ [d]) (acc ++ [d_SecShare d])).
    rewrite <- app_assoc in IH. cbn [app] in IH.
    rewrite length_app in IH. cbn [length] in IH.
    replace (Z.of_nat (length pre + 1)) with (Z.of_nat (length pre) + 1) in IH by lia.
    specialize (IH Hhead).
    assert (Hd : index (pre ++ d :: post) (Z.of_nat (length pre)) = Returned d)
      by (apply index_lookup; rewrite lookup_app_r, Nat.sub_diag by lia; reflexivity).
    assert (Hfirst : index (pre ++ d :: post) 0 = Returned first).
    { apply (index_lookup _ 0%nat). rewrite <- head_lookup. exact Hhead. }
    set (body := λ (i : Z) (shares : list PriShare), _) in *.
    cbn [length]. rewrite for_loop_S.
    assert (Hbody : body (Z.of_nat (length pre)) acc
                    = if bool_decide (d_SessionID d = d_SessionID first)
                      then Returned (acc ++ [d_SecShare d])
                      else Failed (errors_New "vss: all deals need to have same session id")).
    { unfold body. rewrite Hd. cbn [mbind result_bind]. rewrite Hfirst. reflexivity. }
    rewrite Hbody.
    destruct (decide (d_SessionID d = d_SessionID first)) as [Heq|Hne].
    + rewrite (bool_decide_eq_true_2 _ Heq). cbn [mbind result_bind]. rewrite IH.
      rewrite fmap_cons, <- app_assoc. cbn [app].
      destruct (decide (Forall (λ d0, d_SessionID d0 = d_SessionID first) post))
        as [Hall|Hall].
      * rewrite !bool_decide_eq_true_2; [reflexivity|constructor; assumption|assumption].
      * rewrite !bool_decide_eq_false_2; [reflexivity| |assumption].
        intros Hc. apply Forall_cons in Hc as [_ Hc]. contradiction.
    + rewrite (bool_decide_eq_false_2 _ Hne). cbn [mbind result_bind].
      rewrite bool_decide_eq_false_2; [reflexivity|].
      intros Hc. apply Forall_cons in Hc as [Hc _]. contradiction.
Qed.

(** X15.  [RecoverSecret] looks at nothing but the session identifiers: it
    returns the error "all deals need to have same session id" exactly when
    some deal carries another session identifier than the first one, and
    otherwise hands the secret shares of the deals, in their order, to
    [share.RecoverSecret] with [t] and [n]; with no deal at all it hands
    over no share. *)
Theorem X15_RecoverSecret_session_check :
  (∀ (s : SuiteT) (n t : Z),
     RecoverSecret s [] n t = share_RecoverSecret s [] t n)
  ∧ (∀ (s : SuiteT) (first : Deal) (rest : list Deal) (n t : Z),
     RecoverSecret s (first :: rest) n t
     = if bool_decide (Forall (λ d, d_SessionID d = d_SessionID first) rest)
       then share_RecoverSecret s (d_SecShare <$> first :: rest) t n
       else Failed (errors_New "vss: all deals need to have same session id")).
Proof.
  split; [reflexivity|].
  intros s first rest n t. unfold RecoverSecret.
  rewrite for_range_length.
  pose proof (RecoverSecret_loop first [] (first :: rest) [] eq_refl) as Hloop.
  cbn [app] in Hloop. change (Z.of_nat (length [])) with (Z.of_nat 0) in Hloop.
  rewrite Hloop.
  destruct (decide (Forall (λ d, d_SessionID d = d_SessionID first) rest)) as [Hall|Hall].
  - rewrite !bool_decide_eq_true_2; [reflexivity|assumption|constructor; auto].
  - rewrite !bool_decide_eq_false_2; [reflexivity|assumption|].
    intros Hc. apply Forall_cons in Hc as [_ Hc]. contradiction.
Qed.

End DealerAnswers.

Section BeforeTheDeal.
Context `{Suite}.
Import vss.

(** X16.  A verifier as [NewVerifier] returns it has no aggregator:
    [ProcessResponse], [ProcessJustification], [Deal] and [SessionID] all
    panic on a nil pointer until a deal was processed.  Once [ProcessDeal]
    went past the index check, [SessionID] returns the session identifier
    that the deal carried and [Deal] returns without a panic. *)
Theorem X16_verifier_needs_a_deal_first :
  ∀ (s : SuiteT) (x : Secret) (dealerKey : Point) (verifiers : list Point) (v : Verifier),
    NewVerifier s x dealerKey verifiers = Returned v →
    (∀ r, ProcessResponse r v = (Panicked NilDereference, v))
    ∧ (∀ j, ProcessJustification j v = (Panicked NilDereference, v))
    ∧ Verifier_Deal v = Panicked NilDereference
    ∧ Verifier_SessionID v = Panicked NilDereference
    ∧ ∀ d, I (d_SecShare d) = Verifier_Index v →
           Verifier_SessionID (ProcessDeal d v).2 = Returned (d_SessionID d)
           ∧ ∃ held, Verifier_Deal (ProcessDeal d v).2 = Returned held.
Proof.
  intros s x dealerKey verifiers v Hv.
  assert (Hnil : v_aggregator v = None).
  { revert Hv. unfold NewVerifier. destruct (find_index _ _ _); [|discriminate].
    intros [= <-]. reflexivity. }
  split; [|split; [|split; [|split]]].
  - intros r. unfold ProcessResponse, with_aggregator. rewrite Hnil. reflexivity.
  - intros j. unfold ProcessJustification, with_aggregator. rewrite Hnil. reflexivity.
  - unfold Verifier_Deal. rewrite Hnil. reflexivity.
  - unfold Verifier_SessionID. rewrite Hnil. reflexivity.
  - intros d Hidx. unfold Verifier_Index in Hidx.
    destruct (ProcessDeal_state d v Hidx) as (a' & -> & Hrun).
    destruct (run_continues _ _ Hrun) as [_ _ _ _ _ Hd _ _].
    destruct (Hd d) as (_ & Hsid & _).
    { unfold aggregator_for, after_binding. rewrite Hnil. reflexivity. }
    unfold Verifier_SessionID, Verifier_Deal. cbn [v_aggregator set_aggregator].
    split.
    + rewrite Hsid. unfold aggregator_for, after_binding. rewrite Hnil. reflexivity.
    + destruct (negb (EnoughApprovals a') || negb (DealCertified a')); eauto.
Qed.

End BeforeTheDeal.

(** ** The Promise: shares, signatures and the state *)

Section RevealedShares.
Context `{Suite}.
Import promise.

(** What [RevealShare] returns: the slot under the mask of the insurer. *)
Lemma RevealShare_Returned (p : Promise) (i : Z) (kp : KeyPair) (share : Secret) :
  RevealShare p i kp = Returned share ↔
  0 <= i
  ∧ decrypt p i (Point_Mul (p_suite p) (Some (p_pubKey p)) (kp_Secret kp)) = Some share.
Proof.
  unfold RevealShare. cbn zeta. rewrite decrypt_Some. split.
  - intros Hr. apply bind_Returned in Hr as (mask & Hm & Hr).
    apply bind_Returned in Hr as (sec & Hs & Hr). injection Hr as <-.
    apply index_Returned in Hs as [Hi Hs]. eauto 10.
  - intros (Hi & mask & sec & Hm & Hs & ->). rewrite Hm. cbn [mbind result_bind].
    rewrite (proj2 (index_Returned _ _ _) (conj Hi Hs)). reflexivity.
Qed.

(** The slot of an honest insurer in a promise that [ConstructPromise]
    returned: it decrypts to a share that passes the check. *)
Lemma honest_slot (secretPair longPair : KeyPair) (t r : Z) (insurers : list Point)
    (rand : Stream) (p : Promise) (i : Z) (kp : KeyPair) :
  suite_laws (kp_Suite secretPair) →
  honest_key (kp_Suite secretPair) longPair →
  ConstructPromise secretPair longPair t r insurers rand = Returned p →
  0 <= i < p_n p →
  insurers !! Z.to_nat i = Some (kp_Public kp) →
  honest_key (kp_Suite secretPair) kp →
  ∃ share,
    decrypt p i (Point_Mul (p_suite p) (Some (p_pubKey p)) (kp_Secret kp)) = Some share
    ∧ passes_check p i share = true.
Proof.
  intros Hlaws Hlong Hc Hi Hins Hkp.
  unfold ConstructPromise in Hc.
  destruct ((t <=? r) && (r <=? len insurers)); cbn [negb] in Hc; [|discriminate].
  destruct (bool_decide (kp_Suite longPair = kp_Suite secretPair));
    cbn [negb] in Hc; [|discriminate].
  apply bind_Returned in Hc as (pripoly & Hpick & Hc).
  apply bind_Returned in Hc as (prishares & Hsplit & Hc).
  apply bind_Returned in Hc as (pubPoly & Hcommit & Hc).
  apply bind_Returned in Hc as (secrets & Hloop & Hc).
  injection Hc as <-. cbn [p_n] in Hi.
  set (s := kp_Suite secretPair) in *.
  cbn [p_n p_insurers p_suite p_pubKey].
  unfold for_range in Hloop.
  pose proof (encrypt_loop_length _ _ _ _ _ _ _ _ Hloop) as Hlen.
  simpl in Hlen.
  destruct (lookup_lt_is_Some_2 secrets (Z.to_nat i)) as [sec Hsec];
    [unfold len in *; lia|].
  destruct (encrypt_loop s (kp_Secret longPair) insurers prishares _ 0 [] secrets
              eq_refl Hloop _ _ Hsec) as [[Hlt _]|[_ (ins & mask & share & Hi' & Hmask & Hsh & ->)]];
    [lia|].
  rewrite Hins in Hi'. injection Hi' as <-.
  exists share. split.
  - apply decrypt_Some. exists mask, (Secret_Add s share mask).
    cbn [p_suite p_secrets]. split; [|split].
    + rewrite Hlong, Hkp in *. rewrite (dh_agree s Hlaws). exact Hmask.
    + exact Hsec.
    + symmetry. apply (add_sub s Hlaws).
  - unfold passes_check. cbn [p_suite p_pubPoly].
    rewrite <- (Z2Nat.id i) by lia.
    exact (shares_check s Hlaws _ _ _ _ _ _ _ _ _ Hpick Hsplit Hcommit Hsh).
Qed.

(** X17.  The share that [RevealShare] returns for the insurer recorded at
    index [i] passes [VerifyRevealedShare] exactly when [VerifyShare]
    accepts that insurer at [i]; and on a promise that [ConstructPromise]
    returned for an honest promiser, in a suite with the laws of
    [suite_laws], every honest insurer reveals a share that
    [VerifyRevealedShare] accepts. *)
Theorem X17_revealed_share_is_the_verified_share :
  (∀ (p : Promise) (i : Z) (kp : KeyPair) (share : Secret),
     p_insurers p !! Z.to_nat i = Some (kp_Public kp) →
     RevealShare p i kp = Returned share →
     (VerifyRevealedShare p i share = Returned () ↔ VerifyShare p i kp = Returned ()))
  ∧ (∀ (secretPair longPair : KeyPair) (t r : Z) (insurers : list Point) (rand : Stream)
       (p : Promise) (i : Z) (kp : KeyPair),
     suite_laws (kp_Suite secretPair) →
     honest_key (kp_Suite secretPair) longPair →
     ConstructPromise secretPair longPair t r insurers rand = Returned p →
     0 <= i < p_n p →
     insurers !! Z.to_nat i = Some (kp_Public kp) →
     honest_key (kp_Suite secretPair) kp →
     ∃ share, RevealShare p i kp = Returned share
              ∧ VerifyRevealedShare p i share = Returned ()).
Proof.
  split.
  - intros p i kp share Hins Hr.
    apply RevealShare_Returned in Hr as [Hi Hdec].
    rewrite VerifyShare_Returned. unfold VerifyRevealedShare.
    destruct ((i <? 0) || (p_n p <=? i)) eqn:Eg.
    + apply range_guard_true in Eg. split; [discriminate|]. intros (Hr & _). lia.
    + apply range_guard in Eg.
      destruct (PubPoly_Check (p_suite p) (p_pubPoly p) i share) eqn:Ec; cbn [negb].
      * split; [|reflexivity]. intros _. split; [exact Eg|]. split; [exact Hins|].
        exists share. split; [exact Hdec|exact Ec].
      * split; [discriminate|]. intros (_ & _ & share' & Hdec' & Hc).
        rewrite Hdec in Hdec'. injection Hdec' as <-.
        unfold passes_check in Hc. congruence.
  - intros secretPair longPair t r insurers rand p i kp Hlaws Hlong Hc Hi Hins Hkp.
    destruct (honest_slot _ _ _ _ _ _ _ _ _ Hlaws Hlong Hc Hi Hins Hkp)
      as (share & Hdec & Hpass).
    exists share. split; [apply RevealShare_Returned; split; [lia|exact Hdec]|].
    unfold VerifyRevealedShare. rewrite (proj2 (range_guard _ _) Hi).
    unfold passes_check in Hpass. rewrite Hpass. reflexivity.
Qed.

(** X18.  The signature of an insurer covers no part of the promise and not
    its index: [Sign] returns the same signature whatever the promise and
    the index, and a signature that [VerifySignature] accepts at an index
    of one promise is accepted at every index of every promise that holds
    the same insurer key there. *)
Theorem X18_signature_covers_no_promise :
  (∀ (p p' : Promise) (i i' : Z) (kp : KeyPair) (rand : Stream),
     Sign p i kp rand = Sign p' i' kp rand)
  ∧ (∀ (p p' : Promise) (i i' : Z) (sig : PromiseSignature),
     VerifySignature p i sig = Returned () →
     0 <= i' < p_n p' →
     p_insurers p' !! Z.to_nat i' = p_insurers p !! Z.to_nat i →
     VerifySignature p' i' sig = Returned ()).
Proof.
  split; [reflexivity|].
  intros p p' i i' sig Hv Hi' Hins. unfold VerifySignature, verifySignature in *.
  destruct ((i <? 0) || (p_n p <=? i)); [discriminate|].
  rewrite (proj2 (range_guard _ _) Hi').
  destruct (sig_signature sig) as [signature|]; [|discriminate].
  apply bind_Returned in Hv as (ins & Hidx & Hv).
  apply index_Returned in Hidx as [Hi Hl]. rewrite <- Hins in Hl.
  rewrite (proj2 (index_Returned _ _ _) (conj (proj1 Hi') Hl)). exact Hv.
Qed.

End RevealedShares.

Section PromiseIdentity.
Context `{Suite}.
Import promise.

(** The loop of [Equal] answers true only when every pair it looked at is a
    pair of equal entries. *)
Lemma Equal_loop_true (xs ys : list Secret) (is1 is2 : list Point) (m : nat) :
  ∀ (j : nat) (ok : bool),
    for_loop m (Z.of_nat j)
      (λ i (ok : bool),
         if negb ok then Returned false else
         s1 ← index xs i; s2 ← index ys i;
         if negb (bool_decide (s1 = s2)) then Returned false else
         i1 ← index is1 i; i2 ← index is2 i;
         Returned (bool_decide (i1 = i2))) ok
    = Returned true →
    ok = true
    ∧ ∀ i : nat, (j <= i < j + m)%nat →
        (∃ x, xs !! i = Some x ∧ ys !! i = Some x)
        ∧ (∃ y, is1 !! i = Some y ∧ is2 !! i = Some y).
Proof.
  induction m as [|m IH]; intros j ok Hloop.
  - injection Hloop as ->. split; [reflexivity|]. intros i Hi. lia.
  - rewrite for_loop_S in Hloop. apply bind_Returned in Hloop as (ok' & Hbody & Hloop).
    replace (Z.of_nat j + 1) with (Z.of_nat (S j)) in Hloop by lia.
    apply IH in Hloop as [-> Hrest].
    destruct ok; cbn [negb] in Hbody; [|discriminate].
    split; [reflexivity|].
    apply bind_Returned in Hbody as (s1 & Hs1 & Hbody).
    apply bind_Returned in Hbody as (s2 & Hs2 & Hbody).
    destruct (bool_decide (s1 = s2)) eqn:Es; cbn [negb] in Hbody; [|discriminate].
    apply bool_decide_eq_true in Es as <-.
    apply bind_Returned in Hbody as (i1 & Hi1 & Hbody).
    apply bind_Returned in Hbody as (i2 & Hi2 & Hbody).
    injection Hbody as Hi12. apply bool_decide_eq_true in Hi12 as <-.
    apply index_Returned in Hs1 as [_ Hs1]. apply index_Returned in Hs2 as [_ Hs2].
    apply index_Returned in Hi1 as [_ Hi1]. apply index_Returned in Hi2 as [_ Hi2].
    rewrite Nat2Z.id in *.
    intros i Hi. destruct (decide (i = j)) as [->|Hne]; [eauto 10|].
    apply Hrest. lia.
Qed.

Lemma list_eq_prefix {A} (xs ys : list A) (n : nat) :
  length xs = n → length ys = n →
  (∀ i, (i < n)%nat → ∃ x, xs !! i = Some x ∧ ys !! i = Some x) →
  xs = ys.
Proof.
  intros Hx Hy Hall. apply list_eq. intros i.
  destruct (decide (i < n)%nat) as [Hi|Hi].
  - destruct (Hall i Hi) as (x & -> & ->). reflexivity.
  - rewrite !lookup_ge_None_2 by lia. reflexivity.
Qed.

(** X19.  The identifier of a promise is not part of the message:
    [UnmarshalBinary] leaves the identifier and the suite of its receiver
    as they were, and [Equal] does not look at the identifier.  On two
    promises whose slices have the length they announce, [Equal] is true
    exactly when [n], the suite, [t], [r], the promiser's key, the public
    polynomial, the insurers and the secrets are equal. *)
Theorem X19_identifier_is_not_transmitted :
  (∀ (p0 p : Promise) (buf : list byte),
     UnmarshalBinary p0 buf = Returned p → Id p = Id p0 ∧ p_suite p = p_suite p0)
  ∧ (∀ p p2 : Promise,
     len (p_insurers p) = p_n p → len (p_secrets p) = p_n p →
     len (p_insurers p2) = p_n p2 → len (p_secrets p2) = p_n p2 →
     (Equal p p2 = Returned true ↔
      p_n p2 = p_n p ∧ p_suite p2 = p_suite p ∧ p_t p2 = p_t p ∧ p_r p2 = p_r p
      ∧ p_pubKey p2 = p_pubKey p ∧ p_pubPoly p2 = p_pubPoly p
      ∧ p_insurers p2 = p_insurers p ∧ p_secrets p2 = p_secrets p)).
Proof.
  split.
  - intros p0 p buf Hu. unfold UnmarshalBinary in Hu. cbn zeta in Hu.
    repeat (apply bind_Returned in Hu as (? & _ & Hu)).
    injection Hu as <-. split; reflexivity.
  - intros p p2 Hi Hs Hi2 Hs2. split.
    + unfold Equal.
      destruct (p_n p =? p_n p2) eqn:En; cbn [negb]; [|discriminate].
      apply Z.eqb_eq in En.
      destruct (bool_decide (p_suite p = p_suite p2)) eqn:Esu; cbn [negb];
        [|discriminate].
      apply bool_decide_eq_true in Esu.
      intros He. apply bind_Returned in He as (ok & Hloop & He).
      unfold for_range in Hloop. rewrite Z.sub_0_r in Hloop.
      destruct ok; cbn [negb] in He; [|discriminate]. injection He as He.
      change 0 with (Z.of_nat 0) in Hloop at 1.
      apply (Equal_loop_true _ _ _ _ _ 0%nat) in Hloop as [_ Hall].
      rewrite !andb_true_iff, !Z.eqb_eq in He.
      destruct He as [[[Ht Hr] Hk] Hp].
      apply bool_decide_eq_true in Hk, Hp. unfold len in *.
      repeat split; try congruence.
      * symmetry. apply (list_eq_prefix _ _ (Z.to_nat (p_n p))); [lia..|].
        intros i Hlt. apply Hall. lia.
      * symmetry. apply (list_eq_prefix _ _ (Z.to_nat (p_n p))); [lia..|].
        intros i Hlt. apply Hall. lia.
    + intros (Hn & Hsu & Ht & Hr & Hk & Hp & Hins & Hsec).
      apply Equal_same_fields; assumption.
Qed.

End PromiseIdentity.

Section FreshState.
Context `{Suite}.
Import promise.

Lemma index_replicate {A} (x : A) (n : nat) (i : Z) :
  0 <= i < Z.of_nat n → index (replicate n x) i = Returned x.
Proof.
  intros Hi. apply index_Returned. split; [lia|].
  apply lookup_replicate_2. lia.
Qed.

Lemma fresh_body (p : Promise) (n : nat) (shares : list (option Secret)) (i acc : Z) :
  0 <= i < Z.of_nat n →
  PromiseCertified_body {| ps_Promise := p; ps_PriShares := shares;
                           ps_signatures := replicate n None;
                           ps_blames := replicate n None |} i acc
  = Returned acc.
Proof.
  intros Hi. unfold PromiseCertified_body. cbn [ps_signatures ps_blames].
  rewrite !index_replicate by lia. reflexivity.
Qed.

Lemma fresh_loop (p : Promise) (n : nat) (shares : list (option Secret)) (k : nat) :
  ∀ (j : nat) (acc : Z),
    (j + k <= n)%nat →
    for_loop k (Z.of_nat j)
      (PromiseCertified_body {| ps_Promise := p; ps_PriShares := shares;
                                ps_signatures := replicate n None;
                                ps_blames := replicate n None |}) acc
    = Returned acc.
Proof.
  induction k as [|k IH]; intros j acc Hj; [reflexivity|].
  rewrite for_loop_S, fresh_body by lia. cbn [mbind result_bind].
  replace (Z.of_nat j + 1) with (Z.of_nat (S j)) by lia. apply IH. lia.
Qed.

(** X20.  [Init] on a promise that [verifyPromise] accepts returns a state
    with [n] empty signature slots and [n] empty blame slots, and that state
    is certified exactly when the promise asks for no signature: with
    [r >= 1], [PromiseCertified] returns "Not enough signatures yet to be
    certified", and with [r <= 0] it returns nil although nobody has
    signed. *)
Theorem X20_fresh_state :
  ∀ p : Promise,
    verifyPromise p = Returned () →
    ∃ ps, Init p = Returned ps
          ∧ ps_Promise ps = p
          ∧ ps_signatures ps = replicate (length (p_insurers p)) None
          ∧ ps_blames ps = replicate (length (p_insurers p)) None
          ∧ PromiseCertified ps
            = if 0 <? p_r p
              then Failed (errors_New "Not enough signatures yet to be certified")
              else Returned ().
Proof.
  intros p Hv. pose proof Hv as Hv'.
  apply verifyPromise_Returned in Hv' as (Htr & Hi & Hs).
  unfold Init. rewrite <- Hi, !make_len. cbn [mbind result_bind].
  eexists. split; [reflexivity|]. cbn [ps_Promise ps_signatures ps_blames].
  do 3 (split; [reflexivity|]).
  unfold PromiseCertified. cbn [ps_Promise]. rewrite Hv. cbn [mbind result_bind].
  rewrite <- Hi, for_range_length.
  rewrite (fresh_loop p _ _ _ 0%nat) by lia. cbn [mbind result_bind].
  reflexivity.
Qed.

(** X21.  [AddSignature] and [AddBlameProof] check nothing: an index outside
    the slots is an index panic, and inside them the entry, valid or not,
    nil or not, replaces what the slot held and leaves every other slot,
    the promise and the other list as they were.  So putting back what a
    slot held undoes a call. *)
Theorem X21_slots_are_overwritten :
  (∀ (ps : PromiseState) (i : Z) (sig : option PromiseSignature),
     (¬ (0 <= i < len (ps_signatures ps)) →
      AddSignature ps i sig = Panicked IndexOutOfRange)
     ∧ (0 <= i < len (ps_signatures ps) →
        ∃ ps' old,
          AddSignature ps i sig = Returned ps'
          ∧ ps_signatures ps' = <[Z.to_nat i := sig]> (ps_signatures ps)
          ∧ ps_signatures ps !! Z.to_nat i = Some old
          ∧ ps_blames ps' = ps_blames ps ∧ ps_Promise ps' = ps_Promise ps
          ∧ ps_PriShares ps' = ps_PriShares ps
          ∧ AddSignature ps' i old = Returned ps))
  ∧ (∀ (ps : PromiseState) (i : Z) (bproof : option BlameProof),
     (¬ (0 <= i < len (ps_blames ps)) →
      AddBlameProof ps i bproof = Panicked IndexOutOfRange)
     ∧ (0 <= i < len (ps_blames ps) →
        ∃ ps' old,
          AddBlameProof ps i bproof = Returned ps'
          ∧ ps_blames ps' = <[Z.to_nat i := bproof]> (ps_blames ps)
          ∧ ps_blames ps !! Z.to_nat i = Some old
          ∧ ps_signatures ps' = ps_signatures ps ∧ ps_Promise ps' = ps_Promise ps
          ∧ ps_PriShares ps' = ps_PriShares ps
          ∧ AddBlameProof ps' i old = Returned ps)).
Proof.
  assert (Hassign : ∀ {A} (l : list A) (i : Z) (x : A),
            (¬ (0 <= i < len l) → assign l i x = Panicked IndexOutOfRange)
            ∧ (0 <= i < len l →
               assign l i x = Returned (<[Z.to_nat i := x]> l)
               ∧ ∃ old, l !! Z.to_nat i = Some old
                        ∧ assign (<[Z.to_nat i := x]> l) i old = Returned l)).
  { intros A l i x. unfold assign. split.
    - intros Hi. rewrite (proj2 (range_guard_true _ _) Hi). reflexivity.
    - intros Hi. rewrite (proj2 (range_guard _ _) Hi). split; [reflexivity|].
      destruct (lookup_lt_is_Some_2 l (Z.to_nat i)) as [old Hold];
        [unfold len in Hi; lia|].
      exists old. split; [exact Hold|].
      unfold len in *. rewrite length_insert.
      rewrite (proj2 (range_guard _ _) Hi).
      rewrite list_insert_insert_eq, list_insert_id by exact Hold. reflexivity. }
  split.
  - intros ps i sig. destruct (Hassign _ (ps_signatures ps) i sig) as [Hout Hin].
    unfold AddSignature. split.
    + intros Hi. rewrite (Hout Hi). reflexivity.
    + intros Hi. destruct (Hin Hi) as (-> & old & Hold & Hback).
      cbn [mbind result_bind]. eexists _, old. split; [reflexivity|].
      cbn [ps_signatures ps_blames ps_Promise ps_PriShares].
      do 5 (split; [reflexivity || exact Hold|]).
      rewrite Hback. destruct ps; reflexivity.
  - intros ps i bproof. destruct (Hassign _ (ps_blames ps) i bproof) as [Hout Hin].
    unfold AddBlameProof. split.
    + intros Hi. rewrite (Hout Hi). reflexivity.
    + intros Hi. destruct (Hin Hi) as (-> & old & Hold & Hback).
      cbn [mbind result_bind]. eexists _, old. split; [reflexivity|].
      cbn [ps_signatures ps_blames ps_Promise ps_PriShares].
      do 5 (split; [reflexivity || exact Hold|]).
      rewrite Hback. destruct ps; reflexivity.
Qed.

End FreshState.

(** ** Decoding buffers of any length *)

Lemma slice_ok {A} (buf : list A) (lo hi : Z) :
  0 <= lo <= hi → hi <= len buf →
  ∃ l, slice buf lo hi = Returned l ∧ len l = hi - lo.
Proof.
  intros Hlo Hhi. unfold slice.
  destruct (lo <? 0) eqn:E1; [lia|]. destruct (hi <? lo) eqn:E2; [lia|].
  destruct (len buf <? hi) eqn:E3; [lia|]. cbn [orb].
  eexists. split; [reflexivity|]. unfold len in *.
  rewrite length_take, length_drop. lia.
Qed.


Lemma Uint32_ok (buf : list byte) (off : Z) :
  0 <= off → off + 4 <= len buf → ∃ v, Uint32 buf off = Returned v ∧ 0 <= v < 2 ^ 32.
Proof.
  intros Hoff Hlen. unfold Uint32, slice_from.
  destruct (slice_ok buf off (len buf)) as (dst & -> & Hdst); [lia..|].
  cbn [mbind result_bind]. unfold len in Hdst.
  destruct dst as [|b0 [|b1 [|b2 [|b3 dst]]]]; cbn [length] in Hdst; try (unfold len in *; lia).
  eexists. split; [reflexivity|].
  pose proof (Z_of_byte_range b0). pose proof (Z_of_byte_range b1).
  pose proof (Z_of_byte_range b2). pose proof (Z_of_byte_range b3). lia.
Qed.

Lemma Uint32_short (buf : list byte) (off : Z) :
  len buf < off + 4 → Uint32 buf off = Panicked IndexOutOfRange.
Proof.
  intros Hlen. unfold Uint32, slice_from, slice.
  destruct ((off <? 0) || (len buf <? off) || (len buf <? len buf)) eqn:E;
    [reflexivity|].
  rewrite !orb_false_iff in E. destruct E as [[E1 E2] _].
  cbn [mbind result_bind].
  assert (Hd : (length (take (Z.to_nat (len buf - off)) (drop (Z.to_nat off) buf)) < 4)%nat).
  { rewrite length_take, length_drop. unfold len in *. lia. }
  destruct (take _ _) as [|b0 [|b1 [|b2 [|b3 dst]]]]; try reflexivity.
  cbn [length] in Hd. lia.
Qed.

Lemma copy_at_ok {A} (buf src : list A) (off : Z) :
  0 <= off <= len buf → ∃ l, copy_at buf off src = Returned l ∧ len l = len buf.
Proof.
  intros Hoff. unfold copy_at, slice_from.
  destruct (slice_ok buf off (len buf)) as (dst & -> & Hdst); [lia..|].
  cbn [mbind result_bind]. eexists. split; [reflexivity|].
  unfold len in *. rewrite !length_app, !length_take, length_drop. lia.
Qed.

Section Decoders.
Context `{Suite}.
Import promise.

Lemma PromiseSignature_UnmarshalBinary_cases (p : PromiseSignature) (buf : list byte) :
  (len buf < uint32Size
   ∧ PromiseSignature_UnmarshalBinary p buf = Failed (errors_New "Buffer size too small"))
  ∨ ∃ sigLen,
      Uint32 buf 0 = Returned sigLen ∧ 0 <= sigLen
      ∧ PromiseSignature_UnmarshalBinary p buf
        = if len buf <? uint32Size + sigLen
          then Failed (errors_New "Buffer size too small")
          else Returned {| sig_suite := sig_suite p;
                           sig_signature :=
                             Some (take (Z.to_nat sigLen) (drop 4 buf)) |}.
Proof.
  unfold PromiseSignature_UnmarshalBinary, uint32Size.
  destruct (len buf <? 4) eqn:E; [left; split; [lia|reflexivity]|]. right.
  destruct (Uint32_ok buf 0) as (sigLen & Hu & Hr); [lia..|].
  exists sigLen. rewrite Hu. cbn [mbind result_bind]. split; [reflexivity|].
  split; [lia|].
  destruct (len buf <? 4 + sigLen) eqn:E2; [reflexivity|].
  unfold slice.
  destruct (4 <? 0) eqn:E3; [lia|]. destruct (4 + sigLen <? 4) eqn:E4; [lia|].
  rewrite E2. cbn [orb mbind result_bind].
  replace (4 + sigLen - 4) with sigLen by lia. reflexivity.
Qed.

(** X22.  [PromiseSignature.UnmarshalBinary] never panics: a buffer shorter
    than four bytes, or shorter than the signature length it announces, is
    answered with "Buffer size too small", and otherwise the signature is
    the announced number of bytes behind the length, with whatever follows
    them ignored.  [BlameProof.UnmarshalBinary] answers a buffer shorter
    than its two lengths and a point with the same error, and panics on no
    buffer unless the decoding of the point does. *)
Theorem X22_short_buffers_are_refused :
  (∀ (p : PromiseSignature) (buf : list byte),
     (len buf < uint32Size →
      PromiseSignature_UnmarshalBinary p buf = Failed (errors_New "Buffer size too small"))
     ∧ (uint32Size <= len buf →
        ∃ sigLen,
          Uint32 buf 0 = Returned sigLen
          ∧ PromiseSignature_UnmarshalBinary p buf
            = if len buf <? uint32Size + sigLen
              then Failed (errors_New "Buffer size too small")
              else Returned {| sig_suite := sig_suite p;
                               sig_signature :=
                                 Some (take (Z.to_nat sigLen) (drop 4 buf)) |}))
  ∧ (∀ (bp : BlameProof) (buf : list byte),
     0 <= PointLen (bp_suite bp) →
     (len buf < 2 * uint32Size + PointLen (bp_suite bp) →
      BlameProof_UnmarshalBinary bp buf = Failed (errors_New "Buffer size too small"))
     ∧ ∀ q, BlameProof_UnmarshalBinary bp buf = Panicked q →
            ∃ b, Point_UnmarshalBinary (bp_suite bp) b = Panicked q).
Proof.
  split.
  - intros p buf.
    destruct (PromiseSignature_UnmarshalBinary_cases p buf)
      as [[Hlt ->]|(sigLen & Hu & _ & ->)].
    + split; [reflexivity|lia].
    + split; [|eauto].
      intros Hlt. rewrite Uint32_short in Hu by (unfold uint32Size in Hlt; lia).
      discriminate.
  - intros bp buf Hpl. unfold BlameProof_UnmarshalBinary, uint32Size. cbn zeta.
    set (pl := PointLen (bp_suite bp)) in *.
    destruct (len buf <? 2 * 4 + pl) eqn:E.
    { split; [reflexivity|discriminate]. }
    split; [lia|]. intros q.
    destruct (Uint32_ok buf 0) as (proofLen & -> & Hp); [lia..|].
    destruct (Uint32_ok buf 4) as (sigLen & -> & Hs); [lia..|].
    cbn [mbind result_bind].
    destruct (slice_ok buf (2 * 4) (2 * 4 + pl)) as (keyBuf & -> & _); [lia..|].
    cbn [mbind result_bind].
    destruct (Point_UnmarshalBinary (bp_suite bp) keyBuf) as [D|e|q'] eqn:ED;
      cbn [mbind result_bind]; [|discriminate|intros [= <-]; eauto].
    destruct (len buf <? 2 * 4 + pl + proofLen + sigLen) eqn:E2; [discriminate|].
    rewrite make_replicate by lia. cbn [mbind result_bind].
    destruct (slice_ok buf (2 * 4 + pl) (2 * 4 + pl + proofLen)) as (src & -> & _);
      [lia..|].
    cbn [mbind result_bind].
    destruct (copy_at_ok (replicate (Z.to_nat proofLen) x00%byte) src 0)
      as (prf & -> & _); [unfold len; lia|].
    cbn [mbind result_bind].
    destruct (slice_ok buf (2 * 4 + pl + proofLen) (2 * 4 + pl + proofLen + sigLen))
      as (sigBuf & -> & _); [lia..|].
    cbn [mbind result_bind].
    destruct (PromiseSignature_UnmarshalBinary_cases
                (PromiseSignature_init (bp_suite bp) None) sigBuf)
      as [[_ ->]|(k & _ & _ & ->)]; [discriminate|].
    destruct (len sigBuf <? uint32Size + k); discriminate.
Qed.

End Decoders.


Section PromiseDecoder.
Context `{Suite}.
Import promise.



End PromiseDecoder.

(** ** Messages on a stream *)

Lemma len_replicate {A} (x : A) (n : nat) : len (replicate n x) = Z.of_nat n.
Proof. unfold len. rewrite length_replicate. reflexivity. Qed.

Lemma bytes_ReadFull_enough (pre rest : list byte) :
  io_ReadFull (pre ++ rest) (len pre) = ((pre, None), rest).
Proof.
  unfold io_ReadFull, bytes_Reader, len.
  destruct pre as [|b pre]; [destruct rest; reflexivity|].
  destruct (Z.of_nat (length (b :: pre)) <=? 0) eqn:E;
    [apply Z.leb_le in E; rewrite length_cons in E; lia|].
  change ((b :: pre) ++ rest) with (b :: (pre ++ rest)) at 1. cbv iota.
  destruct (Z.of_nat (length ((b :: pre) ++ rest)) <? Z.of_nat (length (b :: pre))) eqn:E2.
  { apply Z.ltb_lt in E2. rewrite length_app in E2. lia. }
  rewrite Nat2Z.id, take_app_length, drop_app_length. reflexivity.
Qed.


Section Streams.
Context {A : Type}.
Variables (size : list byte → result Z) (unmarshal : list byte → result A).

(** A stream that holds the whole message, and maybe more behind it. *)
Lemma UnmarshalFrom_with_complete (hdr body rest : list byte) :
  size hdr = Returned (len hdr + len body) →
  promise.UnmarshalFrom_with (len hdr) size unmarshal (hdr ++ body ++ rest)
  = (match unmarshal (hdr ++ body) with
     | Returned a => IoReturned (len hdr + len body) a
     | Failed e => IoFailed (len hdr + len body) e
     | Panicked q => IoPanicked q
     end, rest).
Proof.
  intros Hsize. unfold promise.UnmarshalFrom_with.
  rewrite make_len, len_replicate.
  change (Z.of_nat (length hdr)) with (len hdr).
  rewrite bytes_ReadFull_enough, copy_at_start. cbn [mbind result_bind].
  rewrite Hsize. cbn [mbind result_bind].
  rewrite make_replicate by (pose proof (len_nonneg hdr); pose proof (len_nonneg body); lia).
  cbn [mbind result_bind].
  replace (Z.to_nat (len hdr + len body)) with (length hdr + length body)%nat
    by (unfold len; lia).
  pose proof (copy_at_fill x00%byte [] hdr (length hdr + length body) 0 eq_refl) as Hc.
  cbn [app] in Hc. rewrite Hc by lia. cbn [mbind result_bind].
  replace (length hdr + length body - length hdr)%nat with (length body) by lia.
  rewrite slice_from_app by reflexivity. cbn [mbind result_bind].
  rewrite len_replicate. change (Z.of_nat (length body)) with (len body).
  rewrite bytes_ReadFull_enough.
  rewrite copy_at_fill by (reflexivity || lia).
  rewrite Nat.sub_diag. cbn [replicate mbind result_bind]. rewrite app_nil_r.
  destruct (unmarshal (hdr ++ body)); reflexivity.
Qed.



End Streams.

Section StreamRoundTrip.
Context `{Suite}.
Import promise.

Lemma MarshalTo_with_bytes (buf w : list byte) :
  MarshalTo_with (Returned buf) w = (IoReturned (len buf) (), w ++ buf).
Proof. reflexivity. Qed.

Lemma Uint32_second (a b : Z) (rest : list byte) :
  Uint32 (le32 a ++ le32 b ++ rest) 4 = Returned (b mod 2 ^ 32).
Proof. apply Uint32_app. reflexivity. Qed.

(** X24.  Messages can follow one another on a stream.  For each of
    Promise, PromiseSignature and BlameProof, and for every well-formed
    value [m]: [MarshalTo] appends the [MarshalSize] bytes of [m] to an
    in-memory writer and returns that count, and [UnmarshalFrom] on an
    in-memory reader that holds these bytes, followed by anything, returns
    the same count, leaves a receiver equal to [m], and leaves in the
    reader exactly what followed. *)
Theorem X24_stream_round_trip :
  (∀ (m p0 : Promise) (w rest : list byte),
     Promise_wf m →
     ∃ buf p',
       MarshalTo m w = (IoReturned (MarshalSize m) (), w ++ buf)
       ∧ UnmarshalFrom (UnmarshalInit p0 (p_suite m)) (buf ++ rest)
         = (IoReturned (MarshalSize m) p', rest)
       ∧ Equal m p' = Returned true)
  ∧ (∀ (m p0 : PromiseSignature) (w rest : list byte),
     PromiseSignature_wf m →
     ∃ buf p',
       PromiseSignature_MarshalTo m w
       = (IoReturned (PromiseSignature_MarshalSize m) (), w ++ buf)
       ∧ PromiseSignature_UnmarshalFrom
           (PromiseSignature_UnmarshalInit p0 (sig_suite m)) (buf ++ rest)
         = (IoReturned (PromiseSignature_MarshalSize m) p', rest)
       ∧ PromiseSignature_Equal m p' = true)
  ∧ (∀ (m p0 : BlameProof) (w rest : list byte),
     BlameProof_wf m →
     ∃ buf p',
       BlameProof_MarshalTo m w = (IoReturned (BlameProof_MarshalSize m) (), w ++ buf)
       ∧ BlameProof_UnmarshalFrom (BlameProof_UnmarshalInit p0 (bp_suite m)) (buf ++ rest)
         = (IoReturned (BlameProof_MarshalSize m) p', rest)
       ∧ BlameProof_Equal m p' = true).
Proof.
  split; [|split].
  - intros m p0 w rest (Htrn & Hni & Hns & Hnp & Hn & Hkey & Hpoly & Hins & Hsec).
    destruct Hkey as [keyBuf Hkey].
    destruct (points_of_encs _ _ Hpoly) as [polyEncs Hpe].
    destruct (points_of_encs _ _ Hins) as [insEncs Hie].
    destruct (secrets_of_encs _ _ Hsec) as [secEncs Hse].
    pose proof (len_nonneg (p_pubPoly m)) as Ht.
    pose proof (len_encs _ _ _ _ _ Hpe) as Lp.
    pose proof (len_encs _ _ _ _ _ Hie) as Li.
    pose proof (len_encs _ _ _ _ _ Hse) as Ls.
    destruct Hkey as (Hkm & Hkl & Hku).
    set (hdr := le32 (p_n m) ++ le32 (p_t m)).
    set (body := le32 (p_r m) ++ keyBuf ++ concat polyEncs ++ concat insEncs
                 ++ concat secEncs).
    assert (Hbuf : MarshalBinary m = Returned (hdr ++ body)).
    { rewrite (MarshalBinary_bytes m keyBuf polyEncs insEncs secEncs);
        try assumption; [|repeat split; assumption].
      rewrite !uint32_small by lia. unfold hdr, body. rewrite <- !app_assoc.
      reflexivity. }
    assert (Hlen : len hdr + len body = MarshalSize m).
    { unfold hdr, body, MarshalSize, PubPoly_MarshalSize, uint32Size.
      rewrite !len_app, !len_le32, Lp, Li, Ls, Hkl, Hni, Hns. lia. }
    assert (Hh : len hdr = 2 * uint32Size)
      by (unfold hdr; rewrite len_app, !len_le32; reflexivity).
    exists (hdr ++ body).
    eexists {| p_id := p_id p0; p_suite := p_suite m; p_t := p_t m; p_r := p_r m;
               p_n := p_n m; p_pubKey := p_pubKey m; p_pubPoly := p_pubPoly m;
               p_insurers := p_insurers m; p_secrets := p_secrets m |}.
    split; [|split].
    + unfold MarshalTo. rewrite Hbuf, MarshalTo_with_bytes, len_app, Hlen. reflexivity.
    + unfold UnmarshalFrom. rewrite <- Hh, <- app_assoc.
      rewrite UnmarshalFrom_with_complete.
      * rewrite Hlen.
        unfold hdr, body. rewrite <- !app_assoc.
        rewrite (UnmarshalBinary_bytes _ (p_n m) (p_t m) (p_r m) (p_pubKey m) (p_pubPoly m)
                   (p_insurers m) (p_secrets m) keyBuf polyEncs insEncs secEncs);
          try assumption; try lia; [reflexivity|repeat split; assumption].
      * cbn [p_suite UnmarshalInit]. unfold hdr.
        rewrite <- (app_nil_r (le32 (p_t m))), Uint32_start, Uint32_second.
        rewrite !Z.mod_small by lia. cbn [mbind result_bind].
        unfold PubPoly_Init. rewrite make_replicate by lia. cbn [mbind result_bind].
        rewrite app_nil_r. fold hdr. rewrite Hlen. unfold MarshalSize.
        rewrite Hnp. reflexivity.
    + apply Equal_same_fields; try assumption; reflexivity.
  - intros m p0 w rest (sig & Hsig & Hlen).
    pose proof (len_nonneg sig) as Hn.
    set (hdr := le32 (len sig)).
    assert (Hbuf : PromiseSignature_MarshalBinary m = Returned (hdr ++ sig)).
    { rewrite PromiseSignature_MarshalBinary_bytes, Hsig.
      change (bytes_of (Some sig)) with sig. rewrite uint32_small by lia. reflexivity. }
    assert (Hsize : len hdr + len sig = PromiseSignature_MarshalSize m).
    { unfold PromiseSignature_MarshalSize, hdr, uint32Size. rewrite Hsig, len_le32.
      reflexivity. }
    exists (hdr ++ sig).
    eexists {| sig_suite := sig_suite m; sig_signature := Some sig |}.
    split; [|split].
    + unfold PromiseSignature_MarshalTo.
      rewrite Hbuf, MarshalTo_with_bytes, len_app, Hsize. reflexivity.
    + unfold PromiseSignature_UnmarshalFrom.
      replace uint32Size with (len hdr) at 1 by apply len_le32.
      rewrite <- app_assoc, UnmarshalFrom_with_complete.
      * rewrite Hsize.
        pose proof (PromiseSignature_UnmarshalBinary_bytes
                      (PromiseSignature_UnmarshalInit p0 (sig_suite m)) sig [] Hlen) as Hu.
        rewrite app_nil_r in Hu. fold hdr in Hu. rewrite Hu. reflexivity.
      * unfold hdr. rewrite <- (app_nil_r (le32 (len sig))), Uint32_start.
        rewrite Z.mod_small by lia. cbn [mbind result_bind].
        rewrite app_nil_r, len_le32. reflexivity.
    + unfold PromiseSignature_Equal, DeepEqual_bytes. cbn [sig_suite sig_signature].
      rewrite Hsig, !bool_decide_eq_true_2 by reflexivity. reflexivity.
  - intros m p0 w rest
      ((pointBuf & Hm & Hl & Hu) & (prf & Hprf & Hpl) & (sig & Hsig & Hsl) & Hs).
    pose proof (len_nonneg sig) as Hn. pose proof (len_nonneg prf) as Hn'.
    unfold uint32Size in Hsl.
    set (hdr := le32 (len prf) ++ le32 (4 + len sig)).
    set (body := pointBuf ++ prf ++ le32 (len sig) ++ sig).
    assert (Hbuf : BlameProof_MarshalBinary m = Returned (hdr ++ body)).
    { rewrite (BlameProof_MarshalBinary_bytes m pointBuf Hm Hl).
      unfold PromiseSignature_MarshalSize, uint32Size. rewrite Hprf, Hsig.
      change (bytes_of (Some sig)) with sig. change (bytes_of (Some prf)) with prf.
      rewrite !uint32_small by lia. unfold hdr, body. rewrite <- !app_assoc.
      reflexivity. }
    assert (Hsize : len hdr + len body = BlameProof_MarshalSize m).
    { unfold BlameProof_MarshalSize, PromiseSignature_MarshalSize, hdr, body, uint32Size.
      rewrite Hprf, Hsig. change (bytes_of (Some sig)) with sig.
      change (bytes_of (Some prf)) with prf.
      rewrite !len_app, !len_le32, Hl. lia. }
    assert (Hh : len hdr = 2 * uint32Size)
      by (unfold hdr; rewrite len_app, !len_le32; reflexivity).
    exists (hdr ++ body).
    eexists {| bp_suite := bp_suite m; bp_diffieKey := bp_diffieKey m;
               bp_diffieKeyProof := Some prf;
               bp_signature := {| sig_suite := bp_suite m; sig_signature := Some sig |} |}.
    split; [|split].
    + unfold BlameProof_MarshalTo.
      rewrite Hbuf, MarshalTo_with_bytes, len_app, Hsize. reflexivity.
    + unfold BlameProof_UnmarshalFrom. rewrite <- Hh, <- app_assoc.
      rewrite UnmarshalFrom_with_complete.
      * rewrite Hsize. unfold hdr, body. rewrite <- !app_assoc.
        rewrite (BlameProof_UnmarshalBinary_bytes _ (bp_diffieKey m) pointBuf prf sig);
          cbn [bp_suite BlameProof_UnmarshalInit]; unfold uint32Size;
          try assumption; try lia. reflexivity.
      * cbn [bp_suite BlameProof_UnmarshalInit]. unfold hdr.
        rewrite <- (app_nil_r (le32 (4 + len sig))), Uint32_start, Uint32_second.
        rewrite !Z.mod_small by lia. cbn [mbind result_bind].
        rewrite app_nil_r. fold hdr. f_equal. unfold body.
        rewrite Hh, !len_app, !len_le32, Hl. unfold uint32Size. lia.
    + unfold BlameProof_Equal, PromiseSignature_Equal, DeepEqual_bytes.
      cbn [bp_suite bp_diffieKey bp_diffieKeyProof bp_signature sig_suite sig_signature].
      rewrite Hprf, Hsig, Hs, !bool_decide_eq_true_2 by reflexivity. reflexivity.
Qed.

End StreamRoundTrip.

Section TruncatedStreams.
Context `{Suite}.
Import promise.


End TruncatedStreams.

Section BlameAndShare.
Context `{Suite}.
Import promise.

(** X26.  [Blame] does not look at the share it blames.  In a suite with the
    laws of [blame_laws], the blame proof that [Blame] returns for the
    honest insurer recorded at index [i] is accepted by [VerifyBlame]
    exactly when [VerifyShare] turned that insurer's share down at the
    public-polynomial check, and is turned down as unjustified exactly when
    [VerifyShare] accepted the share. *)
Theorem X26_blame_stands_when_the_share_fails :
  ∀ (p : Promise) (i : Z) (kp : KeyPair) (rand rand' : Stream) (bp : BlameProof),
    blame_laws (p_suite p) →
    kp_Suite kp = p_suite p →
    honest_key (p_suite p) kp →
    0 <= i < p_n p →
    p_insurers p !! Z.to_nat i = Some (kp_Public kp) →
    Blame p i kp rand rand' = Returned bp →
    (VerifyBlame p i bp = Returned () ↔
     VerifyShare p i kp
     = Failed (errors_New "The share failed the public polynomial check."))
    ∧ (VerifyBlame p i bp
       = Failed (errors_New "Unjustified blame. The share checks out okay.") ↔
       VerifyShare p i kp = Returned ()).
Proof.
  intros p i kp rand rand' bp Hlaws Hsuite Hkey Hi Hins Hb.
  unfold Blame in Hb. cbn zeta in Hb.
  apply bind_Returned in Hb as (prf & Hprf & Hb). injection Hb as <-.
  unfold honest_key in Hkey.
  destruct (anon_verifies _ Hlaws rand sigBlameMsg (kp_Secret kp)) as (sig & Hsign & Hver).
  assert (Hidx : index (p_insurers p) i = Returned (kp_Public kp))
    by (apply index_Returned; split; [lia|exact Hins]).
  unfold VerifyBlame, VerifyShare, verifySignature, sign, BlameProof_init,
    PromiseSignature_init.
  cbn [bp_signature bp_diffieKey bp_diffieKeyProof sig_signature sig_suite].
  rewrite (proj2 (range_guard _ _) Hi), Hidx, Hsuite, Hkey, Hsign.
  cbn [mbind result_bind]. rewrite Hver. cbn [check mbind result_bind].
  rewrite bool_decide_eq_true_2 by reflexivity. cbn [negb].
  rewrite (proof_verifies _ Hlaws _ _ _ _ _ Hprf). cbn [check mbind result_bind].
  destruct (diffieHellmanSecret (p_suite p)
              (Point_Mul (p_suite p) (Some (p_pubKey p)) (kp_Secret kp)))
    as [mask|e|q] eqn:Edh; cbn [mbind result_bind].
  - destruct (index_cases (p_secrets p) i (proj1 Hi)) as [(sec & -> & _)|[-> _]];
      cbn [mbind result_bind]; [|split; split; discriminate].
    destruct (PubPoly_Check _ _ _ _); cbn [negb]; split; split;
      try discriminate; reflexivity.
  - exfalso. exact (diffieHellmanSecret_not_Failed _ _ _ Edh).
  - split; split; discriminate.
Qed.

End BlameAndShare.

(** ** What a deal is checked for, and what the signatures cover *)

Section DealChecks.
Context `{Suite}.
Import vss.

(** X27.  [VerifyDeal] returns nil exactly when the deal is not a further
    deal under inclusion, its threshold is valid for the verifiers, its
    session identifier is the one of the aggregator once a deal is bound,
    its signature verifies under the dealer's key, its two shares carry
    the same index, that index names a verifier, and the shares open the
    commitment that the deal itself carries at that index.  The
    commitments and the threshold that the aggregator holds take no part;
    and a further deal under inclusion is answered with
    [errDealAlreadyProcessed] and changes nothing. *)
Theorem X27_VerifyDeal_verdict :
  ∀ (d : Deal) (inclusion : bool) (a : aggregator),
    ((VerifyDeal d inclusion a).1 = Returned () ↔
     ¬ (is_Some (a_deal a) ∧ inclusion = true)
     ∧ validT (Z.of_N (d_T d)) (a_verifiers a) = true
     ∧ (is_Some (a_deal a) → a_sid a = d_SessionID d)
     ∧ sign_VerifySchnorr (a_suite a) (a_dealer a) (msgDeal d) (d_Signature d) = None
     ∧ I (d_SecShare d) = I (d_RndShare d)
     ∧ 0 <= I (d_SecShare d) < len (a_verifiers a)
     ∧ share_opens (a_suite a) (a_verifiers a) d)
    ∧ (is_Some (a_deal a) → inclusion = true →
       VerifyDeal d inclusion a = (Failed errDealAlreadyProcessed, a)).
Proof.
  intros d inclusion a. split; [split|].
  - unfold VerifyDeal.
    destruct (bool_decide (is_Some (a_deal a)) && inclusion) eqn:Eg; [discriminate|].
    cbn zeta. cbn [fst].
    assert (Hincl : ¬ (is_Some (a_deal a) ∧ inclusion = true)).
    { intros [Hs ->]. rewrite (bool_decide_eq_true_2 _ Hs) in Eg. discriminate. }
    assert (Ha : (if bool_decide (a_deal a = None) then bind_deal a d else a)
                 = after_binding a d).
    { unfold after_binding. destruct (a_deal a) as [d0|].
      - rewrite bool_decide_eq_false_2 by discriminate. reflexivity.
      - rewrite bool_decide_eq_true_2 by reflexivity. reflexivity. }
    rewrite Ha.
    pose proof (after_binding_frame a d) as (_ & _ & _ & Hv & Hs & Hd).
    assert (Hsid : a_sid (after_binding a d) = d_SessionID d →
                   is_Some (a_deal a) → a_sid a = d_SessionID d).
    { intros Heq Hsome. rewrite after_binding_bound in Heq by exact Hsome. exact Heq. }
    set (a1 := after_binding a d) in *.
    rewrite Hv, Hs, Hd.
    destruct (validT (Z.of_N (d_T d)) (a_verifiers a)); cbn [negb]; [|discriminate].
    unfold bytes_Equal.
    destruct (bool_decide (a_sid a1 = d_SessionID d)) eqn:Es; cbn [negb]; [|discriminate].
    apply bool_decide_eq_true in Es.
    destruct (sign_VerifySchnorr _ _ _ _) eqn:Esig; cbn [check mbind result_bind];
      [discriminate|].
    destruct (I (d_SecShare d) =? I (d_RndShare d)) eqn:EI; cbn [negb]; [|discriminate].
    apply Z.eqb_eq in EI.
    destruct ((I (d_SecShare d) <? 0) || (len (a_verifiers a) <=? I (d_SecShare d)))
      eqn:Er; [discriminate|].
    apply range_guard in Er.
    unfold share_opens.
    match goal with
    | |- context [bool_decide ?P] => destruct (decide P) as [Ho|Ho]
    end.
    + intros _. auto 10.
    + rewrite (bool_decide_eq_false_2 _ Ho). discriminate.
  - intros (Hincl & Ht & Hsid & Hsig & HI & Hr & Ho).
    rewrite (VerifyDeal_accepts d inclusion a); try assumption; [reflexivity|].
    unfold after_binding. destruct (a_deal a) as [d0|] eqn:Ed; [|reflexivity].
    apply Hsid. eauto.
  - intros Hs ->. unfold VerifyDeal. rewrite (bool_decide_eq_true_2 _ Hs). reflexivity.
Qed.

Lemma le32_inj (a b : Z) :
  0 <= a < 2 ^ 32 → 0 <= b < 2 ^ 32 → le32 a = le32 b → a = b.
Proof.
  intros Ha Hb Heq.
  pose proof (Uint32_start [] a) as Hua. pose proof (Uint32_start [] b) as Hub.
  rewrite Heq, Hub in Hua. injection Hua as Hm.
  rewrite !Z.mod_small in Hm by lia. congruence.
Qed.

(** X28.  What the Schnorr signatures of the package cover.  The message of
    a response determines the response: two responses with 32-bit indices
    and the same [msgResponse] have the same session identifier, index and
    status.  The message of a deal holds its session identifier and the
    values of its two shares, and nothing else: two deals that agree on
    these have the same [msgDeal], whatever their share indices, their
    threshold and their commitments, so that a signature which verifies for
    one verifies for the other. *)
Theorem X28_what_the_signatures_cover :
  (∀ r r' : Response,
     Z.of_N (r_Index r) < 2 ^ 32 → Z.of_N (r_Index r') < 2 ^ 32 →
     msgResponse r = msgResponse r' →
     r_SessionID r = r_SessionID r' ∧ r_Index r = r_Index r' ∧ r_Status r = r_Status r')
  ∧ (∀ (d d' : Deal) (s : SuiteT) (pub : Point) (sig : list byte),
     d_SessionID d' = d_SessionID d →
     V (d_SecShare d') = V (d_SecShare d) →
     V (d_RndShare d') = V (d_RndShare d) →
     msgDeal d' = msgDeal d
     ∧ sign_VerifySchnorr s pub (msgDeal d') sig = sign_VerifySchnorr s pub (msgDeal d) sig).
Proof.
  split.
  - intros r r' Hi Hi' Hm. unfold msgResponse in Hm.
    apply app_inv_head in Hm.
    apply app_inj_2 in Hm as [Hsid Htail];
      [|rewrite !length_app; reflexivity].
    apply app_inj_1 in Htail as [Hidx Hst]; [|reflexivity].
    split; [exact Hsid|]. split; [|congruence].
    apply le32_inj in Hidx; lia.
  - intros d d' s pub sig Hsid Hf Hg.
    assert (Hm : msgDeal d' = msgDeal d)
      by (unfold msgDeal, binary_Write_int; rewrite Hsid, Hf, Hg; reflexivity).
    split; [exact Hm|]. rewrite Hm. reflexivity.
Qed.

End DealChecks.

(** ** What a justification is checked for *)

Section JustificationChecks.
Context `{Suite} `{!vss.Share}.
Import vss.

(** Every deal of an honest dealer passes [VerifyDeal] without inclusion at
    every aggregator of the session. *)
Lemma honest_deal_verifies (s : SuiteT) (longterm secret : Secret) (verifiers : list Point)
    (rnd : Stream) (t : Z) (d : Dealer) (i : nat) (deal : Deal) (a : aggregator) :
  share_laws s →
  NewDealer s longterm secret verifiers rnd t = Returned d →
  Deals d !! i = Some deal →
  a_suite a = s → a_dealer a = (Dealer_Key d).2 → a_verifiers a = verifiers →
  (is_Some (a_deal a) → a_sid a = Dealer_SessionID d) →
  VerifyDeal deal false a = (Returned (), after_binding a deal).
Proof.
  intros Hlaws Hd Hdeal Has Had Hav Hsid.
  destruct (NewDealer_Returned _ _ _ _ _ _ _ Hd)
    as (Hvalid & f & g & C & HC & Hs & Hl & Hp & Hsec & Hsc & Hvs & Ht & Hdsid & Ha & Hlen
        & Hdeals).
  cbn zeta in *.
  set (pub := Point_Mul s None longterm) in *.
  set (commitments := (SharePubPoly_Info C).2) in *.
  set (sid := sessionID s pub verifiers commitments t) in *.
  unfold Deals in Hdeal.
  destruct (Hdeals _ _ Hdeal) as [Hdsig Hdeq].
  pose proof (validT_T _ _ Hvalid) as HT.
  assert (Hd_sid : d_SessionID deal = sid) by (rewrite Hdeq; reflexivity).
  assert (Hd_T : Z.of_N (d_T deal) = t) by (rewrite Hdeq; exact HT).
  assert (Hd_C : d_Commitments deal = commitments) by (rewrite Hdeq; reflexivity).
  assert (Hd_f : d_SecShare deal = PriPoly_Eval f (Z.of_nat i))
    by (rewrite Hdeq; reflexivity).
  assert (Hd_g : d_RndShare deal = PriPoly_Eval g (Z.of_nat i))
    by (rewrite Hdeq; reflexivity).
  assert (Hd_msg : msgDeal deal
                   = msgDeal (new_Deal sid (PriPoly_Eval f (Z.of_nat i))
                                (PriPoly_Eval g (Z.of_nat i))
                                commitments (Z.to_N (uint32 t))))
    by (rewrite Hdeq at 1; reflexivity).
  assert (Hi : 0 <= Z.of_nat i < len verifiers).
  { apply lookup_lt_Some in Hdeal. unfold len. lia. }
  apply VerifyDeal_accepts.
  - intros [_ [=]].
  - rewrite Hd_T, Hav. exact Hvalid.
  - unfold after_binding. destruct (a_deal a) as [d0|] eqn:Ed; [|reflexivity].
    rewrite Hsid by eauto. unfold Dealer_SessionID. rewrite Hdsid, Hd_sid. reflexivity.
  - rewrite Has, Had. unfold Dealer_Key. cbn [snd]. rewrite Hp, Hd_msg.
    apply (schnorr_verifies s Hlaws). exact Hdsig.
  - rewrite Hd_f, Hd_g, !(eval_index s Hlaws). reflexivity.
  - rewrite Hd_f, (eval_index s Hlaws), Hav. exact Hi.
  - unfold share_opens. rewrite Has, Hav, Hd_f, Hd_g, Hd_C, (eval_index s Hlaws).
    apply (commit_opens s Hlaws). exact HC.
Qed.

(** X29.  A justification is checked for its index and for the deal it
    carries, and for nothing else.  Its own session identifier and its
    signature are never read; and the deal is not compared with the index
    of the justification.  So, in a suite with the laws of [share_laws],
    the deal that an honest dealer made for any verifier [i] justifies the
    complaint stored under any index [k], whatever session identifier and
    signature the justification carries. *)
Theorem X29_justification_is_not_tied_to_the_complaint :
  (∀ (j j' : Justification) (a : aggregator),
     j_Index j' = j_Index j → j_Deal j' = j_Deal j →
     verifyJustification j' a = verifyJustification j a)
  ∧ (∀ (s : SuiteT) (longterm secret : Secret) (verifiers : list Point) (rnd : Stream)
       (t : Z) (d : Dealer) (i : nat) (deal : Deal) (k : N) (c : Response)
       (sid sig : list byte) (a : aggregator),
     share_laws s →
     NewDealer s longterm secret verifiers rnd t = Returned d →
     Deals d !! i = Some deal →
     a_suite a = s → a_dealer a = (Dealer_Key d).2 → a_verifiers a = verifiers →
     (is_Some (a_deal a) → a_sid a = Dealer_SessionID d) →
     a_responses a !! k = Some c →
     r_Status c = StatusComplaint →
     is_Some (findPub verifiers k) →
     ∃ a', verifyJustification
             {| j_SessionID := sid; j_Index := k; j_Deal := deal; j_Signature := sig |} a
           = (Returned (), a')
           ∧ a_responses a' !! k = Some (set_Status c statusJustified)
           ∧ a_badDealer a' = a_badDealer a).
Proof.
  split.
  - intros j j' a Hi Hd. unfold verifyJustification. rewrite Hi, Hd. reflexivity.
  - intros s longterm secret verifiers rnd t d i deal k c sid sig a Hlaws Hd Hdeal
      Has Had Hav Hsid Hc Hst Hin.
    pose proof (honest_deal_verifies s longterm secret verifiers rnd t d i deal a
                  Hlaws Hd Hdeal Has Had Hav Hsid) as Hverify.
    unfold verifyJustification. cbn [j_Index j_Deal].
    rewrite Hav, (bool_decide_eq_true_2 _ Hin), Hc, (bool_decide_eq_true_2 _ Hst).
    cbn [negb]. rewrite Hverify. eexists. split; [reflexivity|].
    cbn [a_responses a_badDealer set_responses].
    split; [apply lookup_insert_eq|apply after_binding_frame].
Qed.

End JustificationChecks.

(** ** The laws in the small suite *)

Section SmallSuiteLaws.
Import mod256.

Lemma badd_horner_step (a b x ha hb : byte) :
  badd (badd a b) (bmul x (badd ha hb))
  = badd (badd a (bmul x ha)) (badd b (bmul x hb)).
Proof.
  apply byte_ext. unfold bmul, badd. rewrite !Z_of_byte_of_Z.
  set (A := Z_of_byte a). set (B := Z_of_byte b). set (X := Z_of_byte x).
  set (P := Z_of_byte ha). set (Q := Z_of_byte hb).
  assert (HL : ((A + B) mod 256 + (X * ((P + Q) mod 256)) mod 256) mod 256
               = (A + B + X * (P + Q)) mod 256).
  { rewrite Z.mul_mod_idemp_r by lia. rewrite <- Z.add_mod by lia. reflexivity. }
  assert (HR : ((A + (X * P) mod 256) mod 256 + (B + (X * Q) mod 256) mod 256) mod 256
               = (A + X * P + (B + X * Q)) mod 256).
  { rewrite (Z.add_mod_idemp_r A), (Z.add_mod_idemp_r B) by lia.
    rewrite <- Z.add_mod by lia. reflexivity. }
  rewrite HL, HR. f_equal. ring.
Qed.

Lemma badd_horner (F G : list byte) (x : byte) :
  length F = length G →
  horner (zip_with badd F G) x = badd (horner F x) (horner G x).
Proof.
  revert G. induction F as [|a F IH]; intros [|b G] Hlen; try discriminate.
  - reflexivity.
  - cbn [zip_with horner]. rewrite IH by (cbn in Hlen; lia). apply badd_horner_step.
Qed.

Lemma mod256_share_laws : @share_laws mod256.suite mod256_share.share 0%nat.
Proof.
  split.
  - intros f i. reflexivity.
  - intros f g H C i HC. cbn in HC |- *. unfold mod256_share.add in HC.
    cbn [fst snd mod256_share.commit_to] in HC.
    destruct (bool_decide _) eqn:El in HC; [|discriminate].
    apply bool_decide_eq_true in El. injection HC as <-. cbn [snd].
    unfold eval. rewrite badd_horner by exact El.
    rewrite !bmul_horner. reflexivity.
  - intros x msg sig Hsig. cbn in Hsig |- *. injection Hsig as <-.
    unfold toy_verify, toy_sign. rewrite bool_decide_eq_true_2 by reflexivity.
    reflexivity.
Qed.

Lemma mod256_blame_laws : @blame_laws mod256.suite 0%nat.
Proof.
  split.
  - intros rand msg x. eexists. split; [reflexivity|].
    cbn. unfold toy_verify, toy_sign. rewrite bool_decide_eq_true_2 by reflexivity.
    reflexivity.
  - intros name rand P x prf Hprf. cbn in Hprf |- *. injection Hprf as <-.
    cbn. rewrite bool_decide_eq_true_2 by reflexivity. reflexivity.
Qed.

End SmallSuiteLaws.

(** ** The properties on the example data *)

Section OnTheExamples.
#[local] Existing Instance mod256.suite.
#[local] Existing Instance mod256_share.share.
Import examples dealer_examples.

Example NewDealer_example :
  vss.NewDealer 0%nat dealerLong x07 verifiers stream 2 = Returned the_dealer.
Proof. reflexivity. Qed.

Example NewVerifier_1_example :
  vss.NewVerifier 0%nat x09 dealerPub verifiers = Returned verifier1.
Proof. reflexivity. Qed.

Lemma X1_NewVerifier_first_index_witness :
  ∃ v, vss.NewVerifier 0%nat x05 dealerPub verifiers = Returned v
       ∧ vss.v_aggregator v = None
       ∧ verifiers !! Z.to_nat (vss.Verifier_Index v) = Some (Point_Mul 0%nat None x05).
Proof.
  destruct (proj1 (proj2 (@X1_NewVerifier_first_index mod256.suite 0%nat x05 dealerPub
                            verifiers)))
    as (v & Hv & Ha & _ & _ & _ & _ & Hl & _).
  - left.
  - exists v. auto.
Defined.

Lemma X2_session_parameters_fixed_witness :
  vss.a_t (vss.verifyJustification justification complained).2 = vss.a_t complained
  ∧ vss.a_deal (vss.verifyJustification justification complained).2 = Some (deal 0).
Proof.
  destruct (@X2_session_parameters_fixed mod256.suite complained _
              (rtc_once _ _ (step_verifyJustification complained justification)))
    as (Ht & _ & _ & _ & _ & Hd).
  split; [exact Ht|]. exact (proj1 (Hd (deal 0) eq_refl)).
Defined.

Lemma X3_stored_responses_are_kept_witness :
  vss.a_responses (vss.verifyJustification justification complained).2 !! 0%N
  = Some (signed_response 0 vss.StatusApproval x05).
Proof.
  destruct (@X3_stored_responses_are_kept mod256.suite complained _
              (rtc_once _ _ (step_verifyJustification complained justification)))
    as (_ & Hkept & _).
  apply Hkept; reflexivity.
Defined.

Lemma X4_responses_indexed_by_verifier_witness :
  responses_indexed
    (vss.verifyResponse (signed_response 0 vss.StatusApproval x05) fresh_aggregator).2
  ∧ (size (vss.a_responses
             (vss.verifyResponse (signed_response 0 vss.StatusApproval x05)
                fresh_aggregator).2)
     ≤ length (vss.a_verifiers
                 (vss.verifyResponse (signed_response 0 vss.StatusApproval x05)
                    fresh_aggregator).2))%nat.
Proof.
  destruct (@X4_responses_indexed_by_verifier mod256.suite) as [Hnew Hrun].
  apply (Hrun fresh_aggregator).
  - exact (Hnew 0%nat dealerPub verifiers commitments 2 sid).
  - apply rtc_once, step_verifyResponse.
Defined.

Lemma X5_certification_and_bad_dealer_witness :
  vss.DealCertified
    (vss.verifyResponse (signed_response 2 vss.StatusApproval x0d)
       (vss.set_badDealer complained true)).2 = false.
Proof.
  apply (proj2 (proj2 (@X5_certification_and_bad_dealer mod256.suite))
           (vss.set_badDealer complained true)).
  - reflexivity.
  - apply rtc_once, step_verifyResponse.
Defined.

Lemma X6_one_response_per_verifier_witness :
  ∃ e, vss.verifyResponse (signed_response 0 vss.StatusComplaint x05)
         (vss.verifyResponse (signed_response 0 vss.StatusApproval x05)
            fresh_aggregator).2
       = (Failed e,
          (vss.verifyResponse (signed_response 0 vss.StatusApproval x05)
             fresh_aggregator).2).
Proof.
  destruct (proj2 (@X6_one_response_per_verifier mod256.suite)
              (signed_response 0 vss.StatusApproval x05) fresh_aggregator _
              (pair_of_fst _ _ eq_refl)) as [_ Hlater].
  apply (Hlater _ _ (rtc_refl _ _)). reflexivity.
Defined.

Lemma X7_justification_only_once_witness :
  vss.verifyJustification justification
    (vss.verifyJustification justification complained).2
  = (Failed (errors_New "vss: justification received for an approval"),
     (vss.verifyJustification justification complained).2).
Proof.
  apply (@X7_justification_only_once mod256.suite justification complained _
           (pair_of_fst _ _ eq_refl) _ justification (rtc_refl _ _)).
  reflexivity.
Defined.

Lemma X8_only_the_first_deal_is_processed_witness :
  bound_deal (vss.ProcessDeal (deal 0) verifier0).2 = Some (deal 0).
Proof.
  apply (proj1 (proj2 (@X8_only_the_first_deal_is_processed mod256.suite))).
  - reflexivity.
  - reflexivity.
Defined.

Lemma X9_ProcessDeal_response_witness :
  vss.r_Index (signed_response 0 vss.StatusApproval x05)
  = Z.to_N (uint32 (vss.v_index verifier0))
  ∧ bound_deal (vss.ProcessDeal (deal 0) verifier0).2 = Some (deal 0).
Proof.
  destruct (@X9_ProcessDeal_response mod256.suite (deal 0) verifier0 _
              (signed_response 0 vss.StatusApproval x05) (pair_of_fst _ _ eq_refl))
    as (_ & _ & Hi & _ & _ & Hb & _).
  split; assumption.
Defined.

Lemma X10_NewDealer_deals_witness :
  vss.Dealer_Key the_dealer = (dealerLong, Point_Mul 0%nat None dealerLong)
  ∧ len (vss.Deals the_dealer) = len verifiers.
Proof.
  destruct (proj2 (proj2 (@X10_NewDealer_deals mod256.suite mod256_share.share))
              0%nat dealerLong x07 verifiers stream 2 the_dealer eq_refl)
    as (_ & _ & Hk & Hl & _).
  split; assumption.
Defined.

Lemma X11_honest_deal_is_approved_witness :
  ∃ d, vss.Deals the_dealer !! Z.to_nat (vss.Verifier_Index verifier1) = Some d
       ∧ ∃ v', vss.ProcessDeal d verifier1
               = (Returned (vss.set_Signature (approval_of verifier1 d)
                              (mod256.toy_sign x09
                                 (vss.msgResponse (approval_of verifier1 d)))), v').
Proof.
  assert (Hlen : len verifiers <= 2 ^ 32) by (change (3 <= 2 ^ 32); lia).
  destruct (@X11_honest_deal_is_approved mod256.suite mod256_share.share 0%nat dealerLong
              x07 x09 verifiers stream 2 the_dealer verifier1 mod256_share_laws Hlen
              eq_refl eq_refl) as (d & Hd & Hrest).
  exists d. split; [exact Hd|].
  destruct (Hrest _ eq_refl) as ((v' & Hv' & _) & _).
  exists v'. exact Hv'.
Defined.


Lemma X13_honest_justification_is_accepted_witness :
  ∃ a', vss.verifyJustification
          {| vss.j_SessionID := sid; vss.j_Index := 1%N; vss.j_Deal := deal 1;
             vss.j_Signature :=
               mod256.toy_sign dealerLong (vss.msgJustification justification) |}
          complained
        = (Returned (), a')
        ∧ vss.a_responses a' !! 1%N
          = Some (vss.set_Status (signed_response 1 vss.StatusComplaint x09)
                    vss.statusJustified)
        ∧ vss.a_badDealer a' = vss.a_badDealer complained.
Proof.
  apply (@X13_honest_justification_is_accepted mod256.suite mod256_share.share 0%nat
           dealerLong x07 verifiers stream 2 the_dealer
           (vss.Dealer_ProcessResponse (signed_response 1 vss.StatusComplaint x09)
              the_dealer).2
           (signed_response 1 vss.StatusComplaint x09)
           (signed_response 1 vss.StatusComplaint x09)).
  - exact mod256_share_laws.
  - reflexivity.
  - apply pair_of_fst. reflexivity.
  - reflexivity.
  - reflexivity.
  - reflexivity.
  - intros _. reflexivity.
  - reflexivity.
  - reflexivity.
Defined.

Lemma X14_released_when_certified_witness :
  vss.SecretCommit the_dealer
  = Returned (if vss.DealCertified fresh_aggregator
              then Some (Point_Mul 0%nat None x07) else None).
Proof.
  exact (proj1 (proj1 (@X14_released_when_certified mod256.suite)
                  the_dealer fresh_aggregator eq_refl)).
Defined.

Lemma X16_verifier_needs_a_deal_first_witness :
  vss.Verifier_Deal verifier0 = Panicked NilDereference
  ∧ vss.Verifier_SessionID (vss.ProcessDeal (deal 0) verifier0).2
    = Returned (vss.d_SessionID (deal 0)).
Proof.
  destruct (@X16_verifier_needs_a_deal_first mod256.suite 0%nat x05 dealerPub verifiers
              verifier0 eq_refl) as (_ & _ & Hd & _ & Hp).
  split; [exact Hd|]. exact (proj1 (Hp (deal 0) eq_refl)).
Defined.

Lemma X17_revealed_share_is_the_verified_share_witness :
  ∃ share, promise.RevealShare the_promise 1 (key x09) = Returned share
           ∧ promise.VerifyRevealedShare the_promise 1 share = Returned ().
Proof.
  apply (proj2 (@X17_revealed_share_is_the_verified_share mod256.suite)
           secretPair longPair 2 2 insurers rand the_promise 1 (key x09)
           mod256_suite_laws).
  - reflexivity.
  - reflexivity.
  - cbn. lia.
  - reflexivity.
  - reflexivity.
Defined.

Lemma X18_signature_covers_no_promise_witness :
  promise.VerifySignature
    {| promise.p_id := ""; promise.p_suite := 0%nat; promise.p_t := 1; promise.p_r := 1;
       promise.p_n := 1; promise.p_pubKey := x00; promise.p_pubPoly := [];
       promise.p_insurers := [x0f]; promise.p_secrets := [] |} 0 the_signature
  = Returned ().
Proof.
  apply (proj2 (@X18_signature_covers_no_promise mod256.suite) the_promise _ 0 0).
  - reflexivity.
  - cbn. lia.
  - reflexivity.
Defined.

Lemma X19_identifier_is_not_transmitted_witness :
  promise.Id zero_threshold.decoded = promise.Id blank_promise
  ∧ promise.p_suite zero_threshold.decoded = promise.p_suite blank_promise.
Proof.
  apply (proj1 (@X19_identifier_is_not_transmitted mod256.suite) blank_promise
           zero_threshold.decoded zero_threshold.buf).
  reflexivity.
Defined.

Lemma X20_fresh_state_witness :
  ∃ ps, promise.Init the_promise = Returned ps
        ∧ promise.ps_Promise ps = the_promise
        ∧ promise.ps_signatures ps = replicate (length (promise.p_insurers the_promise)) None
        ∧ promise.ps_blames ps = replicate (length (promise.p_insurers the_promise)) None
        ∧ promise.PromiseCertified ps
          = if 0 <? promise.p_r the_promise
            then Failed (errors_New "Not enough signatures yet to be certified")
            else Returned ().
Proof.
  apply (@X20_fresh_state mod256.suite the_promise). reflexivity.
Defined.

Lemma X21_slots_are_overwritten_witness :
  ∃ ps' old, promise.AddSignature the_state 1 (Some the_signature) = Returned ps'
             ∧ promise.AddSignature ps' 1 old = Returned the_state.
Proof.
  destruct (proj2 (proj1 (@X21_slots_are_overwritten mod256.suite) the_state 1
                     (Some the_signature)))
    as (ps' & old & H1 & _ & _ & _ & _ & _ & H2).
  - change (0 <= 1 < 3). lia.
  - exists ps', old. auto.
Defined.

Lemma X22_short_buffers_are_refused_witness :
  promise.BlameProof_UnmarshalBinary blank_blame []
  = Failed (errors_New "Buffer size too small").
Proof.
  assert (Hp : 0 <= PointLen (promise.bp_suite blank_blame)) by (change (0 <= 1); lia).
  apply (proj1 (proj2 (@X22_short_buffers_are_refused mod256.suite) blank_blame [] Hp)).
  change (0 < 2 * 4 + 1). lia.
Defined.


Lemma X24_stream_round_trip_witness :
  ∃ buf p',
    promise.MarshalTo the_promise [] = (IoReturned (promise.MarshalSize the_promise) (), buf)
    ∧ promise.UnmarshalFrom (promise.UnmarshalInit blank_promise 0%nat) buf
      = (IoReturned (promise.MarshalSize the_promise) p', [])
    ∧ promise.Equal the_promise p' = Returned true.
Proof.
  destruct (proj1 (@X24_stream_round_trip mod256.suite) the_promise blank_promise [] []
              mod256_Promise_wf) as (buf & p' & Hm & Hu & He).
  exists buf, p'. rewrite app_nil_r in Hu. auto.
Defined.


Lemma X26_blame_stands_when_the_share_fails_witness :
  promise.VerifyBlame the_promise 0 the_blame
  = Failed (errors_New "Unjustified blame. The share checks out okay.")
  ↔ promise.VerifyShare the_promise 0 (key x05) = Returned ().
Proof.
  apply (@X26_blame_stands_when_the_share_fails mod256.suite the_promise 0 (key x05)
           rand [] the_blame).
  - exact mod256_blame_laws.
  - reflexivity.
  - reflexivity.
  - change (0 <= 0 < 3). lia.
  - reflexivity.
  - reflexivity.
Defined.

Lemma X27_VerifyDeal_verdict_witness :
  (vss.VerifyDeal (deal 0) true fresh_aggregator).1 = Returned ().
Proof.
  apply (proj1 (@X27_VerifyDeal_verdict mod256.suite (deal 0) true fresh_aggregator)).
  split; [intros [[d Hd] _]; discriminate|].
  split; [reflexivity|].
  split; [intros [d Hd]; discriminate|].
  split; [reflexivity|].
  split; [reflexivity|].
  split; [change (0 <= 0 < 3); lia|].
  reflexivity.
Defined.

Lemma X28_what_the_signatures_cover_witness :
  vss.msgDeal (unsigned_deal sid 3 0) = vss.msgDeal (deal 0)
  ∧ sign_VerifySchnorr 0%nat dealerPub (vss.msgDeal (unsigned_deal sid 3 0))
      (vss.d_Signature (deal 0))
    = sign_VerifySchnorr 0%nat dealerPub (vss.msgDeal (deal 0)) (vss.d_Signature (deal 0)).
Proof.
  apply (proj2 (@X28_what_the_signatures_cover mod256.suite)); reflexivity.
Defined.

Lemma X29_justification_is_not_tied_to_the_complaint_witness :
  ∃ a', vss.verifyJustification
          {| vss.j_SessionID := []; vss.j_Index := 1%N; vss.j_Deal := deal 0;
             vss.j_Signature := [] |} complained
        = (Returned (), a')
        ∧ vss.a_responses a' !! 1%N
          = Some (vss.set_Status (signed_response 1 vss.StatusComplaint x09)
                    vss.statusJustified)
        ∧ vss.a_badDealer a' = vss.a_badDealer complained.
Proof.
  apply (proj2 (@X29_justification_is_not_tied_to_the_complaint mod256.suite
                  mod256_share.share)
           0%nat dealerLong x07 verifiers stream 2 the_dealer 0%nat).
  - exact mod256_share_laws.
  - reflexivity.
  - reflexivity.
  - reflexivity.
  - reflexivity.
  - reflexivity.
  - intros _. reflexivity.
  - reflexivity.
  - reflexivity.
  - eexists. reflexivity.
Defined.

End OnTheExamples.
